(** * react-native-dlna-player: the cast orchestrator, the playback
      controller and the DIDL-Lite metadata encoder

    Shallow embedding of
      - android/src/main/java/byron/dlna/RNByronDLNAModuleEnhanced.java
      - ios/RNByronDLNAEnhanced.mm
      - index-enhanced.js (the JavaScript wrapper of [castToDevice])

    Strings are [string] (sequences of 8-bit characters, read as the UTF-8
    encoding of the Java / Objective-C string); the registry of the Android
    UPnP service is its query function, the iOS device cache is a
    [gmap string Device]; the main-looper queue, the heap of completion
    flags and the list of dispatcher invocations are lists indexed with
    stdpp's lookup and insert; times are [Z] milliseconds. *)

From Stdlib Require Import ZArith Ascii String.
From stdpp Require Import base tactics option list strings gmap pretty.

Local Open Scope string_scope.
Local Open Scope Z_scope.

#[local] Arguments String.append !_ _ / : simpl nomatch.

(** ** String primitives used by the sources *)

Module Str.

(** The one-character string holding the double quote. *)
Definition dq : string := String "034"%char EmptyString.

(** [String.startsWith] / [-hasPrefix:]. *)
Fixpoint startsWith (p s : string) : bool :=
  match p, s with
  | EmptyString, _ => true
  | String _ _, EmptyString => false
  | String a p', String b s' => if Ascii.eqb a b then startsWith p' s' else false
  end.

(** [String.endsWith] / [-hasSuffix:]. *)
Fixpoint endsWith (suf s : string) : bool :=
  if String.eqb s suf then true
  else match s with
       | EmptyString => false
       | String _ s' => endsWith suf s'
       end.

(** [String.contains] / [-containsString:]. *)
Fixpoint contains (sub s : string) : bool :=
  if startsWith sub s then true
  else match s with
       | EmptyString => false
       | String _ s' => contains sub s'
       end.

(** [String.isEmpty] / [length == 0]. *)
Definition isEmpty (s : string) : bool :=
  match s with EmptyString => true | String _ _ => false end.

(** [String.replace(target, replacement)] /
    [-stringByReplacingOccurrencesOfString:withString:], for the targets the
    sources use: every target is a one-character string, so each occurrence
    of the character [c] is replaced, left to right. *)
Fixpoint replace (c : ascii) (r : string) (s : string) : string :=
  match s with
  | EmptyString => EmptyString
  | String a s' =>
      if Ascii.eqb a c then r +:+ replace c r s' else String a (replace c r s')
  end.

(** [toLowerCase] on one 8-bit character: the letters A..Z move to a..z.
    The bytes of a multi-byte UTF-8 sequence are left as they are: Java
    lower-cases non-ASCII letters too, but none of them (in any locale)
    becomes one of the ASCII letters of play, pause and stop, so the
    comparison with these three literals is not affected. *)
Definition lowerChar (a : ascii) : ascii :=
  let n := nat_of_ascii a in
  if (Nat.leb 65 n && Nat.leb n 90)%bool then ascii_of_nat (n + 32) else a.

(** [String.toLowerCase()]. *)
Fixpoint toLowerCase (s : string) : string :=
  match s with
  | EmptyString => EmptyString
  | String a s' => String (lowerChar a) (toLowerCase s')
  end.

(** The characters of a string, for statements about occurrences. *)
Fixpoint chars (s : string) : list ascii :=
  match s with
  | EmptyString => []
  | String a s' => a :: chars s'
  end.

End Str.

(** ** Metadata encoder (shared by both native modules)

    [escapeXml] and [generateDIDLMetadata] are the same function in
    RNByronDLNAModuleEnhanced.java (lines 539-572) and in
    RNByronDLNAEnhanced.mm (lines 502-542). *)

Module Didl.
Import Str.

(** [escapeXml(text)]: five successive replacements, [&] first. The
    [null] / [nil] guard returns the empty string. *)
Definition escapeXml_nullable (text : option string) : string :=
  match text with
  | None => ""
  | Some t =>
      replace "'"%char "&apos;"
        (replace "034"%char "&quot;"
           (replace ">"%char "&gt;"
              (replace "<"%char "&lt;"
                 (replace "&"%char "&amp;" t))))
  end.

Definition escapeXml (text : string) : string := escapeXml_nullable (Some text).

Definition HLS_PROTOCOL : string := "http-get:*:application/vnd.apple.mpegurl:*".
Definition MP4_PROTOCOL : string := "http-get:*:video/mp4:*".
Definition GENERIC_PROTOCOL : string := "http-get:*:video/*:*".

(** The [protocolInfo] chosen from the raw (unescaped) url. *)
Definition protocolInfo (url : string) : string :=
  if (endsWith ".m3u8" url || contains ".m3u8?" url)%bool then HLS_PROTOCOL
  else if endsWith ".mp4" url then MP4_PROTOCOL
  else GENERIC_PROTOCOL.

(** The literal DIDL-Lite frame around the three computed strings. *)
Definition didl (escapedTitle protocol escapedUrl : string) : string :=
  "<DIDL-Lite xmlns=" +:+ dq +:+ "urn:schemas-upnp-org:metadata-1-0/DIDL-Lite/" +:+ dq +:+ " " +:+
  "xmlns:dc=" +:+ dq +:+ "http://purl.org/dc/elements/1.1/" +:+ dq +:+ " " +:+
  "xmlns:upnp=" +:+ dq +:+ "urn:schemas-upnp-org:metadata-1-0/upnp/" +:+ dq +:+ " " +:+
  "xmlns:dlna=" +:+ dq +:+ "urn:schemas-dlna-org:metadata-1-0/" +:+ dq +:+ ">" +:+
  "<item id=" +:+ dq +:+ "1" +:+ dq +:+ " parentID=" +:+ dq +:+ "0" +:+ dq +:+
    " restricted=" +:+ dq +:+ "1" +:+ dq +:+ ">" +:+
  "<dc:title>" +:+ escapedTitle +:+ "</dc:title>" +:+
  "<upnp:class>object.item.videoItem</upnp:class>" +:+
  "<res protocolInfo=" +:+ dq +:+ protocol +:+ dq +:+ ">" +:+ escapedUrl +:+ "</res>" +:+
  "</item>" +:+
  "</DIDL-Lite>".

(** [generateDIDLMetadata(url, title)]. *)
Definition generateDIDLMetadata (url title : string) : string :=
  let escapedUrl := escapeXml url in
  let escapedTitle := escapeXml title in
  didl escapedTitle (protocolInfo url) escapedUrl.

(** [title != null ? title : "Video"] (Java, line 277) and
    [title ? title : @"Video"] (Objective-C, line 297). *)
Definition safeTitle (title : option string) : string :=
  match title with Some t => t | None => "Video" end.

(** Single-pass reading of the escaping, used to state what the chain of
    replacements achieves: the entity of one character. *)
Definition entity (a : ascii) : string :=
  if Ascii.eqb a "&"%char then "&amp;"
  else if Ascii.eqb a "<"%char then "&lt;"
  else if Ascii.eqb a ">"%char then "&gt;"
  else if Ascii.eqb a "034"%char then "&quot;"
  else if Ascii.eqb a "'"%char then "&apos;"
  else String a EmptyString.

(** The characters that must not appear raw in XML text or attribute
    values; [&] may appear only as the start of an entity. *)
Definition markup (c : ascii) : Prop :=
  c = "<"%char \/ c = ">"%char \/ c = "034"%char \/ c = "'"%char.

(** The two suffix rules of the descriptor selection, as properties of
    the raw url. *)
Definition isHls (url : string) : Prop :=
  (exists p, url = p +:+ ".m3u8") \/ (exists p q, url = p +:+ ".m3u8?" +:+ q).

Definition isMp4 (url : string) : Prop := exists p, url = p +:+ ".mp4".

Fixpoint entities (s : string) : string :=
  match s with
  | EmptyString => EmptyString
  | String a s' => entity a +:+ entities s'
  end.

End Didl.

(** ** Types shared by the two native modules *)

(** The rejection codes of the bridge ([promise.reject(code, ...)] /
    [reject(@code, ...)]), as listed by [DLNAErrorCode] in index.d.ts. *)
Inductive ErrorCode :=
| INVALID_URL
| DEVICE_NOT_FOUND
| SERVICE_NOT_STARTED
| SERVICE_NOT_AVAILABLE
| NETWORK_ERROR
| TIMEOUT
| MAX_RETRIES_EXCEEDED
| CAST_FAILED
| INVALID_ACTION
| ACTION_FAILED
| CONTROLLER_NOT_INITIALIZED
| CONTROL_ERROR.

Global Instance ErrorCode_eq_dec : EqDecision ErrorCode.
Proof. solve_decision. Defined.

(** One call on the promise of a bridge method. *)
Inductive Settle :=
| Resolve (value : bool)
| Reject (code : ErrorCode) (message : string).

Definition rejectedWith (c : ErrorCode) (s : Settle) : bool :=
  match s with
  | Reject c' _ => bool_decide (c' = c)
  | Resolve _ => false
  end.

(** The stage of a [dlna-cast-progress] event. *)
Inductive Stage := connecting | buffering | playing.

Global Instance Stage_eq_dec : EqDecision Stage.
Proof. solve_decision. Defined.

Record ProgressEvent := {
  stage : Stage;
  message : string;
  deviceName : string;
  timestamp : Z
}.

(** The UPnP actions handed to the control point / media controller. *)
Inductive Action :=
| SetAVTransportURI (uri metadata : string)
| Play
| Pause
| Stop.

(** The arguments of one [castToDevice] call, captured by every closure of
    the retry loop. [title] is [None] for Java [null] / Objective-C [nil]. *)
Record CastRequest := {
  deviceId : string;
  videoUrl : string;
  title : option string
}.

(** [validateVideoUrl]: [Some message] when the url is rejected (with code
    INVALID_URL), [None] when it is accepted. The https warning is a log
    line only. The type [string] leaves out the [null] url, which the
    sources reject with the first message too. *)
Definition validateVideoUrl (url : string) : option string :=
  if Str.isEmpty url then
    Some ("Video URL cannot be empty. " +:+ "Please provide a valid HTTP or HTTPS URL.")
  else if (negb (Str.startsWith "http://" url) && negb (Str.startsWith "https://" url))%bool then
    Some ("Invalid video URL: '" +:+ url +:+ "'. " +:+ "URL must start with http:// or https://.")
  else None.

(** The two accepted transport schemes, as a property of the url. *)
Definition acceptedScheme (url : string) : Prop :=
  (exists r, url = "http://" +:+ r) \/ (exists r, url = "https://" +:+ r).

(** The three literal playback actions. *)
Definition validAction (a : string) : Prop :=
  a = "play" \/ a = "pause" \/ a = "stop".

Definition actionOf (a : string) : Action :=
  if String.eqb a "play" then Play
  else if String.eqb a "pause" then Pause
  else Stop.

(** ** The Android module (RNByronDLNAModuleEnhanced.java)

    Posted runnables run on the main looper; the control point answers an
    [execute]d action later, from a thread of the UPnP service, by calling
    [success] or [failure] of the callback exactly once. The model takes a
    bridge call, a posted runnable and a callback each as one step that runs
    to completion, in any order that respects the due times; between the
    steps the state below persists. *)

Module Android.

Definition MAX_RETRIES : Z := 3.
Definition INITIAL_RETRY_DELAY : Z := 1000.
Definition CAST_TIMEOUT_MS : Z := 30000.

(** What the module reads from a registry [Device]. *)
Record Device := {
  friendlyName : string;
  (** [device.findService(new UDAServiceType("AVTransport")) != null] *)
  hasAVTransport : bool
}.

(** The two lambdas posted to the main looper. Each closure keeps the
    variables it captured: the completion flag is an index into the heap
    of [AtomicBoolean]s. *)
Inductive Runnable :=
| timeoutRunnable (operationCompleted : nat) (attemptNumber : Z)
| retryRunnable (attemptNumber : Z).

Record Posted := {
  runnable : Runnable;
  due : Z;
  pending : bool
}.

(** The anonymous [ActionCallback] subclasses, with captured variables. *)
Inductive ActionCallback :=
| onSetAVTransportURI (operationCompleted timeoutId : nat) (attemptNumber : Z) (name : string)
| onCastPlay (operationCompleted timeoutId : nat) (attemptNumber : Z) (name : string)
| onControl.

Record Invocation := {
  action : Action;
  callback : ActionCallback;
  answered : bool
}.

(** What the control point reports for one invocation. *)
Inductive Outcome :=
| Success
| Failure (defaultMsg : string).

Record State := {
  (** [upnpService]: [None] is [null]; otherwise the registry of the UPnP
      service (Cling, not part of this repository), taken as its query
      [d |-> getRegistry().getDevice(UDN.valueOf(d), false)], where [None]
      is the [null] device *)
  upnpService : option (string -> option Device);
  (** [System.currentTimeMillis()] / looper clock *)
  now : Z;
  (** heap of [AtomicBoolean operationCompleted], one per attempt started *)
  flags : list bool;
  (** every runnable posted with [postDelayed], in posting order *)
  looper : list Posted;
  (** every action passed to [getControlPoint().execute] *)
  invocations : list Invocation;
  (** the calls made on the [Promise] of the bridge call, oldest first *)
  promise : list Settle;
  (** the [dlna-cast-progress] events emitted, oldest first *)
  emitted : list ProgressEvent;
  (** instrumentation: the [attemptNumber] of each entry into
      [castToDeviceWithRetry] *)
  attemptLog : list Z
}.

Definition initial (service : option (string -> option Device)) : State :=
  {| upnpService := service; now := 0; flags := []; looper := [];
     invocations := []; promise := []; emitted := []; attemptLog := [] |}.

Definition setService (r : option (string -> option Device)) (st : State) : State :=
  {| upnpService := r; now := now st; flags := flags st; looper := looper st;
     invocations := invocations st; promise := promise st;
     emitted := emitted st; attemptLog := attemptLog st |}.

Definition setNow (t : Z) (st : State) : State :=
  {| upnpService := upnpService st; now := t; flags := flags st; looper := looper st;
     invocations := invocations st; promise := promise st;
     emitted := emitted st; attemptLog := attemptLog st |}.

Definition setFlags (f : list bool) (st : State) : State :=
  {| upnpService := upnpService st; now := now st; flags := f; looper := looper st;
     invocations := invocations st; promise := promise st;
     emitted := emitted st; attemptLog := attemptLog st |}.

Definition setLooper (l : list Posted) (st : State) : State :=
  {| upnpService := upnpService st; now := now st; flags := flags st; looper := l;
     invocations := invocations st; promise := promise st;
     emitted := emitted st; attemptLog := attemptLog st |}.

Definition setInvocations (l : list Invocation) (st : State) : State :=
  {| upnpService := upnpService st; now := now st; flags := flags st; looper := looper st;
     invocations := l; promise := promise st;
     emitted := emitted st; attemptLog := attemptLog st |}.

Definition settle (s : Settle) (st : State) : State :=
  {| upnpService := upnpService st; now := now st; flags := flags st; looper := looper st;
     invocations := invocations st; promise := promise st ++ [s];
     emitted := emitted st; attemptLog := attemptLog st |}.

Definition logAttempt (n : Z) (st : State) : State :=
  {| upnpService := upnpService st; now := now st; flags := flags st; looper := looper st;
     invocations := invocations st; promise := promise st;
     emitted := emitted st; attemptLog := attemptLog st ++ [n] |}.

(** [promise.reject(code, message, null)] and [promise.resolve(true)]. *)
Definition reject (c : ErrorCode) (msg : string) : State -> State := settle (Reject c msg).
Definition resolve (v : bool) : State -> State := settle (Resolve v).

(** [emitCastProgress(stage, message, deviceName)]. *)
Definition emitCastProgress (s : Stage) (msg name : string) (st : State) : State :=
  {| upnpService := upnpService st; now := now st; flags := flags st; looper := looper st;
     invocations := invocations st; promise := promise st;
     emitted := emitted st ++
       [{| stage := s; message := msg; deviceName := name; timestamp := now st |}];
     attemptLog := attemptLog st |}.

(** [new Handler(Looper.getMainLooper()).postDelayed(r, delay)]. *)
Definition postDelayed (r : Runnable) (delay : Z) (st : State) : State :=
  setLooper (looper st ++ [{| runnable := r; due := now st + delay; pending := true |}]) st.

Definition cancelled (p : Posted) : Posted :=
  {| runnable := runnable p; due := due p; pending := false |}.

(** [timeoutHandler.removeCallbacks(timeoutRunnable)]; also used when the
    looper takes a runnable off the queue to run it. *)
Definition removeCallbacks (id : nat) (st : State) : State :=
  setLooper (alter cancelled id (looper st)) st.

(** [new AtomicBoolean(false)], [get()] and [compareAndSet(false, true)]. *)
Definition newAtomicBoolean (st : State) : State := setFlags (flags st ++ [false]) st.

Definition get (flag : nat) (st : State) : bool :=
  match flags st !! flag with Some b => b | None => false end.

Definition compareAndSet_false_true (flag : nat) (st : State) : bool * State :=
  if get flag st then (false, st) else (true, setFlags (<[flag := true]> (flags st)) st).

(** [upnpService.getControlPoint().execute(callback)]. *)
Definition execute (a : Action) (cb : ActionCallback) (st : State) : State :=
  setInvocations (invocations st ++ [{| action := a; callback := cb; answered := false |}]) st.

Definition markAnswered (i : Invocation) : Invocation :=
  {| action := action i; callback := callback i; answered := true |}.

(** [retryOrFail] (lines 362-375). [(long) Math.pow(2, n)] is [2 ^ n] for
    [n >= 0] and 0 for [n < 0], which is [Z.pow]. *)
Definition retryOrFail (attemptNumber : Z) (errorMsg : string) (st : State) : State :=
  if MAX_RETRIES <=? attemptNumber then
    reject CAST_FAILED (errorMsg +:+ " after " +:+ pretty MAX_RETRIES +:+ " attempts") st
  else
    let delay := INITIAL_RETRY_DELAY * 2 ^ (attemptNumber - 1) in
    postDelayed (retryRunnable attemptNumber) delay st.

(** [castToDeviceWithRetry] (lines 230-357), up to the point where the
    method returns; the callbacks it registers are [deliver] below. The
    library calls of the [try] block are taken not to throw, so the
    [catch (Exception e)] branch has no counterpart. *)
Definition castToDeviceWithRetry (rq : CastRequest) (attemptNumber : Z) (st0 : State) : State :=
  let st := logAttempt attemptNumber st0 in
  if MAX_RETRIES <? attemptNumber then
    reject MAX_RETRIES_EXCEEDED
      ("Failed to cast after " +:+ pretty MAX_RETRIES +:+ " attempts. " +:+
       "Device may be offline or incompatible. Try restarting the device and discovering again.")
      st
  else
    match upnpService st with
    | None =>
        reject SERVICE_NOT_STARTED
          "DLNA service not started. Call startService('Your App Name') before casting." st
    | Some registry =>
        match registry (deviceId rq) with
        | None =>
            reject DEVICE_NOT_FOUND
              ("Device with ID '" +:+ deviceId rq +:+ "' not found. " +:+
               "Device may have gone offline or discovery needs to be re-run. " +:+
               "Try calling discoverDevices() again.") st
        | Some device =>
            let name := friendlyName device in
            let st := emitCastProgress connecting "Connecting to device..." name st in
            if negb (hasAVTransport device) then
              reject SERVICE_NOT_AVAILABLE
                ("Device '" +:+ name +:+ "' does not support AVTransport service. " +:+
                 "This device cannot play media via DLNA. " +:+
                 "Only MediaRenderer devices with AVTransport are supported.") st
            else
              let metadata :=
                Didl.generateDIDLMetadata (videoUrl rq) (Didl.safeTitle (title rq)) in
              let operationCompleted := length (flags st) in
              let st := newAtomicBoolean st in
              let timeoutId := length (looper st) in
              let st := postDelayed (timeoutRunnable operationCompleted attemptNumber)
                          CAST_TIMEOUT_MS st in
              execute (SetAVTransportURI (videoUrl rq) metadata)
                (onSetAVTransportURI operationCompleted timeoutId attemptNumber name) st
        end
    end.

(** [castToDevice] (lines 216-225). *)
Definition castToDevice (rq : CastRequest) (st : State) : State :=
  match validateVideoUrl (videoUrl rq) with
  | Some msg => reject INVALID_URL msg st
  | None => castToDeviceWithRetry rq 1 st
  end.

(** The body of a posted runnable. *)
Definition runRunnable (rq : CastRequest) (r : Runnable) (st : State) : State :=
  match r with
  | timeoutRunnable operationCompleted attemptNumber =>
      if negb (get operationCompleted st) then
        retryOrFail attemptNumber "Operation timed out" st
      else st
  | retryRunnable attemptNumber =>
      castToDeviceWithRetry rq (attemptNumber + 1) st
  end.

(** [success] and [failure] of the registered callbacks. *)
Definition deliver (cb : ActionCallback) (o : Outcome) (st : State) : State :=
  match cb, o with
  | onSetAVTransportURI operationCompleted timeoutId attemptNumber name, Success =>
      let st := emitCastProgress buffering "Loading media on TV..." name st in
      execute Play (onCastPlay operationCompleted timeoutId attemptNumber name) st
  | onSetAVTransportURI operationCompleted timeoutId attemptNumber name, Failure defaultMsg =>
      match compareAndSet_false_true operationCompleted st with
      | (true, st) =>
          let st := removeCallbacks timeoutId st in
          let errorMsg := "Failed to load media: " +:+ defaultMsg +:+ ". " +:+
                          "Check that the URL is accessible from the TV's network." in
          retryOrFail attemptNumber errorMsg st
      | (false, st) => st
      end
  | onCastPlay operationCompleted timeoutId attemptNumber name, Success =>
      match compareAndSet_false_true operationCompleted st with
      | (true, st) =>
          let st := removeCallbacks timeoutId st in
          let st := emitCastProgress playing "Media is now playing" name st in
          resolve true st
      | (false, st) => st
      end
  | onCastPlay operationCompleted timeoutId attemptNumber name, Failure defaultMsg =>
      match compareAndSet_false_true operationCompleted st with
      | (true, st) =>
          let st := removeCallbacks timeoutId st in
          let errorMsg := "Play command failed: " +:+ defaultMsg +:+ ". " +:+
                          "Device may not support the media format or is busy." in
          retryOrFail attemptNumber errorMsg st
      | (false, st) => st
      end
  | onControl, Success => resolve true st
  | onControl, Failure defaultMsg => reject ACTION_FAILED defaultMsg st
  end.

(** [controlPlayback] (lines 381-470). The [action] string is not [null]. *)
Definition controlPlayback (device_id action : string) (st : State) : State :=
  match upnpService st with
  | None =>
      reject SERVICE_NOT_STARTED
        "DLNA service not started. Call startService('Your App Name') before controlling playback."
        st
  | Some registry =>
      match registry device_id with
      | None =>
          reject DEVICE_NOT_FOUND
            ("Device with ID '" +:+ device_id +:+ "' not found. " +:+
             "Device may have gone offline. Try discovering devices again.") st
      | Some device =>
          let name := friendlyName device in
          if negb (hasAVTransport device) then
            reject SERVICE_NOT_AVAILABLE
              ("Device '" +:+ name +:+ "' does not support AVTransport service. " +:+
               "Cannot control playback on this device.") st
          else
            let a := Str.toLowerCase action in
            if String.eqb a "play" then execute Play onControl st
            else if String.eqb a "pause" then execute Pause onControl st
            else if String.eqb a "stop" then execute Stop onControl st
            else
              reject INVALID_ACTION
                ("Invalid action: '" +:+ action +:+ "'. " +:+
                 "Valid actions are: 'play', 'pause', 'stop'.") st
      end
  end.

(** *** The environment of one cast call

    What can happen after the bridge call returned: the looper runs a
    posted runnable that is due, the control point answers an invocation
    that has no answer yet, or the service / registry changes. An input
    that is not possible at the given time gives [None]. *)
Inductive Input :=
| fire (id : nat)
| respond (inv : nat) (o : Outcome)
| registryChanged (service : option (string -> option Device)).

Definition step (rq : CastRequest) (t : Z) (i : Input) (st0 : State) : option State :=
  if t <? now st0 then None
  else
    let st := setNow t st0 in
    match i with
    | fire id =>
        match looper st !! id with
        | Some p =>
            if (pending p && (due p <=? t))%bool
            then Some (runRunnable rq (runnable p) (removeCallbacks id st))
            else None
        | None => None
        end
    | respond inv o =>
        match invocations st !! inv with
        | Some iv =>
            if answered iv then None
            else Some (deliver (callback iv) o
                         (setInvocations (<[inv := markAnswered iv]> (invocations st)) st))
        | None => None
        end
    | registryChanged service => Some (setService service st)
    end.

Fixpoint run (rq : CastRequest) (script : list (Z * Input)) (st : State) : option State :=
  match script with
  | [] => Some st
  | (t, i) :: rest =>
      match step rq t i st with
      | Some st' => run rq rest st'
      | None => None
      end
  end.

(** Observations used in the statements. *)
Definition stages (st : State) : list Stage := map stage (emitted st).

Definition settled (c : ErrorCode) (st : State) : list bool :=
  map (rejectedWith c) (promise st).

Definition countStage (s : Stage) (st : State) : nat :=
  length (filter (fun x => x = s) (stages st)).

Definition pendingRunnables (st : State) : list Posted :=
  filter (fun p => pending p = true) (looper st).

Definition actions (st : State) : list Action := map action (invocations st).

(** What a state shows of a call: its progress stages, the calls on its
    promise, the attempts it started and the runnables still pending. *)
Definition observe (st : State) : list Stage * list Settle * list Z * list Runnable :=
  (stages st, promise st, attemptLog st, map runnable (pendingRunnables st)).

(** The only thing a cast call reads from the service: whether it is
    bound, and the device its own identifier resolves to. *)
Definition found (rq : CastRequest) (st : State) : option (option Device) :=
  match upnpService st with
  | Some registry => Some (registry (deviceId rq))
  | None => None
  end.

Definition keepsRegistry (i : Input) : bool :=
  match i with registryChanged _ => false | _ => true end.

(** Nothing is left to run: no runnable is pending on the looper and no
    invocation waits for its answer. *)
Definition quiescent (st : State) : Prop :=
  Forall (fun p => pending p = false) (looper st) /\
  Forall (fun i => answered i = true) (invocations st).

(** The attempt numbers a closure may carry: a retry runnable is posted
    only below [MAX_RETRIES], every other closure at most at it. *)
Definition runnableBounded (r : Runnable) : Prop :=
  match r with
  | timeoutRunnable _ n => 1 <= n <= MAX_RETRIES
  | retryRunnable n => 1 <= n < MAX_RETRIES
  end.

Definition callbackBounded (cb : ActionCallback) : Prop :=
  match cb with
  | onSetAVTransportURI _ _ n _ => 1 <= n <= MAX_RETRIES
  | onCastPlay _ _ n _ => 1 <= n <= MAX_RETRIES
  | onControl => True
  end.

Definition withinBudget (st : State) : Prop :=
  Forall (fun p => runnableBounded (runnable p)) (looper st) /\
  Forall (fun i => callbackBounded (callback i)) (invocations st) /\
  Forall (fun s => rejectedWith MAX_RETRIES_EXCEEDED s = false) (promise st) /\
  Forall (fun n => 1 <= n <= MAX_RETRIES) (attemptLog st).

(** *** Scripts in which every answer is on time

    How one attempt ends when the control point answers within 100 ms per
    action, or never answers the action at all. *)
Inductive AttemptOutcome :=
| setSourceFails (defaultMsg : string)
| playFails (defaultMsg : string)
| setSourceTimesOut
| playTimesOut
| succeeds.

(** The inputs that end an attempt begun at time [t], whose timeout
    runnable is number [T] on the looper and whose set-source invocation is
    number [I]; with the time of the last input and the number of
    invocations the attempt made. *)
Definition attemptInputs (t : Z) (T I : nat) (o : AttemptOutcome) :
    list (Z * Input) * Z * nat :=
  match o with
  | setSourceFails m => ([(t + 100, respond I (Failure m))], t + 100, 1%nat)
  | playFails m =>
      ([(t + 100, respond I Success); (t + 200, respond (S I) (Failure m))], t + 200, 2%nat)
  | setSourceTimesOut => ([(t + CAST_TIMEOUT_MS, fire T)], t + CAST_TIMEOUT_MS, 1%nat)
  | playTimesOut =>
      ([(t + 100, respond I Success); (t + CAST_TIMEOUT_MS, fire T)],
       t + CAST_TIMEOUT_MS, 2%nat)
  | succeeds =>
      ([(t + 100, respond I Success); (t + 200, respond (S I) Success)], t + 200, 2%nat)
  end.

Definition isSuccess (o : AttemptOutcome) : bool :=
  match o with succeeds => true | _ => false end.

(** The script of a call whose attempts end as listed: after a failed
    attempt number [n] the looper runs the retry runnable when it is due. *)
Fixpoint onTimeScript (t n : Z) (T I : nat) (os : list AttemptOutcome) :
    list (Z * Input) :=
  match os with
  | [] => []
  | o :: os' =>
      let '(ins, t', k) := attemptInputs t T I o in
      if isSuccess o then ins
      else match os' with
           | [] => ins
           | _ :: _ =>
               let at_ := t' + INITIAL_RETRY_DELAY * 2 ^ (n - 1) in
               (ins ++ (at_, fire (S T)) :: onTimeScript at_ (n + 1) (S (S T)) (I + k) os')%list
           end
  end.

(** The error message [retryOrFail] receives for a failed attempt. *)
Definition errorMsgOf (o : AttemptOutcome) : string :=
  match o with
  | setSourceFails m =>
      "Failed to load media: " +:+ m +:+ ". " +:+
      "Check that the URL is accessible from the TV's network."
  | playFails m =>
      "Play command failed: " +:+ m +:+ ". " +:+
      "Device may not support the media format or is busy."
  | _ => "Operation timed out"
  end.

(** The stages one attempt emits when its answers are on time. *)
Definition stagesOf (o : AttemptOutcome) : list Stage :=
  match o with
  | setSourceFails _ | setSourceTimesOut => [connecting]
  | playFails _ | playTimesOut => [connecting; buffering]
  | succeeds => [connecting; buffering; playing]
  end.

(** The attempts of a call up to and including its first success. *)
Fixpoint untilSuccess (os : list AttemptOutcome) : list AttemptOutcome :=
  match os with
  | [] => []
  | o :: os' => if isSuccess o then [o] else o :: untilSuccess os'
  end.

End Android.

(** ** The iOS module (RNByronDLNAEnhanced.mm)

    Every method runs on the main queue. The media controller is called
    with a [NULL] callback and its [NPT_Result] is read at once, so an
    action is answered inside the call that issues it. *)

Module IOS.

Definition MAX_RETRIES : Z := 3.
(** [INITIAL_RETRY_DELAY] (1.0 s) and [CAST_TIMEOUT] (30.0 s), in ms. *)
Definition INITIAL_RETRY_DELAY : Z := 1000.
Definition CAST_TIMEOUT : Z := 30000.

(** What the module reads from a [PLT_DeviceDataReference]. *)
Record Device := {
  uuid : string;
  friendlyName : string
}.

(** The two blocks handed to [dispatch_after]. *)
Inductive Block :=
| timeoutBlock (operationCompleted : nat) (attemptNumber : Z)
| retryBlock (attemptNumber : Z).

Record Scheduled := {
  block : Block;
  due : Z;
  pending : bool
}.

Record State := {
  (** [upnp && upnp->IsRunning()] *)
  upnpRunning : bool;
  (** [mediaController != NULL] (created with [ctrlPoint] by [startService]) *)
  mediaController : bool;
  (** the list filled by [ctrlPoint->GetMediaRenderers] *)
  renderers : list Device;
  (** [discoveredDevices] *)
  discoveredDevices : gmap string Device;
  (** the result of the n-th call on the media controller:
      [true] is [NPT_SUCCEEDED] *)
  transport : nat -> bool;
  now : Z;
  (** the [__block BOOL operationCompleted] variables, one per attempt *)
  flags : list bool;
  (** the blocks given to [dispatch_after], in order *)
  queue : list Scheduled;
  (** the actions sent through the media controller *)
  calls : list Action;
  promise : list Settle;
  emitted : list ProgressEvent;
  attemptLog : list Z
}.

Definition initial (running controller : bool) (rs : list Device)
    (cache : gmap string Device) (tr : nat -> bool) : State :=
  {| upnpRunning := running; mediaController := controller; renderers := rs;
     discoveredDevices := cache; transport := tr; now := 0; flags := [];
     queue := []; calls := []; promise := []; emitted := []; attemptLog := [] |}.

Definition setEnvironment (running : bool) (rs : list Device) (st : State) : State :=
  {| upnpRunning := running; mediaController := mediaController st; renderers := rs;
     discoveredDevices := discoveredDevices st; transport := transport st;
     now := now st; flags := flags st; queue := queue st; calls := calls st;
     promise := promise st; emitted := emitted st; attemptLog := attemptLog st |}.

Definition setDiscovered (m : gmap string Device) (st : State) : State :=
  {| upnpRunning := upnpRunning st; mediaController := mediaController st;
     renderers := renderers st; discoveredDevices := m; transport := transport st;
     now := now st; flags := flags st; queue := queue st; calls := calls st;
     promise := promise st; emitted := emitted st; attemptLog := attemptLog st |}.

Definition setNow (t : Z) (st : State) : State :=
  {| upnpRunning := upnpRunning st; mediaController := mediaController st;
     renderers := renderers st; discoveredDevices := discoveredDevices st;
     transport := transport st; now := t; flags := flags st; queue := queue st;
     calls := calls st; promise := promise st; emitted := emitted st;
     attemptLog := attemptLog st |}.

Definition setFlags (f : list bool) (st : State) : State :=
  {| upnpRunning := upnpRunning st; mediaController := mediaController st;
     renderers := renderers st; discoveredDevices := discoveredDevices st;
     transport := transport st; now := now st; flags := f; queue := queue st;
     calls := calls st; promise := promise st; emitted := emitted st;
     attemptLog := attemptLog st |}.

Definition setQueue (q : list Scheduled) (st : State) : State :=
  {| upnpRunning := upnpRunning st; mediaController := mediaController st;
     renderers := renderers st; discoveredDevices := discoveredDevices st;
     transport := transport st; now := now st; flags := flags st; queue := q;
     calls := calls st; promise := promise st; emitted := emitted st;
     attemptLog := attemptLog st |}.

Definition setCalls (c : list Action) (st : State) : State :=
  {| upnpRunning := upnpRunning st; mediaController := mediaController st;
     renderers := renderers st; discoveredDevices := discoveredDevices st;
     transport := transport st; now := now st; flags := flags st; queue := queue st;
     calls := c; promise := promise st; emitted := emitted st;
     attemptLog := attemptLog st |}.

Definition settle (s : Settle) (st : State) : State :=
  {| upnpRunning := upnpRunning st; mediaController := mediaController st;
     renderers := renderers st; discoveredDevices := discoveredDevices st;
     transport := transport st; now := now st; flags := flags st; queue := queue st;
     calls := calls st; promise := promise st ++ [s]; emitted := emitted st;
     attemptLog := attemptLog st |}.

Definition logAttempt (n : Z) (st : State) : State :=
  {| upnpRunning := upnpRunning st; mediaController := mediaController st;
     renderers := renderers st; discoveredDevices := discoveredDevices st;
     transport := transport st; now := now st; flags := flags st; queue := queue st;
     calls := calls st; promise := promise st; emitted := emitted st;
     attemptLog := attemptLog st ++ [n] |}.

Definition reject (c : ErrorCode) (msg : string) : State -> State := settle (Reject c msg).
Definition resolve (v : bool) : State -> State := settle (Resolve v).

(** [-emitCastProgress:message:deviceName:]. *)
Definition emitCastProgress (s : Stage) (msg name : string) (st : State) : State :=
  {| upnpRunning := upnpRunning st; mediaController := mediaController st;
     renderers := renderers st; discoveredDevices := discoveredDevices st;
     transport := transport st; now := now st; flags := flags st; queue := queue st;
     calls := calls st; promise := promise st;
     emitted := emitted st ++
       [{| stage := s; message := msg; deviceName := name; timestamp := now st |}];
     attemptLog := attemptLog st |}.

(** [dispatch_after(dispatch_time(DISPATCH_TIME_NOW, delay), main, block)]. *)
Definition dispatch_after (delay : Z) (b : Block) (st : State) : State :=
  setQueue (queue st ++ [{| block := b; due := now st + delay; pending := true |}]) st.

Definition taken (s : Scheduled) : Scheduled :=
  {| block := block s; due := due s; pending := false |}.

(** One synchronous call on the media controller: the action is recorded
    and its result returned. *)
Definition invoke (a : Action) (st : State) : bool * State :=
  (transport st (length (calls st)), setCalls (calls st ++ [a]) st).

(** [[NSThread sleepForTimeInterval:0.5]]. *)
Definition sleepHalfSecond (st : State) : State := setNow (now st + 500) st.

(** [-retryOrFail:...] (lines 382-411). [pow(2, attemptNumber - 1)] is
    taken at [attemptNumber >= 1], the only values the retry loop passes. *)
Definition retryOrFail (attemptNumber : Z) (errorMsg : string) (st : State) : State :=
  if MAX_RETRIES <=? attemptNumber then
    reject CAST_FAILED (errorMsg +:+ " after " +:+ pretty MAX_RETRIES +:+ " attempts") st
  else
    let delay := INITIAL_RETRY_DELAY * 2 ^ (attemptNumber - 1) in
    dispatch_after delay (retryBlock attemptNumber) st.

(** The scan of the control point's renderers (lines 261-278): the first
    device whose UUID is the requested id. *)
Fixpoint findRenderer (id : string) (rs : list Device) : option Device :=
  match rs with
  | [] => None
  | d :: rs' => if String.eqb (uuid d) id then Some d else findRenderer id rs'
  end.

(** Lines 257-288: the cache first, then the scan, which fills the cache. *)
Definition resolveDevice (id : string) (st : State) : option Device * State :=
  match discoveredDevices st !! id with
  | Some d => (Some d, st)
  | None =>
      match findRenderer id (renderers st) with
      | Some d => (Some d, setDiscovered (<[id := d]> (discoveredDevices st)) st)
      | None => (None, st)
      end
  end.

(** Lines 288-376 of [-castToDeviceWithRetry:...]: the attempt on the
    resolved device. *)
Definition attemptOn (rq : CastRequest) (attemptNumber : Z) (device : Device)
    (st : State) : State :=
  let name := friendlyName device in
  let st := emitCastProgress connecting "Connecting to device..." name st in
  let safeTitle := Didl.safeTitle (title rq) in
  let metadata := Didl.generateDIDLMetadata (videoUrl rq) safeTitle in
  let operationCompleted := length (flags st) in
  let st := setFlags (flags st ++ [false]) st in
  let st := dispatch_after CAST_TIMEOUT (timeoutBlock operationCompleted attemptNumber) st in
  match invoke (SetAVTransportURI (videoUrl rq) metadata) st with
  | (false, st) =>
      let st := setFlags (<[operationCompleted := true]> (flags st)) st in
      retryOrFail attemptNumber
        ("Failed to load media. Check that the URL is accessible from the TV's network. Device: "
         +:+ name) st
  | (true, st) =>
      let st := emitCastProgress buffering "Loading media on TV..." name st in
      let st := sleepHalfSecond st in
      match invoke Play st with
      | (false, st) =>
          let st := setFlags (<[operationCompleted := true]> (flags st)) st in
          retryOrFail attemptNumber
            ("Play command failed. Device may not support the media format or is busy. Device: "
             +:+ name) st
      | (true, st) =>
          let st := setFlags (<[operationCompleted := true]> (flags st)) st in
          let st := emitCastProgress playing "Media is now playing" name st in
          resolve true st
      end
  end.

(** [-castToDeviceWithRetry:...] (lines 230-377). *)
Definition castToDeviceWithRetry (rq : CastRequest) (attemptNumber : Z) (st0 : State) : State :=
  let st := logAttempt attemptNumber st0 in
  if MAX_RETRIES <? attemptNumber then
    reject MAX_RETRIES_EXCEEDED
      ("Failed to cast after " +:+ pretty MAX_RETRIES +:+
       " attempts. Device may be offline or incompatible. Try restarting the device and discovering again.")
      st
  else if negb (upnpRunning st) then
    reject SERVICE_NOT_STARTED
      "DLNA service not started. Call startService('Your App Name') before casting." st
  else if negb (mediaController st) then
    reject CONTROLLER_NOT_INITIALIZED "Media controller not initialized" st
  else
    match resolveDevice (deviceId rq) st with
    | (None, st) =>
        reject DEVICE_NOT_FOUND
          ("Device with ID '" +:+ deviceId rq +:+
           "' not found. Device may have gone offline or discovery needs to be re-run. Try calling discoverDevices() again.")
          st
    | (Some device, st) => attemptOn rq attemptNumber device st
    end.

(** [castToDevice:...] (lines 202-225), on a device build. *)
Definition castToDevice (rq : CastRequest) (st : State) : State :=
  match validateVideoUrl (videoUrl rq) with
  | Some msg => reject INVALID_URL msg st
  | None => castToDeviceWithRetry rq 1 st
  end.

(** The body of a scheduled block. *)
Definition runBlock (rq : CastRequest) (b : Block) (st : State) : State :=
  match b with
  | timeoutBlock operationCompleted attemptNumber =>
      if negb (default false (flags st !! operationCompleted)) then
        retryOrFail attemptNumber "Operation timed out" st
      else st
  | retryBlock attemptNumber =>
      castToDeviceWithRetry rq (attemptNumber + 1) st
  end.

(** [controlPlayback:...] (lines 416-466), on a device build. *)
Definition controlPlayback (device_id action : string) (st : State) : State :=
  if negb (mediaController st) then
    reject CONTROLLER_NOT_INITIALIZED
      "Media controller not initialized. Call startService('Your App Name') first." st
  else
    match discoveredDevices st !! device_id with
    | None =>
        reject DEVICE_NOT_FOUND
          ("Device with ID '" +:+ device_id +:+
           "' not found. Device may have gone offline. Try discovering devices again.") st
    | Some device =>
        let sent :=
          if String.eqb action "play" then Some (invoke Play st)
          else if String.eqb action "pause" then Some (invoke Pause st)
          else if String.eqb action "stop" then Some (invoke Stop st)
          else None in
        match sent with
        | None =>
            reject INVALID_ACTION
              ("Invalid action: '" +:+ action +:+
               "'. Valid actions are: 'play', 'pause', 'stop'.") st
        | Some (false, st) =>
            reject ACTION_FAILED
              ("Failed to execute action '" +:+ action +:+ "' on device '" +:+
               friendlyName device +:+ "'. Device may be offline or unreachable.") st
        | Some (true, st) => resolve true st
        end
    end.

(** [closeService] (lines 120-129): the UPnP stack is stopped and the
    cache emptied; the media controller object stays. *)
Definition closeService (st : State) : State :=
  setDiscovered ∅ (setEnvironment false (renderers st) st).

(** The loop of [discoverDevices:rejecter:] over the renderers (lines
    154-190): [setObject:forKey:] on the cleared dictionary, in list order. *)
Definition cacheAll (rs : list Device) : gmap string Device :=
  fold_left (fun cache device => <[uuid device := device]> cache) rs ∅.

(** What [discoverDevices:rejecter:] (lines 134-197) does to the state:
    past its two guards the cache is cleared and filled from the renderers.
    [ctrlPoint] is created together with [mediaController] and never reset,
    so one flag stands for both. *)
Definition rediscover (st : State) : State :=
  if negb (upnpRunning st) then st
  else if negb (mediaController st) then st
  else setDiscovered (cacheAll (renderers st)) st.

(** The environment of one cast call: the main queue runs a block that is
    due, the service state and the renderer list change, or one of the two
    bridge methods that write the device cache runs between two blocks
    (every method of the module runs on the main queue). *)
Inductive Input :=
| fire (id : nat)
| environmentChanged (running : bool) (rs : list Device)
| discoverDevicesCalled
| closeServiceCalled.

Definition step (rq : CastRequest) (t : Z) (i : Input) (st0 : State) : option State :=
  if t <? now st0 then None
  else
    let st := setNow t st0 in
    match i with
    | fire id =>
        match queue st !! id with
        | Some s =>
            if (pending s && (due s <=? t))%bool
            then Some (runBlock rq (block s) (setQueue (alter taken id (queue st)) st))
            else None
        | None => None
        end
    | environmentChanged running rs => Some (setEnvironment running rs st)
    | discoverDevicesCalled => Some (rediscover st)
    | closeServiceCalled => Some (closeService st)
    end.

(** The inputs that leave the entries of the device cache alone. *)
Definition keepsCache (i : Input) : bool :=
  match i with
  | discoverDevicesCalled | closeServiceCalled => false
  | _ => true
  end.

Fixpoint run (rq : CastRequest) (script : list (Z * Input)) (st : State) : option State :=
  match script with
  | [] => Some st
  | (t, i) :: rest =>
      match step rq t i st with
      | Some st' => run rq rest st'
      | None => None
      end
  end.

Definition stages (st : State) : list Stage := map stage (emitted st).

Definition settled (c : ErrorCode) (st : State) : list bool :=
  map (rejectedWith c) (promise st).

(** No block is left on the main queue. *)
Definition quiescent (st : State) : Prop :=
  Forall (fun s => pending s = false) (queue st).

(** Every completion flag is set, and every timeout block reads a flag
    that exists. *)
Definition flagAllocated (n : nat) (s : Scheduled) : Prop :=
  match block s with
  | timeoutBlock f _ => (f < n)%nat
  | retryBlock _ => True
  end.

Definition allCompleted (st : State) : Prop :=
  Forall (fun b => b = true) (flags st) /\
  Forall (flagAllocated (length (flags st))) (queue st).

End IOS.

(** ** The JavaScript wrapper (index-enhanced.js, lines 82-87)

    With the native module loaded ([RNByronDLNA.castToDevice] defined), the
    wrapper passes its three arguments through. *)

Module Js.

(** The values a caller can pass for [title]. *)
Inductive Title :=
| undefined
| null
| str (s : string).

(** The default parameter [title = 'Video'] replaces [undefined] only. *)
Definition defaulted (t : Title) : Title :=
  match t with
  | undefined => str "Video"
  | _ => t
  end.

(** The bridge hands a JavaScript string over as a string and [null] as
    [null] / [nil]. *)
Definition toNative (t : Title) : option string :=
  match t with
  | str s => Some s
  | _ => None
  end.

Definition request (device_id url : string) (t : Title) : CastRequest :=
  {| deviceId := device_id; videoUrl := url; title := toNative (defaulted t) |}.

(** [castToDevice(deviceId, videoUrl, title = 'Video')] over the Android
    and over the iOS native module. *)
Definition castToDevice_android (device_id url : string) (t : Title) :
    Android.State -> Android.State :=
  Android.castToDevice (request device_id url t).

Definition castToDevice_ios (device_id url : string) (t : Title) :
    IOS.State -> IOS.State :=
  IOS.castToDevice (request device_id url t).

End Js.

(** ** Reading a metadata document back *)

Module Read.

(** [s] without its first [length tag] characters. *)
Fixpoint skip (tag s : string) : string :=
  match tag, s with
  | String _ tag', String _ s' => skip tag' s'
  | _, _ => s
  end.

(** The text after the first occurrence of [tag]. *)
Fixpoint after (tag s : string) : option string :=
  if Str.startsWith tag s then Some (skip tag s)
  else match s with
       | EmptyString => None
       | String _ s' => after tag s'
       end.

(** The text before the first occurrence of [tag]. *)
Fixpoint before (tag s : string) : option string :=
  if Str.startsWith tag s then Some EmptyString
  else match s with
       | EmptyString => None
       | String a s' => option_map (String a) (before tag s')
       end.

(** The content of the [dc:title] element of a document. *)
Definition dcTitle (doc : string) : option string :=
  match after "<dc:title>" doc with
  | Some rest => before "</dc:title>" rest
  | None => None
  end.

(** The metadata argument of the set-source actions in a list of actions. *)
Fixpoint metadataSent (l : list Action) : list string :=
  match l with
  | [] => []
  | SetAVTransportURI _ m :: l' => m :: metadataSent l'
  | _ :: l' => metadataSent l'
  end.

End Read.

(** ** Sample data for the worked examples *)

Module Sample.

Definition tv : Android.Device :=
  {| Android.friendlyName := "TV"; Android.hasAVTransport := true |}.

(** A registry that knows the one device [uuid:tv]. *)
Definition registry (id : string) : option Android.Device :=
  if String.eqb id "uuid:tv" then Some tv else None.

Definition request : CastRequest :=
  {| deviceId := "uuid:tv"; videoUrl := "http://host/a.mp4"; title := None |}.

Definition appleTv : IOS.Device :=
  {| IOS.uuid := "uuid:tv"; IOS.friendlyName := "TV" |}.

End Sample.

(** ** Device descriptions handed to JavaScript *)

Module Bridge.

(** The map built for one device by [createDeviceMap] (Android) and the
    dictionary built in [discoverDevices] (iOS). A value is [None] where
    [putString] is given [null]. *)
Record DeviceInfo := {
  id : string;
  name : string;
  manufacturer : option string;
  modelName : option string;
  type : string
}.

(** How a [discoverDevices] promise is settled. *)
Inductive Discovery :=
| Discovered (devices : list DeviceInfo)
| NotDiscovered (code : ErrorCode) (message : string).

End Bridge.

(** ** Discovery on Android (RNByronDLNAModuleEnhanced.java, lines 178-207
       and 506-524) *)

Module AndroidDiscovery.

(** What the module reads from a registry device. [manufacturerDetails] and
    [modelDetails] are [None] when the details object is [null], and hold
    the possibly [null] manufacturer / model name otherwise. *)
Record RegistryDevice := {
  udn : string;
  friendlyName : string;
  manufacturerDetails : option (option string);
  modelDetails : option (option string);
  deviceType : string;
  avTransport : bool
}.

(** [isMediaRenderer(device)]. *)
Definition isMediaRenderer (device : option RegistryDevice) : bool :=
  match device with
  | None => false
  | Some d => avTransport d
  end.

(** [createDeviceMap(device)]. *)
Definition createDeviceMap (device : RegistryDevice) : Bridge.DeviceInfo :=
  {| Bridge.id := udn device;
     Bridge.name := friendlyName device;
     Bridge.manufacturer :=
       match manufacturerDetails device with
       | Some m => m
       | None => Some "Unknown"
       end;
     Bridge.modelName :=
       match modelDetails device with
       | Some m => m
       | None => Some "Unknown"
       end;
     Bridge.type := deviceType device |}.

(** The loop of [discoverDevices] over [getRegistry().getDevices()]. *)
Fixpoint collect (devices : list RegistryDevice) : list Bridge.DeviceInfo :=
  match devices with
  | [] => []
  | device :: rest =>
      if isMediaRenderer (Some device) then createDeviceMap device :: collect rest
      else collect rest
  end.

(** [discoverDevices(promise)]; the registry is given by the collection
    [getRegistry().getDevices()], which holds the remote devices and the
    two local devices the module adds itself (lines 85-88); [None] when
    [upnpService] is [null]. The library calls are taken not to throw. *)
Definition discoverDevices (service : option (list RegistryDevice)) : Bridge.Discovery :=
  match service with
  | None =>
      Bridge.NotDiscovered SERVICE_NOT_STARTED
        "DLNA service not started. Call startService('Your App Name') before discovering devices."
  | Some devices => Bridge.Discovered (collect devices)
  end.

(** What [castToDeviceWithRetry] and [controlPlayback] read of a device. *)
Definition view (device : RegistryDevice) : Android.Device :=
  {| Android.friendlyName := friendlyName device;
     Android.hasAVTransport := avTransport device |}.

End AndroidDiscovery.

(** ** [fetchInetAddress] (RNByronDLNAModuleEnhanced.java, lines 609-631) *)

Module Net.

(** The four numbers printed for the [int] address [ip]: Java's [>>] binds
    tighter than [&], and on [Z] the arithmetic shift is [Z.shiftr]. *)
Definition octets (ip : Z) : Z * Z * Z * Z :=
  (Z.land ip 255,
   Z.land (Z.shiftr ip 8) 255,
   Z.land (Z.shiftr ip 16) 255,
   Z.land (Z.shiftr ip 24) 255).

(** [String.format("%d.%d.%d.%d", ...)], in a locale with ASCII digits. *)
Definition formatAddress (ip : Z) : string :=
  let '(a, b, c, d) := octets ip in
  pretty a +:+ "." +:+ pretty b +:+ "." +:+ pretty c +:+ "." +:+ pretty d.

(** The value of a Java [int] read as an unsigned 32-bit number. *)
Definition unsigned (ip : Z) : Z := ip mod 2 ^ 32.

End Net.

(** ** Discovery and service state on iOS (RNByronDLNAEnhanced.mm, lines
       120-129 and 134-197) *)

Module IOSDiscovery.

Section Vendor.

(** [device->GetManufacturer()] and [device->GetModelName()], [None] when
    the test [if (device->Get...())] fails. *)
Variables manufacturerOf modelNameOf : IOS.Device -> option string.

(** The dictionary built for one renderer. *)
Definition deviceInfo (device : IOS.Device) : Bridge.DeviceInfo :=
  {| Bridge.id := IOS.uuid device;
     Bridge.name := IOS.friendlyName device;
     Bridge.manufacturer :=
       match manufacturerOf device with
       | Some m => Some m
       | None => Some "Unknown"
       end;
     Bridge.modelName :=
       match modelNameOf device with
       | Some m => Some m
       | None => Some "Unknown"
       end;
     Bridge.type := "MediaRenderer" |}.

(** [discoverDevices:rejecter:] on a device build: the settlement of its
    promise and the state it leaves. [ctrlPoint] is created together with
    [mediaController] and never reset, so one flag stands for both. *)
Definition discoverDevices (st : IOS.State) : Bridge.Discovery * IOS.State :=
  if negb (IOS.upnpRunning st) then
    (Bridge.NotDiscovered SERVICE_NOT_STARTED
       "DLNA service not started. Call startService('Your App Name') before discovering devices.",
     st)
  else if negb (IOS.mediaController st) then
    (Bridge.NotDiscovered CONTROLLER_NOT_INITIALIZED "Control point not initialized", st)
  else
    (Bridge.Discovered (map deviceInfo (IOS.renderers st)),
     IOS.setDiscovered (IOS.cacheAll (IOS.renderers st)) st).

End Vendor.

End IOSDiscovery.

(** ** Observations on settlements *)

Module Outcomes.

(** The settlement is not a rejection with the code [c]. *)
Definition without (c : ErrorCode) (promise : list Settle) : Prop :=
  Forall (fun s => rejectedWith c s = false) promise.

Definition resolved (s : Settle) : bool :=
  match s with Resolve _ => true | Reject _ _ => false end.

(** The rejection codes found in the cast path of each module. *)
Definition androidCastCode (c : ErrorCode) : bool :=
  match c with
  | INVALID_URL | SERVICE_NOT_STARTED | DEVICE_NOT_FOUND | SERVICE_NOT_AVAILABLE
  | CAST_FAILED => true
  | _ => false
  end.

Definition iosCastCode (c : ErrorCode) : bool :=
  match c with
  | INVALID_URL | SERVICE_NOT_STARTED | CONTROLLER_NOT_INITIALIZED | DEVICE_NOT_FOUND
  | CAST_FAILED => true
  | _ => false
  end.

(** A settlement of a cast call: [resolve(true)], or a rejection with one
    of the given codes. *)
Definition castOutcome (codes : ErrorCode -> bool) (s : Settle) : bool :=
  match s with
  | Resolve v => v
  | Reject c _ => codes c
  end.

(** The attempt numbers 1, 2, ..., k. *)
Definition upTo (k : nat) : list Z := map Z.of_nat (seq 1 k).

(** The same with the code of the unreachable retry guard added. *)
Definition orExceeded (codes : ErrorCode -> bool) (c : ErrorCode) : bool :=
  (codes c || bool_decide (c = MAX_RETRIES_EXCEEDED))%bool.

End Outcomes.

(** ** The continuation of a cast call on iOS *)

Module IOSFlight.

(** The attempt numbers of the retry blocks still waiting on the queue. *)
Fixpoint pendingRetries (q : list IOS.Scheduled) : list Z :=
  match q with
  | [] => []
  | s :: q' =>
      match IOS.block s with
      | IOS.retryBlock n => if IOS.pending s then n :: pendingRetries q' else pendingRetries q'
      | IOS.timeoutBlock _ _ => pendingRetries q'
      end
  end.

(** A call has exactly one continuation: after k attempts either the
    promise is still open and the retry of attempt k (k < 3) is the only
    retry waiting, or the promise has been settled once, with an outcome
    of the cast path, and no retry waits. *)
Definition singleFlight (st : IOS.State) : Prop :=
  IOS.allCompleted st /\
  exists k : nat,
    IOS.attemptLog st = Outcomes.upTo k /\ (k <= 3)%nat /\
    ((IOS.promise st = [] /\ pendingRetries (IOS.queue st) = [Z.of_nat k] /\ (1 <= k < 3)%nat) \/
     ((exists s, IOS.promise st = [s] /\ Outcomes.castOutcome Outcomes.iosCastCode s = true) /\
      pendingRetries (IOS.queue st) = [])).

End IOSFlight.

(** ** Installed-app probing on iOS (RNByronDLNAEnhanced.mm, lines 470-498) *)

Module IOSApps.


Section CanOpen.

(** [[UIApplication sharedApplication] canOpenURL:] on the url string. *)
Variable canOpenURL : string -> bool.



End CanOpen.

End IOSApps.

(** ** The JavaScript helpers (index-enhanced.js, lines 143-177) *)

Module JsHelpers.

(** A [DLNADevice] as index.d.ts declares it: every field a string. *)
Record DLNADevice := {
  id : string;
  name : string;
  manufacturer : string;
  modelName : string;
  type : string
}.

(** A truthy string: not the empty one. *)
Definition truthy (s : string) : bool := negb (Str.isEmpty s).

Module Filter.
(** The [filter] argument of [filterDevices]; [None] is [undefined]. *)
Record t := {
  manufacturer : option string;
  name : option string
}.
End Filter.

Section Lowercase.

(** [String.prototype.toLowerCase], Unicode-wide. *)
Variable toLowerCase : string -> string.

Definition isSamsung (d : DLNADevice) : bool :=
  (Str.contains "samsung" (toLowerCase (name d)) ||
   Str.contains "samsung" (toLowerCase (manufacturer d)))%bool.

(** [findSamsungTV(devices)]; [None] is [null]. *)
Definition findSamsungTV (devices : list DLNADevice) : option DLNADevice :=
  List.find isSamsung devices.

(** The callback of [devices.filter] in [filterDevices]. *)
Definition keeps (filter : Filter.t) (device : DLNADevice) : bool :=
  if match Filter.manufacturer filter with
     | Some m =>
         (truthy m &&
          negb (Str.contains (toLowerCase m) (toLowerCase (manufacturer device))))%bool
     | None => false
     end
  then false
  else if match Filter.name filter with
          | Some n =>
              (truthy n && negb (Str.contains (toLowerCase n) (toLowerCase (name device))))%bool
          | None => false
          end
  then false
  else true.

(** [filterDevices(devices, filter)]. *)
Definition filterDevices (devices : list DLNADevice) (filter : Filter.t) : list DLNADevice :=
  List.filter (keeps filter) devices.

End Lowercase.

(** *** The device list of the example app (example/CastingExample.js,
        lines 66-91) *)

(** The updater given to [setDevices] on a device-found event. *)
Definition onDeviceFound (device : DLNADevice) (prev : list DLNADevice) : list DLNADevice :=
  if List.existsb (fun d => String.eqb (id d) (id device)) prev then prev
  else (prev ++ [device])%list.

(** The updater given to [setDevices] on a device-lost event. *)
Definition onDeviceLost (lostId : string) (prev : list DLNADevice) : list DLNADevice :=
  List.filter (fun d => negb (String.eqb (id d) lostId)) prev.

Inductive DeviceEvent :=
| deviceFound (device : DLNADevice)
| deviceLost (lostId : string).

Definition handle (prev : list DLNADevice) (e : DeviceEvent) : list DLNADevice :=
  match e with
  | deviceFound device => onDeviceFound device prev
  | deviceLost lostId => onDeviceLost lostId prev
  end.

(** The list after the events, oldest first. *)
Definition replay (events : list DeviceEvent) (start : list DLNADevice) : list DLNADevice :=
  fold_left handle events start.

Definition eventId (e : DeviceEvent) : string :=
  match e with
  | deviceFound device => id device
  | deviceLost lostId => lostId
  end.

(** The most recent event about the identifier [i]. *)
Definition lastAbout (i : string) (events : list DeviceEvent) : option DeviceEvent :=
  last (List.filter (fun e => String.eqb (eventId e) i) events).

End JsHelpers.

(** ** Reading the resource element of a metadata document *)

Module ReadRes.

(** The value of the [protocolInfo] attribute of the [res] element. *)
Definition protocolAttr (doc : string) : option string :=
  match Read.after ("<res protocolInfo=" +:+ Str.dq) doc with
  | Some rest => Read.before Str.dq rest
  | None => None
  end.

(** The text of the [res] element. *)
Definition resText (doc : string) : option string :=
  match Read.after ("<res protocolInfo=" +:+ Str.dq) doc with
  | Some rest =>
      match Read.after ">" rest with
      | Some text => Read.before "</res>" text
      | None => None
      end
  | None => None
  end.

(** The five characters [escapeXml] replaces. *)
Definition special (c : ascii) : Prop := c = "&"%char \/ Didl.markup c.

End ReadRes.

(** ** Sample data for the discovery examples *)

Module Fixture.

Definition renderer : AndroidDiscovery.RegistryDevice :=
  {| AndroidDiscovery.udn := "uuid:tv";
     AndroidDiscovery.friendlyName := "TV";
     AndroidDiscovery.manufacturerDetails := Some (Some "Samsung Electronics");
     AndroidDiscovery.modelDetails := None;
     AndroidDiscovery.deviceType := "MediaRenderer";
     AndroidDiscovery.avTransport := true |}.

Definition router : AndroidDiscovery.RegistryDevice :=
  {| AndroidDiscovery.udn := "uuid:gw";
     AndroidDiscovery.friendlyName := "Gateway";
     AndroidDiscovery.manufacturerDetails := None;
     AndroidDiscovery.modelDetails := None;
     AndroidDiscovery.deviceType := "InternetGatewayDevice";
     AndroidDiscovery.avTransport := false |}.

(** A registry that answers [getDevice] from a list of devices. *)
Definition lookup (devices : list AndroidDiscovery.RegistryDevice) (id : string) :
    option Android.Device :=
  AndroidDiscovery.view <$>
    List.find (fun d => String.eqb (AndroidDiscovery.udn d) id) devices.

Definition samsung : JsHelpers.DLNADevice :=
  {| JsHelpers.id := "uuid:tv"; JsHelpers.name := "Living room";
     JsHelpers.manufacturer := "Samsung Electronics";
     JsHelpers.modelName := "UE55"; JsHelpers.type := "MediaRenderer" |}.

Definition speaker : JsHelpers.DLNADevice :=
  {| JsHelpers.id := "uuid:spk"; JsHelpers.name := "Kitchen";
     JsHelpers.manufacturer := "Sonos";
     JsHelpers.modelName := "One"; JsHelpers.type := "MediaRenderer" |}.

End Fixture.

(** ** The answer to a playback command on Android *)

Module AndroidControl.

(** The command waits for the control point: its one invocation has no
    answer yet and the promise is open. *)
Definition awaiting (st : Android.State) : Prop :=
  Android.promise st = [] /\
  exists a, Android.invocations st =
            [{| Android.action := a; Android.callback := Android.onControl;
                Android.answered := false |}].

(** The promise has been settled once and no invocation is open. *)
Definition answeredOnce (st : Android.State) : Prop :=
  length (Android.promise st) = 1%nat /\
  Forall (fun i => Android.answered i = true) (Android.invocations st).

Definition oneAnswer (st : Android.State) : Prop :=
  Android.looper st = [] /\ Android.emitted st = [] /\ Android.attemptLog st = [] /\
  (awaiting st \/ answeredOnce st).

End AndroidControl.

(** ** The outcomes of a cast call on Android *)

Module AndroidCast.

(** Every settlement so far is an outcome of the cast path, and every
    action sent belongs to the cast: none carries the callback of a
    playback command. *)
Definition castPath (st : Android.State) : Prop :=
  Forall (fun s => Outcomes.castOutcome (Outcomes.orExceeded Outcomes.androidCastCode) s = true)
    (Android.promise st) /\
  Forall (fun i => Android.callback i <> Android.onControl) (Android.invocations st).

End AndroidCast.

(** ** Answers that are on time, on Android *)

Module AndroidFlight.
Import Android.

(** The completion flag, the timeout runnable and the attempt number
    that a callback of the cast path captured. *)
Definition captured (cb : ActionCallback) : option (nat * nat * Z) :=
  match cb with
  | onSetAVTransportURI operationCompleted timeoutId attemptNumber _
  | onCastPlay operationCompleted timeoutId attemptNumber _ =>
      Some (operationCompleted, timeoutId, attemptNumber)
  | onControl => None
  end.

Definition pendingAt (id : nat) (st : State) : bool :=
  match looper st !! id with
  | Some p => pending p
  | None => false
  end.

(** An answer of the control point is on time when the deadline of its
    attempt has not run yet (the timeout runnable is still on the looper)
    or the attempt has been closed already (its flag is set). It is late
    when the timeout runnable has run and found the flag unset. *)
Definition onTime (i : Input) (st : State) : bool :=
  match i with
  | respond inv _ =>
      match invocations st !! inv with
      | Some iv =>
          match captured (callback iv) with
          | Some (f, tid, _) => (get f st || pendingAt tid st)%bool
          | None => true
          end
      | None => true
      end
  | _ => true
  end.

(** Every answer in the script is on time in the state it arrives in. *)
Fixpoint allOnTime (rq : CastRequest) (script : list (Z * Input)) (st : State) : bool :=
  match script with
  | [] => true
  | (t, i) :: rest =>
      (onTime i st &&
       match step rq t i st with
       | Some st' => allOnTime rq rest st'
       | None => true
       end)%bool
  end.

(** Every callback belongs to an attempt: the runnable it would cancel is
    the timeout of the flag and attempt number it captured. *)
Definition wired (l : list Posted) (ivs : list Invocation) : Prop :=
  Forall (fun iv => exists f tid n p,
            captured (callback iv) = Some (f, tid, n) /\
            l !! tid = Some p /\ runnable p = timeoutRunnable f n) ivs.

(** No runnable but number [id] is pending. *)
Definition onlyPending (id : nat) (l : list Posted) : Prop :=
  forall j p, l !! j = Some p -> pending p = true -> j = id.

Definition unset (f : nat) (fl : list bool) : Prop :=
  match fl !! f with Some b => b | None => false end = false.

Definition count (s : Stage) (ev : list ProgressEvent) : nat :=
  length (filter (fun x => x = s) (map stage ev)).

(** What is left of a call after [k] attempts: while the promise is open,
    exactly one runnable is pending, the retry after attempt [k] or the
    deadline of the open attempt [k]; once it is settled, none is. *)
Definition continuation (k : nat) (l : list Posted) (fl : list bool)
    (pr : list Settle) : Prop :=
  (pr = [] /\
   exists id p, l !! id = Some p /\ pending p = true /\ onlyPending id l /\
     ((runnable p = retryRunnable (Z.of_nat k) /\ (k < 3)%nat) \/
      (exists f, runnable p = timeoutRunnable f (Z.of_nat k) /\ unset f fl))) \/
  ((exists s, pr = [s] /\ Outcomes.castOutcome Outcomes.androidCastCode s = true) /\
   Forall (fun p => pending p = false) l).

Definition oneFlight (st : State) : Prop :=
  wired (looper st) (invocations st) /\
  count playing (emitted st) = length (List.filter Outcomes.resolved (promise st)) /\
  exists k : nat,
    (k <= 3)%nat /\ attemptLog st = Outcomes.upTo k /\
    (count connecting (emitted st) <= k)%nat /\
    continuation k (looper st) (flags st) (promise st).

End AndroidFlight.

(** * Facts about the string primitives *)

Section StringFacts.
Import Str.

Lemma str_app_nil_r (s : string) : s +:+ "" = s.
Proof. induction s as [|a s IH]; cbn; [done | by f_equal]. Qed.

Lemma str_app_assoc (s1 s2 s3 : string) : (s1 +:+ s2) +:+ s3 = s1 +:+ (s2 +:+ s3).
Proof. induction s1 as [|a s1 IH]; cbn; [done | by f_equal]. Qed.

Lemma startsWith_spec (p s : string) :
  startsWith p s = true <-> exists r, s = p +:+ r.
Proof.
  revert s. induction p as [|a p IH]; intros s; simpl.
  - split; [intros _; by exists s | done].
  - destruct s as [|b s].
    + split; [done | intros [r Hr]; discriminate].
    + destruct (Ascii.eqb_spec a b) as [->|Hne].
      * rewrite IH. split; intros [r Hr]; exists r; [by rewrite Hr | by injection Hr].
      * split; [done | intros [r Hr]; injection Hr as Hab _; congruence].
Qed.

Lemma endsWith_spec (suf s : string) :
  endsWith suf s = true <-> exists p, s = p +:+ suf.
Proof.
  induction s as [|a s IH]; cbn [endsWith contains].
  - destruct (String.eqb_spec "" suf) as [<-|Hne].
    + split; [intros _; by exists "" | done].
    + split; [done |]. intros [p Hp]. destruct p; simpl in Hp; [congruence | discriminate].
  - destruct (String.eqb_spec (String a s) suf) as [<-|Hne].
    + split; [intros _; by exists "" | done].
    + rewrite IH. split.
      * intros [p ->]. by exists (String a p).
      * intros [p Hp]. destruct p as [|b p]; simpl in Hp; [congruence |].
        injection Hp as _ ->. by exists p.
Qed.

Lemma contains_spec (sub s : string) :
  contains sub s = true <-> exists p q, s = p +:+ sub +:+ q.
Proof.
  induction s as [|a s IH]; cbn [endsWith contains].
  - destruct (startsWith sub "") eqn:E.
    + apply startsWith_spec in E as [r Hr]. split; [intros _; by exists "", r | done].
    + split; [done |]. intros (p & q & Hpq).
      destruct p; simpl in Hpq; [| destruct sub; discriminate].
      assert (startsWith sub "" = true) by (apply startsWith_spec; by exists q).
      congruence.
  - destruct (startsWith sub (String a s)) eqn:E.
    + apply startsWith_spec in E as [r Hr]. split; [intros _; by exists "", r | done].
    + rewrite IH. split.
      * intros (p & q & ->). by exists (String a p), q.
      * intros (p & q & Hpq). destruct p as [|b p]; simpl in Hpq.
        -- assert (startsWith sub (String a s) = true) by (apply startsWith_spec; by exists q).
           congruence.
        -- injection Hpq as _ ->. by exists p, q.
Qed.

Lemma replace_app (c : ascii) (r s1 s2 : string) :
  replace c r (s1 +:+ s2) = replace c r s1 +:+ replace c r s2.
Proof.
  induction s1 as [|a s1 IH]; simpl; [done |].
  destruct (Ascii.eqb a c); simpl; rewrite IH; [by rewrite str_app_assoc | done].
Qed.

Lemma chars_app (s1 s2 : string) : chars (s1 +:+ s2) = (chars s1 ++ chars s2)%list.
Proof. induction s1 as [|a s1 IH]; simpl; [done | by rewrite IH]. Qed.

End StringFacts.

Section EncoderFacts.
Import Str Didl.

Lemma escapeXml_entities (s : string) : escapeXml s = entities s.
Proof.
  unfold escapeXml, escapeXml_nullable.
  induction s as [|a s IH]; [done |].
  cbn [replace entities]. unfold entity.
  destruct (Ascii.eqb_spec a "&") as [->|N1]; [simpl; by rewrite IH |].
  destruct (Ascii.eqb_spec a "<") as [->|N2]; [simpl; by rewrite IH |].
  destruct (Ascii.eqb_spec a ">") as [->|N3]; [simpl; by rewrite IH |].
  destruct (Ascii.eqb_spec a "034") as [->|N4]; [simpl; by rewrite IH |].
  destruct (Ascii.eqb_spec a "'") as [->|N5]; [simpl; by rewrite IH |].
  apply Ascii.eqb_neq in N2, N3, N4, N5.
  cbn [replace]. rewrite N2. cbn [replace]. rewrite N3. cbn [replace]. rewrite N4.
  cbn [replace]. rewrite N5. simpl. by rewrite IH.
Qed.

Lemma entities_no_markup (s : string) :
  Forall (fun c => ~ markup c) (chars (entities s)).
Proof.
  induction s as [|a s IH]; [constructor |].
  cbn [entities]. rewrite chars_app. apply Forall_app. split; [| done].
  unfold entity.
  destruct (Ascii.eqb_spec a "&") as [->|N1];
    [repeat constructor; unfold markup; intros [|[|[|]]]; discriminate |].
  destruct (Ascii.eqb_spec a "<") as [->|N2];
    [repeat constructor; unfold markup; intros [|[|[|]]]; discriminate |].
  destruct (Ascii.eqb_spec a ">") as [->|N3];
    [repeat constructor; unfold markup; intros [|[|[|]]]; discriminate |].
  destruct (Ascii.eqb_spec a "034") as [->|N4];
    [repeat constructor; unfold markup; intros [|[|[|]]]; discriminate |].
  destruct (Ascii.eqb_spec a "'") as [->|N5];
    [repeat constructor; unfold markup; intros [|[|[|]]]; discriminate |].
  repeat constructor. unfold markup. intros [|[|[|]]]; congruence.
Qed.
End EncoderFacts.

(** * The metadata encoder *)

Section EncoderReading.
Import Str Didl.

Lemma isHls_bool (url : string) :
  (endsWith ".m3u8" url || contains ".m3u8?" url)%bool = true <-> isHls url.
Proof. unfold isHls. by rewrite orb_true_iff, endsWith_spec, contains_spec. Qed.

Lemma before_close (t rest : string) :
  Forall (fun c => c <> "<"%char) (chars t) ->
  Read.before "</dc:title>" (t +:+ "</dc:title>" +:+ rest) = Some t.
Proof.
  induction t as [|a t IH]; intros H; [reflexivity |].
  inversion H as [|? ? Ha Ht]; subst.
  change (String a t +:+ "</dc:title>" +:+ rest)
    with (String a (t +:+ "</dc:title>" +:+ rest)).
  cbn [Read.before startsWith].
  destruct (Ascii.eqb_spec "<" a) as [<-|_]; [done |].
  by rewrite IH.
Qed.

Lemma dcTitle_didl (t p u : string) :
  Forall (fun c => c <> "<"%char) (chars t) ->
  Read.dcTitle (didl t p u) = Some t.
Proof. intros H. unfold Read.dcTitle, didl, dq. simpl. by apply before_close. Qed.

Lemma dcTitle_metadata (url t : string) :
  Read.dcTitle (generateDIDLMetadata url t) = Some (escapeXml t).
Proof.
  unfold generateDIDLMetadata. apply dcTitle_didl.
  rewrite escapeXml_entities.
  eapply Forall_impl; [apply entities_no_markup |].
  intros c Hc ->. apply Hc. by left.
Qed.

(** Replacing in another order would corrupt the entities already made:
    the ampersand has to go first. *)
Example ampersand_last_corrupts :
  replace "&"%char "&amp;" (replace "<"%char "&lt;" "a<b") = "a&amp;lt;b" /\
  escapeXml "a<b" = "a&lt;b" /\
  escapeXml "R&D <'quoted'>" = "R&amp;D &lt;&apos;quoted&apos;&gt;".
Proof. by vm_compute. Qed.

End EncoderReading.

(** * URL validation *)

Section Validation.
Import Str.

Lemma validateVideoUrl_rejects (url : string) :
  url = "" \/ ~ acceptedScheme url -> exists msg, validateVideoUrl url = Some msg.
Proof.
  intros H. unfold validateVideoUrl.
  destruct url as [|a url]; [by eexists |].
  cbn [isEmpty]. destruct H as [H|H]; [discriminate |].
  destruct (startsWith "http://" (String a url)) eqn:E1.
  { exfalso. apply H. left. by apply startsWith_spec. }
  destruct (startsWith "https://" (String a url)) eqn:E2.
  { exfalso. apply H. right. by apply startsWith_spec. }
  by eexists.
Qed.

Lemma validateVideoUrl_accepts (url : string) :
  acceptedScheme url -> validateVideoUrl url = None.
Proof.
  intros H. unfold validateVideoUrl.
  assert (startsWith "http://" url = true \/ startsWith "https://" url = true) as Hs.
  { destruct H as [H|H]; [left | right]; by apply startsWith_spec. }
  destruct url as [|a url]; [destruct Hs; discriminate |].
  cbn [isEmpty]. destruct Hs as [-> | ->]; [done |].
  by rewrite andb_false_r.
Qed.

Lemma sample_url_accepted : acceptedScheme (videoUrl Sample.request).
Proof. left. by exists "host/a.mp4". Qed.

End Validation.

(** * The playback actions *)

Section Actions.
Import Str.

Lemma validAction_eqb (a : string) :
  validAction a <->
  (String.eqb a "play" || String.eqb a "pause" || String.eqb a "stop")%bool = true.
Proof. unfold validAction. rewrite !orb_true_iff, !String.eqb_eq. tauto. Qed.

Lemma invalidAction_eqb (a : string) :
  ~ validAction a ->
  String.eqb a "play" = false /\ String.eqb a "pause" = false /\ String.eqb a "stop" = false.
Proof.
  rewrite validAction_eqb. intros Hv%not_true_is_false.
  apply orb_false_iff in Hv as [Hv H3]. by apply orb_false_iff in Hv as [H1 H2].
Qed.

Lemma toLowerCase_valid (a : string) : validAction a -> toLowerCase a = a.
Proof. by intros [-> | [-> | ->]]. Qed.

Example mixed_case_lowered :
  toLowerCase "PLAY" = "play" /\ toLowerCase "Stop" = "stop" /\
  toLowerCase "pAuSe" = "pause" /\ toLowerCase "rewind" = "rewind".
Proof. by vm_compute. Qed.

End Actions.

(** * The Android module *)

Module AndroidFacts.
Import Android.

(** ** A state with nothing pending never changes the outcome *)

Lemma android_step_quiescent rq t i st st' :
  quiescent st -> step rq t i st = Some st' ->
  exists r t', st' = setService r (setNow t' st).
Proof.
  intros [Hl Hi]. unfold step. destruct (t <? now st); [done |].
  destruct i as [id | inv o | r]; cbn [looper invocations setNow].
  - destruct (looper st !! id) as [p|] eqn:E; [| done].
    by rewrite (Forall_lookup_1 _ _ _ _ Hl E).
  - destruct (invocations st !! inv) as [iv|] eqn:E; [| done].
    by rewrite (Forall_lookup_1 _ _ _ _ Hi E).
  - intros [= <-]. by eexists _, _.
Qed.

Lemma android_run_quiescent rq script : forall st st',
  quiescent st -> run rq script st = Some st' ->
  promise st' = promise st /\ invocations st' = invocations st /\
  looper st' = looper st /\ emitted st' = emitted st /\
  attemptLog st' = attemptLog st.
Proof.
  induction script as [|[t i] script IH]; intros st st' Hq; cbn [run].
  - by intros [= <-].
  - destruct (step rq t i st) as [st1|] eqn:E; [| done].
    destruct (android_step_quiescent _ _ _ _ _ Hq E) as (r & t' & ->).
    intros Hrun. by apply IH in Hrun.
Qed.

(** ** The guards of one attempt *)


Lemma retryOrFail_schedule n msg st :
  n < MAX_RETRIES ->
  retryOrFail n msg st = postDelayed (retryRunnable n) (INITIAL_RETRY_DELAY * 2 ^ (n - 1)) st.
Proof.
  intros Hn. unfold retryOrFail. by destruct (Z.leb_spec MAX_RETRIES n); [lia |].
Qed.

(** The exponential backoff: 1 s after the first attempt, 2 s after the
    second; there is no third retry. *)
Example retry_delays :
  INITIAL_RETRY_DELAY * 2 ^ (1 - 1) = 1000 /\ INITIAL_RETRY_DELAY * 2 ^ (2 - 1) = 2000.
Proof. by vm_compute. Qed.

Lemma retryOrFail_exhausted msg st :
  retryOrFail MAX_RETRIES msg st = reject CAST_FAILED (msg +:+ " after 3 attempts") st.
Proof. reflexivity. Qed.

(** ** What the completion flag does and does not gate *)

Lemma retryOrFail_flags n msg st : flags (retryOrFail n msg st) = flags st.
Proof. unfold retryOrFail. by destruct (MAX_RETRIES <=? n). Qed.

(** Once the flag is set, the deadline handler and the three callbacks that
    test it do nothing. *)
Lemma completed_flag_gates rq flag tid n name m o st :
  get flag st = true ->
  runRunnable rq (timeoutRunnable flag n) st = st /\
  deliver (onSetAVTransportURI flag tid n name) (Failure m) st = st /\
  deliver (onCastPlay flag tid n name) o st = st.
Proof.
  intros H. cbn [runRunnable deliver]. unfold compareAndSet_false_true.
  rewrite H. by destruct o.
Qed.

(** A callback that claims the flag leaves it set. *)
Lemma claimed_flag_is_set flag st :
  (flag < length (flags st))%nat ->
  get flag (snd (compareAndSet_false_true flag st)) = true.
Proof.
  intros Hlt. unfold compareAndSet_false_true.
  destruct (get flag st) eqn:E; [done |].
  unfold get. cbn [snd flags setFlags]. by rewrite list_lookup_insert_eq.
Qed.

(** The deadline handler does not: the flag reads after it as before it. *)
Lemma deadline_handler_leaves_flag rq flag n st :
  get flag (runRunnable rq (timeoutRunnable flag n) st) = get flag st.
Proof.
  cbn [runRunnable]. destruct (negb (get flag st)); [| done].
  unfold get. by rewrite retryOrFail_flags.
Qed.

(** ** The retry budget is an invariant of every run *)

Ltac budget :=
  repeat split; cbn; try done;
  try (apply Forall_app; split; [done |]; repeat constructor; cbn; try done; try lia).

Lemma retryOrFail_withinBudget n msg st :
  1 <= n <= MAX_RETRIES -> withinBudget st -> withinBudget (retryOrFail n msg st).
Proof.
  intros Hn (Hl & Hi & Hp & Ha). unfold retryOrFail.
  destruct (MAX_RETRIES <=? n) eqn:E; [budget |].
  apply Z.leb_gt in E. budget.
Qed.

Lemma castToDeviceWithRetry_withinBudget rq n st :
  1 <= n <= MAX_RETRIES -> withinBudget st -> withinBudget (castToDeviceWithRetry rq n st).
Proof.
  intros Hn (Hl & Hi & Hp & Ha). unfold castToDeviceWithRetry.
  destruct (MAX_RETRIES <? n) eqn:E; [apply Z.ltb_lt in E; lia |].
  cbn [upnpService logAttempt].
  destruct (upnpService st) as [reg|]; [| budget].
  destruct (reg (deviceId rq)) as [dev|]; [| budget].
  destruct (hasAVTransport dev); cbn [negb]; budget.
Qed.

Lemma removeCallbacks_withinBudget id st :
  withinBudget st -> withinBudget (removeCallbacks id st).
Proof.
  intros (Hl & Hi & Hp & Ha). repeat split; cbn; try done.
  apply Forall_alter; [done |]. by intros p _ Hp'.
Qed.

Lemma setFlags_withinBudget f st : withinBudget st -> withinBudget (setFlags f st).
Proof. intros (Hl & Hi & Hp & Ha). by repeat split. Qed.

Lemma compareAndSet_withinBudget flag st :
  withinBudget st -> withinBudget (snd (compareAndSet_false_true flag st)).
Proof.
  intros H. unfold compareAndSet_false_true. destruct (get flag st); cbn [snd]; [done |].
  by apply setFlags_withinBudget.
Qed.

Lemma runRunnable_withinBudget rq r st :
  runnableBounded r -> withinBudget st -> withinBudget (runRunnable rq r st).
Proof.
  intros Hr H. destruct r as [flag n | n]; cbn [runRunnable runnableBounded] in *.
  - destruct (negb (get flag st)); [| done]. apply retryOrFail_withinBudget; [lia | done].
  - apply castToDeviceWithRetry_withinBudget; [lia | done].
Qed.

Lemma deliver_withinBudget cb o st :
  callbackBounded cb -> withinBudget st -> withinBudget (deliver cb o st).
Proof.
  intros Hcb H.
  destruct cb as [flag tid n name | flag tid n name |], o as [|msg];
    cbn [deliver callbackBounded] in *;
    try (destruct H as (Hl & Hi & Hp & Ha); budget; fail);
    pose proof (compareAndSet_withinBudget flag st H) as H';
    destruct (compareAndSet_false_true flag st) as [[] st1]; cbn [snd] in H'; try done.
  - apply retryOrFail_withinBudget; [done |]. by apply removeCallbacks_withinBudget.
  - apply removeCallbacks_withinBudget with (id := tid) in H'.
    destruct H' as (Hl & Hi & Hp & Ha). budget.
  - apply retryOrFail_withinBudget; [done |]. by apply removeCallbacks_withinBudget.
Qed.

Lemma step_withinBudget rq t i st st' :
  withinBudget st -> step rq t i st = Some st' -> withinBudget st'.
Proof.
  intros H. unfold step. destruct (t <? now st); [done |].
  assert (withinBudget (setNow t st)) as Ht by (destruct H as (? & ? & ? & ?); by repeat split).
  destruct i as [id | inv o | r].
  - destruct (looper (setNow t st) !! id) as [p|] eqn:E; [| done].
    destruct (pending p && (due p <=? t))%bool; [| done]. intros [= <-].
    apply runRunnable_withinBudget; [| by apply removeCallbacks_withinBudget].
    destruct Ht as (Hl & _). exact (Forall_lookup_1 _ _ _ _ Hl E).
  - destruct (invocations (setNow t st) !! inv) as [iv|] eqn:E; [| done].
    destruct (answered iv); [done |]. intros [= <-].
    destruct Ht as (Hl & Hi & Hp & Ha).
    pose proof (Forall_lookup_1 _ _ _ _ Hi E) as Hcb.
    apply deliver_withinBudget; [done |].
    repeat split; cbn; try done. by apply Forall_insert.
  - intros [= <-]. destruct Ht as (? & ? & ? & ?). by repeat split.
Qed.

Lemma run_withinBudget rq script : forall st st',
  withinBudget st -> run rq script st = Some st' -> withinBudget st'.
Proof.
  induction script as [|[t i] script IH]; intros st st' H; cbn [run].
  - by intros [= <-].
  - destruct (step rq t i st) as [st1|] eqn:E; [| done].
    apply IH. by eapply step_withinBudget.
Qed.

Lemma castToDevice_withinBudget rq service :
  withinBudget (castToDevice rq (initial service)).
Proof.
  assert (withinBudget (initial service)) as H0 by (repeat split; constructor).
  unfold castToDevice. destruct (validateVideoUrl (videoUrl rq)).
  - repeat split; cbn; by repeat constructor.
  - by apply castToDeviceWithRetry_withinBudget.
Qed.

(** ** A cast reads the registry only at its own device id *)

Lemma retryOrFail_setService s n msg st :
  retryOrFail n msg (setService s st) = setService s (retryOrFail n msg st).
Proof. unfold retryOrFail. by destruct (MAX_RETRIES <=? n). Qed.

Lemma castToDeviceWithRetry_setService rq s n st :
  found rq (setService s st) = found rq st ->
  castToDeviceWithRetry rq n (setService s st) = setService s (castToDeviceWithRetry rq n st).
Proof.
  unfold found, castToDeviceWithRetry. cbn [upnpService setService logAttempt].
  intros H. destruct (MAX_RETRIES <? n); [done |].
  destruct s as [r1|], (upnpService st) as [r2|]; try done.
  injection H as ->. destruct (r2 (deviceId rq)) as [dev|]; [| done].
  by destruct (hasAVTransport dev).
Qed.

Lemma runRunnable_setService rq s r st :
  found rq (setService s st) = found rq st ->
  runRunnable rq r (setService s st) = setService s (runRunnable rq r st).
Proof.
  intros H. destruct r as [flag n | n]; cbn [runRunnable].
  - change (get flag (setService s st)) with (get flag st).
    destruct (negb (get flag st)); [apply retryOrFail_setService | done].
  - by apply castToDeviceWithRetry_setService.
Qed.

Lemma deliver_setService s cb o st :
  deliver cb o (setService s st) = setService s (deliver cb o st).
Proof.
  destruct cb as [flag tid n name | flag tid n name |], o as [|msg]; cbn [deliver]; try done;
    unfold compareAndSet_false_true;
    change (get flag (setService s st)) with (get flag st);
    destruct (get flag st); try done;
    apply (retryOrFail_setService s n _
             (removeCallbacks tid (setFlags (<[flag:=true]> (flags st)) st))).
Qed.

Lemma retryOrFail_service n msg st : upnpService (retryOrFail n msg st) = upnpService st.
Proof. unfold retryOrFail. by destruct (MAX_RETRIES <=? n). Qed.

Lemma castToDeviceWithRetry_service rq n st :
  upnpService (castToDeviceWithRetry rq n st) = upnpService st.
Proof.
  unfold castToDeviceWithRetry. cbn [upnpService logAttempt].
  destruct (MAX_RETRIES <? n); [done |].
  destruct (upnpService st) as [r|] eqn:E; [| done].
  destruct (r (deviceId rq)) as [dev|]; [| done].
  by destruct (hasAVTransport dev).
Qed.

Lemma runRunnable_service rq r st : upnpService (runRunnable rq r st) = upnpService st.
Proof.
  destruct r as [flag n | n]; cbn [runRunnable].
  - destruct (negb (get flag st)); [apply retryOrFail_service | done].
  - apply castToDeviceWithRetry_service.
Qed.

Lemma deliver_service cb o st : upnpService (deliver cb o st) = upnpService st.
Proof.
  destruct cb as [flag tid n name | flag tid n name |], o as [|msg]; cbn [deliver]; try done;
    unfold compareAndSet_false_true; destruct (get flag st); try done;
    by rewrite retryOrFail_service.
Qed.

Lemma step_service rq t i st st' :
  keepsRegistry i = true -> step rq t i st = Some st' -> upnpService st' = upnpService st.
Proof.
  intros Hi. unfold step. destruct (t <? now st); [done |].
  destruct i as [id | inv o | r]; [| | done].
  - destruct (looper (setNow t st) !! id) as [p|]; [| done].
    destruct (pending p && (due p <=? t))%bool; [| done]. intros [= <-].
    by rewrite runRunnable_service.
  - destruct (invocations (setNow t st) !! inv) as [iv|]; [| done].
    destruct (answered iv); [done |]. intros [= <-]. by rewrite deliver_service.
Qed.

Lemma step_setService rq s t i st :
  keepsRegistry i = true -> found rq (setService s st) = found rq st ->
  step rq t i (setService s st) = setService s <$> step rq t i st.
Proof.
  intros Hi H. unfold step. change (now (setService s st)) with (now st).
  destruct (t <? now st); [done |].
  destruct i as [id | inv o | r]; [| | done].
  - change (looper (setNow t (setService s st))) with (looper (setNow t st)).
    destruct (looper (setNow t st) !! id) as [p|]; [| done].
    destruct (pending p && (due p <=? t))%bool; [| done].
    cbn [fmap option_fmap option_map]. f_equal.
    by apply (runRunnable_setService rq s (runnable p) (removeCallbacks id (setNow t st))).
  - change (invocations (setNow t (setService s st))) with (invocations (setNow t st)).
    destruct (invocations (setNow t st) !! inv) as [iv|]; [| done].
    destruct (answered iv); [done |].
    cbn [fmap option_fmap option_map]. f_equal.
    apply (deliver_setService s (callback iv) o
             (setInvocations (<[inv := markAnswered iv]> (invocations (setNow t st)))
                (setNow t st))).
Qed.

Lemma run_setService rq s script : forall st,
  forallb (fun x => keepsRegistry (snd x)) script = true ->
  found rq (setService s st) = found rq st ->
  run rq script (setService s st) = setService s <$> run rq script st.
Proof.
  induction script as [|[t i] script IH]; intros st Hs H; [done |].
  cbn [forallb snd] in Hs. apply andb_true_iff in Hs as [Hi Hs].
  cbn [run]. rewrite (step_setService _ _ _ _ _ Hi H).
  destruct (step rq t i st) as [st1|] eqn:E; [| done].
  cbn [fmap option_fmap option_map]. apply IH; [done |].
  unfold found in *. cbn [upnpService setService] in *.
  by rewrite (step_service _ _ _ _ _ Hi E).
Qed.

Lemma onTimeScript_keepsRegistry os : forall t n T I,
  forallb (fun x => keepsRegistry (snd x)) (onTimeScript t n T I os) = true.
Proof.
  induction os as [|o os IH]; intros t n T I; [done |].
  destruct o; cbn [onTimeScript attemptInputs isSuccess]; destruct os as [|o' os'];
    try done;
    rewrite forallb_app; cbn [forallb snd keepsRegistry andb]; apply IH.
Qed.

(** A run whose script leaves the registry alone depends on the registry
    only through what the request's own device id resolves to. *)
Lemma run_resolved rq script (reg reg' : string -> option Device) :
  forallb (fun x => keepsRegistry (snd x)) script = true ->
  reg (deviceId rq) = reg' (deviceId rq) ->
  observe <$> run rq script (castToDeviceWithRetry rq 1 (initial (Some reg)))
  = observe <$> run rq script (castToDeviceWithRetry rq 1 (initial (Some reg'))).
Proof.
  intros Hs H.
  change (initial (Some reg)) with (setService (Some reg) (initial (Some reg'))).
  assert (found rq (setService (Some reg) (initial (Some reg'))) = found rq (initial (Some reg')))
    as Hf by (unfold found; cbn; by rewrite H).
  rewrite castToDeviceWithRetry_setService by done.
  rewrite run_setService; [| done |].
  - by destruct (run rq script _).
  - unfold found in *. cbn [upnpService setService] in *.
    by rewrite castToDeviceWithRetry_service.
Qed.

Lemma run_on_any_registry rq script (reg : string -> option Device) dev :
  acceptedScheme (videoUrl rq) ->
  forallb (fun x => keepsRegistry (snd x)) script = true ->
  reg (deviceId rq) = Some dev ->
  observe <$> run rq script (castToDevice rq (initial (Some reg)))
  = observe <$> run rq script (castToDeviceWithRetry rq 1 (initial (Some (fun _ => Some dev)))).
Proof.
  intros Hurl Hs Hreg. unfold castToDevice. rewrite (validateVideoUrl_accepts _ Hurl).
  by apply run_resolved.
Qed.

(** ** Calls whose answers are all on time *)

(** Whatever the three attempts do, as long as no answer is late: the
    events are the per-attempt prefixes of connecting, buffering, playing
    up to the first success; the promise is settled once; nothing is left
    pending. *)
Lemma onTime_run rq (reg : string -> option Device) dev o1 o2 o3 :
  acceptedScheme (videoUrl rq) -> reg (deviceId rq) = Some dev -> hasAVTransport dev = true ->
  observe <$> run rq (onTimeScript 0 1 0 0 [o1; o2; o3]) (castToDevice rq (initial (Some reg)))
  = Some (concat (map stagesOf (untilSuccess [o1; o2; o3])),
          [if existsb isSuccess [o1; o2; o3] then Resolve true
           else Reject CAST_FAILED (errorMsgOf o3 +:+ " after 3 attempts")],
          map Z.of_nat (seq 1 (length (untilSuccess [o1; o2; o3]))),
          []).
Proof.
  intros Hurl Hreg Hav.
  rewrite (run_on_any_registry rq _ reg dev Hurl (onTimeScript_keepsRegistry _ _ _ _ _) Hreg).
  destruct rq as [id url title], dev as [name av]. cbn in Hav. subst av.
  destruct o1, o2, o3; vm_compute; reflexivity.
Qed.

(** The scenario of the specification: set-source fails twice, then the
    third attempt goes through. *)
Lemma fail_fail_succeed rq (reg : string -> option Device) dev m1 m2 :
  acceptedScheme (videoUrl rq) -> reg (deviceId rq) = Some dev -> hasAVTransport dev = true ->
  exists st',
    run rq (onTimeScript 0 1 0 0 [setSourceFails m1; setSourceFails m2; succeeds])
      (castToDevice rq (initial (Some reg))) = Some st' /\
    stages st' = [connecting; connecting; connecting; buffering; playing] /\
    countStage connecting st' = 3%nat /\ countStage buffering st' = 1%nat /\
    countStage playing st' = 1%nat /\ promise st' = [Resolve true].
Proof.
  intros Hurl Hreg Hav.
  pose proof (onTime_run rq reg dev (setSourceFails m1) (setSourceFails m2) succeeds
                Hurl Hreg Hav) as H.
  destruct (run rq _ _) as [st'|]; [| done]. exists st'. split; [done |].
  cbn [fmap option_fmap option_map] in H. injection H as Hs Hp _ _.
  unfold countStage. by rewrite Hs, Hp.
Qed.

Lemma castToDevice_metadata rq (reg : string -> option Device) dev :
  acceptedScheme (videoUrl rq) -> reg (deviceId rq) = Some dev -> hasAVTransport dev = true ->
  Read.metadataSent (actions (castToDevice rq (initial (Some reg))))
  = [Didl.generateDIDLMetadata (videoUrl rq) (Didl.safeTitle (title rq))].
Proof.
  intros Hurl Hreg Hav. unfold castToDevice.
  rewrite (validateVideoUrl_accepts _ Hurl).
  unfold castToDeviceWithRetry. cbn [upnpService logAttempt initial].
  change (MAX_RETRIES <? 1) with false. cbv iota.
  by rewrite Hreg, Hav.
Qed.

(** ** The switch of [controlPlayback] *)

Lemma android_switch_invalid id action st reg dev :
  ~ validAction (Str.toLowerCase action) ->
  upnpService st = Some reg -> reg id = Some dev -> hasAVTransport dev = true ->
  exists msg, controlPlayback id action st = reject INVALID_ACTION msg st.
Proof.
  intros Hv Hs Hd Hav. unfold controlPlayback. rewrite Hs, Hd, Hav. cbn [negb].
  destruct (invalidAction_eqb _ Hv) as (-> & -> & ->). by eexists.
Qed.

Lemma android_switch_valid id action st reg dev :
  validAction (Str.toLowerCase action) ->
  upnpService st = Some reg -> reg id = Some dev -> hasAVTransport dev = true ->
  controlPlayback id action st = execute (actionOf (Str.toLowerCase action)) onControl st.
Proof.
  intros Hv Hs Hd Hav. unfold controlPlayback. rewrite Hs, Hd, Hav. cbn [negb].
  by destruct Hv as [-> | [-> | ->]].
Qed.

Lemma android_no_dispatch id action st :
  ~ validAction (Str.toLowerCase action) ->
  invocations (controlPlayback id action st) = invocations st.
Proof.
  intros Hv. unfold controlPlayback.
  destruct (upnpService st) as [reg|]; [| done].
  destruct (reg id) as [dev|]; [| done].
  destruct (hasAVTransport dev); [| done]. cbn [negb].
  by destruct (invalidAction_eqb _ Hv) as (-> & -> & ->).
Qed.

End AndroidFacts.

(** * The iOS module *)

Module IOSFacts.
Import IOS.

Lemma rediscover_keeps st :
  promise (rediscover st) = promise st /\ calls (rediscover st) = calls st /\
  queue (rediscover st) = queue st /\ emitted (rediscover st) = emitted st /\
  attemptLog (rediscover st) = attemptLog st /\ flags (rediscover st) = flags st.
Proof.
  unfold rediscover. by destruct (negb (upnpRunning st)), (negb (mediaController st)).
Qed.

Lemma ios_step_quiescent rq t i st st' :
  quiescent st -> step rq t i st = Some st' ->
  promise st' = promise st /\ calls st' = calls st /\ queue st' = queue st /\
  emitted st' = emitted st /\ attemptLog st' = attemptLog st.
Proof.
  intros Hq. unfold step. destruct (t <? now st); [done |].
  destruct i as [id | running rs | |]; cbn [queue setNow].
  - destruct (queue st !! id) as [s|] eqn:E; [| done].
    by rewrite (Forall_lookup_1 _ _ _ _ Hq E).
  - by intros [= <-].
  - intros [= <-]. by destruct (rediscover_keeps (setNow t st)) as (-> & -> & -> & -> & -> & _).
  - by intros [= <-].
Qed.

Lemma ios_run_quiescent rq script : forall st st',
  quiescent st -> run rq script st = Some st' ->
  promise st' = promise st /\ calls st' = calls st /\ queue st' = queue st /\
  emitted st' = emitted st /\ attemptLog st' = attemptLog st.
Proof.
  induction script as [|[t i] script IH]; intros st st' Hq; cbn [run].
  - by intros [= <-].
  - destruct (step rq t i st) as [st1|] eqn:E; [| done].
    destruct (ios_step_quiescent _ _ _ _ _ Hq E) as (E1 & E2 & E3 & E4 & E5).
    intros Hrun. apply IH in Hrun; [| unfold quiescent; by rewrite E3].
    destruct Hrun as (-> & -> & -> & -> & ->). done.
Qed.


(** ** The completion flag is always set when a block runs

    Both actions are answered inside the method, which sets the flag on
    each of its three exits; a timeout block runs later, on the same
    queue. *)

Lemma insert_last_true (l : list bool) :
  <[length l := true]> (l ++ [false])%list = (l ++ [true])%list.
Proof.
  induction l as [|b l IH]; [done |].
  cbn [length app]. cbn [insert list_insert]. f_equal. exact IH.
Qed.

Lemma queue_weaken (q : list Scheduled) (n m : nat) :
  (n <= m)%nat -> Forall (flagAllocated n) q -> Forall (flagAllocated m) q.
Proof.
  intros Hnm H. eapply Forall_impl; [exact H |]. intros s. unfold flagAllocated.
  destruct (block s); [lia | done].
Qed.

Lemma retryOrFail_allCompleted n msg st :
  allCompleted st -> allCompleted (retryOrFail n msg st).
Proof.
  intros [Hf Hq]. unfold retryOrFail. destruct (MAX_RETRIES <=? n); [done |].
  split; [done |]. cbn. apply Forall_app. split; [done |]. by repeat constructor.
Qed.

Lemma attemptOn_allCompleted rq n d st :
  allCompleted st -> allCompleted (attemptOn rq n d st).
Proof.
  intros [Hf Hq]. unfold attemptOn. cbv zeta. unfold invoke.
  cbn [transport calls emitCastProgress setFlags dispatch_after setQueue flags queue
       setCalls sleepHalfSecond setNow now].
  assert (Forall (fun b => b = true) (flags st ++ [true])) as Hf2
    by (apply Forall_app; split; [done | by repeat constructor]).
  assert (Forall (flagAllocated (length (flags st ++ [true])))
            (queue st ++ [{| block := timeoutBlock (length (flags st)) n;
                             due := now st + CAST_TIMEOUT; pending := true |}])) as Hq2.
  { apply Forall_app. split.
    - apply queue_weaken with (length (flags st)); [rewrite length_app; lia | done].
    - repeat constructor. unfold flagAllocated. cbn. rewrite length_app. cbn. lia. }
  destruct (transport st (length (calls st))).
  - destruct (transport st _).
    + split; cbn; by rewrite insert_last_true.
    + apply retryOrFail_allCompleted. split; cbn; by rewrite insert_last_true.
  - apply retryOrFail_allCompleted. split; cbn; by rewrite insert_last_true.
Qed.

Lemma castToDeviceWithRetry_allCompleted rq n st :
  allCompleted st -> allCompleted (castToDeviceWithRetry rq n st).
Proof.
  intros H. unfold castToDeviceWithRetry.
  destruct (MAX_RETRIES <? n); [done |].
  cbn [upnpRunning mediaController logAttempt].
  destruct (upnpRunning st); [| done]. destruct (mediaController st); [| done].
  cbn [negb]. unfold resolveDevice. cbn [discoveredDevices renderers logAttempt].
  destruct (discoveredDevices st !! deviceId rq) as [d|].
  - by apply attemptOn_allCompleted.
  - destruct (findRenderer (deviceId rq) (renderers st)) as [d|]; [| done].
    by apply attemptOn_allCompleted.
Qed.

Lemma timeoutBlock_inert rq f n st :
  allCompleted st -> (f < length (flags st))%nat ->
  runBlock rq (timeoutBlock f n) st = st.
Proof.
  intros [Hf _] Hlt. cbn [runBlock].
  destruct (lookup_lt_is_Some_2 (flags st) f Hlt) as [b Hb].
  rewrite Hb. cbn. by rewrite (Forall_lookup_1 _ _ _ _ Hf Hb).
Qed.

Lemma step_allCompleted rq t i st st' :
  allCompleted st -> step rq t i st = Some st' -> allCompleted st'.
Proof.
  intros [Hf Hq]. unfold step. destruct (t <? now st); [done |].
  destruct i as [id | running rs | |]; [| by intros [= <-] | | by intros [= <-]].
  2:{ intros [= <-]. unfold allCompleted.
      destruct (rediscover_keeps (setNow t st)) as (_ & _ & -> & _ & _ & ->). done. }
  cbn [queue setNow]. destruct (queue st !! id) as [s|] eqn:E; [| done].
  destruct (pending s && (due s <=? t))%bool; [| done]. intros [= <-].
  assert (allCompleted (setQueue (alter taken id (queue (setNow t st))) (setNow t st))) as H1.
  { split; [done |]. cbn. apply Forall_alter; [done |]. by intros []. }
  destruct (block s) as [f n | n] eqn:Eb.
  - rewrite timeoutBlock_inert; [done | done |].
    pose proof (Forall_lookup_1 _ _ _ _ Hq E) as Hs. unfold flagAllocated in Hs.
    by rewrite Eb in Hs.
  - cbn [runBlock]. by apply castToDeviceWithRetry_allCompleted.
Qed.

Lemma run_allCompleted rq script : forall st st',
  allCompleted st -> run rq script st = Some st' -> allCompleted st'.
Proof.
  induction script as [|[t i] script IH]; intros st st' H; cbn [run].
  - by intros [= <-].
  - destruct (step rq t i st) as [st1|] eqn:E; [| done].
    apply IH. by eapply step_allCompleted.
Qed.

Lemma castToDevice_allCompleted rq running controller rs cache tr :
  allCompleted (castToDevice rq (initial running controller rs cache tr)).
Proof.
  assert (allCompleted (initial running controller rs cache tr)) as H0
    by (split; constructor).
  unfold castToDevice. destruct (validateVideoUrl (videoUrl rq)); [done |].
  by apply castToDeviceWithRetry_allCompleted.
Qed.

(** On iOS a timeout block that runs changes neither the promise nor the
    retry loop nor the events: the flag it reads is set by then. *)
Lemma deadline_handler_inert rq running controller rs cache tr script st id s f n t :
  run rq script (castToDevice rq (initial running controller rs cache tr)) = Some st ->
  queue st !! id = Some s -> block s = timeoutBlock f n ->
  now st <= t -> pending s = true -> due s <= t ->
  step rq t (fire id) st = Some (setQueue (alter taken id (queue st)) (setNow t st)).
Proof.
  intros Hrun Hs Hb Ht Hp Hd.
  pose proof (run_allCompleted _ _ _ _ (castToDevice_allCompleted _ _ _ _ _ _) Hrun) as [Hf Hq].
  unfold step. destruct (Z.ltb_spec t (now st)); [lia |].
  cbn [queue setNow]. rewrite Hs, Hp. destruct (Z.leb_spec (due s) t); [| lia].
  cbn [andb]. rewrite Hb. f_equal. apply timeoutBlock_inert.
  - split; [done |]. cbn. apply Forall_alter; [done |]. by intros [].
  - pose proof (Forall_lookup_1 _ _ _ _ Hq Hs) as H'. unfold flagAllocated in H'.
    by rewrite Hb in H'.
Qed.

(** The two scenarios of the specification on iOS, where the n-th call on
    the media controller fails or succeeds at once. *)
Example ios_fail_fail_succeed :
  (fun st => (stages st, promise st, attemptLog st)) <$>
    run Sample.request [(1000, fire 1); (3000, fire 3)]
      (castToDevice Sample.request
         (initial true true [Sample.appleTv] ∅
            (fun n => negb (Nat.eqb n 0) && negb (Nat.eqb n 1))%bool))
  = Some ([connecting; connecting; connecting; buffering; playing], [Resolve true], [1; 2; 3]).
Proof. by vm_compute. Qed.

Example ios_three_failures :
  (fun st => (stages st, promise st, attemptLog st)) <$>
    run Sample.request [(1000, fire 1); (3000, fire 3)]
      (castToDevice Sample.request (initial true true [Sample.appleTv] ∅ (fun _ => false)))
  = Some ([connecting; connecting; connecting],
          [Reject CAST_FAILED
             "Failed to load media. Check that the URL is accessible from the TV's network. Device: TV after 3 attempts"],
          [1; 2; 3]).
Proof. by vm_compute. Qed.

(** ** The chain of comparisons of [controlPlayback] *)

Lemma ios_switch_invalid id action st dev :
  ~ validAction action ->
  mediaController st = true -> discoveredDevices st !! id = Some dev ->
  exists msg, controlPlayback id action st = reject INVALID_ACTION msg st.
Proof.
  intros Hv Hc Hd. unfold controlPlayback. rewrite Hc, Hd. cbn [negb].
  destruct (invalidAction_eqb _ Hv) as (-> & -> & ->). by eexists.
Qed.

Lemma ios_switch_valid id action st dev :
  validAction action ->
  mediaController st = true -> discoveredDevices st !! id = Some dev ->
  calls (controlPlayback id action st) = (calls st ++ [actionOf action])%list.
Proof.
  intros Hv Hc Hd. unfold controlPlayback. rewrite Hc, Hd. cbn [negb].
  destruct Hv as [-> | [-> | ->]]; cbn [String.eqb Ascii.eqb Bool.eqb actionOf];
    unfold invoke; by destruct (transport st _).
Qed.

Lemma ios_no_dispatch id action st :
  ~ validAction action -> calls (controlPlayback id action st) = calls st.
Proof.
  intros Hv. unfold controlPlayback.
  destruct (mediaController st); [| done]. cbn [negb].
  destruct (discoveredDevices st !! id) as [dev|]; [| done].
  by destruct (invalidAction_eqb _ Hv) as (-> & -> & ->).
Qed.

End IOSFacts.

(** * Escaping and reading back, character by character *)

Section EncoderMore.
Import Str Didl ReadRes.

Lemma entities_app (s1 s2 : string) : entities (s1 +:+ s2) = entities s1 +:+ entities s2.
Proof.
  induction s1 as [|a s1 IH]; [done |].
  change (String a s1 +:+ s2) with (String a (s1 +:+ s2)).
  cbn [entities]. by rewrite IH, str_app_assoc.
Qed.

Lemma entity_cases (a : ascii) :
  (a = "&"%char /\ entity a = "&amp;") \/
  (a = "<"%char /\ entity a = "&lt;") \/
  (a = ">"%char /\ entity a = "&gt;") \/
  (a = "034"%char /\ entity a = "&quot;") \/
  (a = "'"%char /\ entity a = "&apos;") \/
  (~ special a /\ entity a = String a EmptyString).
Proof.
  unfold entity, special, markup.
  destruct (Ascii.eqb_spec a "&") as [->|N1]; [by left |].
  destruct (Ascii.eqb_spec a "<") as [->|N2]; [by right; left |].
  destruct (Ascii.eqb_spec a ">") as [->|N3]; [by right; right; left |].
  destruct (Ascii.eqb_spec a "034") as [->|N4]; [by right; right; right; left |].
  destruct (Ascii.eqb_spec a "'") as [->|N5]; [by right; right; right; right; left |].
  do 5 right. split; [| done]. intros [?|[?|[?|[?|?]]]]; congruence.
Qed.

Lemma entities_clean (s : string) :
  Forall (fun c => ~ special c) (chars s) -> entities s = s.
Proof.
  induction s as [|a s IH]; [done |]. cbn [chars entities].
  intros H. inversion H as [|? ? Ha Hs]; subst.
  destruct (entity_cases a) as [[-> _]|[[-> _]|[[-> _]|[[-> _]|[[-> _]|[_ ->]]]]]];
    try (exfalso; apply Ha; unfold special, markup; tauto).
  simpl. by rewrite IH.
Qed.

Lemma entities_length (s : string) : (length (chars s) <= length (chars (entities s)))%nat.
Proof.
  induction s as [|a s IH]; [done|]. cbn [entities chars]. rewrite chars_app, length_app.
  destruct (entity_cases a) as [[_ ->]|[[_ ->]|[[_ ->]|[[_ ->]|[[_ ->]|[_ ->]]]]]]; cbn; lia.
Qed.

Lemma entities_fixed_clean (s : string) :
  entities s = s -> Forall (fun c => ~ special c) (chars s).
Proof.
  induction s as [|a s IH]; [constructor |]. cbn [entities chars]. intros H.
  destruct (entity_cases a) as [[-> E]|[[-> E]|[[-> E]|[[-> E]|[[-> E]|[Ha E]]]]]];
    rewrite E in H; simpl in H; try discriminate.
  - injection H as H. pose proof (entities_length s) as L.
    rewrite <- H in L at 1. cbn [chars length] in L. lia.
  - injection H as H. constructor; [done | by apply IH].
Qed.

Lemma entities_keep_special (s : string) :
  Forall (fun c => ~ special c) (chars (entities s)) ->
  Forall (fun c => ~ special c) (chars s).
Proof.
  induction s as [|a s IH]; [constructor |]. cbn [entities chars].
  rewrite chars_app, Forall_app. intros [Ha Hs].
  destruct (entity_cases a) as [[-> E]|[[-> E]|[[-> E]|[[-> E]|[[-> E]|[Hn E]]]]]];
    rewrite E in Ha; cbn [chars] in Ha;
    try (exfalso; inversion Ha as [|? ? H1 _]; apply H1; by left).
  constructor; [done | by apply IH].
Qed.

Lemma entities_inj (s1 s2 : string) : entities s1 = entities s2 -> s1 = s2.
Proof.
  revert s2. induction s1 as [|a s1 IH]; intros [|b s2]; cbn [entities]; intros H.
  - done.
  - exfalso.
    destruct (entity_cases b) as [[_ E]|[[_ E]|[[_ E]|[[_ E]|[[_ E]|[_ E]]]]]];
      rewrite E in H; discriminate.
  - exfalso.
    destruct (entity_cases a) as [[_ E]|[[_ E]|[[_ E]|[[_ E]|[[_ E]|[_ E]]]]]];
      rewrite E in H; discriminate.
  - destruct (entity_cases a) as [[-> Ea]|[[-> Ea]|[[-> Ea]|[[-> Ea]|[[-> Ea]|[Ha Ea]]]]]],
             (entity_cases b) as [[-> Eb]|[[-> Eb]|[[-> Eb]|[[-> Eb]|[[-> Eb]|[Hb Eb]]]]]];
      rewrite ?Ea, ?Eb in H; simpl in H; try discriminate;
      try (injection H as H; f_equal; by apply IH);
      try (injection H as H0 H; exfalso; subst; (apply Ha || apply Hb); by left).
    injection H as -> H. f_equal. by apply IH.
Qed.

Lemma after_clean (tag t rest : string) :
  Forall (fun c => c <> "<"%char) (chars t) ->
  Read.after (String "<" tag) (t +:+ rest) = Read.after (String "<" tag) rest.
Proof.
  induction t as [|a t IH]; intros H; [done |].
  inversion H as [|? ? Ha Ht]; subst.
  change (String a t +:+ rest) with (String a (t +:+ rest)).
  cbn [Read.after startsWith].
  destruct (Ascii.eqb_spec "<" a) as [<-|_]; [done |]. by apply IH.
Qed.

Lemma before_clean (c0 : ascii) (tag t rest : string) :
  Forall (fun c => c <> c0) (chars t) ->
  Read.before (String c0 tag) (t +:+ String c0 tag +:+ rest) = Some t.
Proof.
  assert (forall s r, startsWith s (s +:+ r) = true) as Hself.
  { intros s r. apply startsWith_spec. by exists r. }
  induction t as [|a t IH]; intros H.
  - change ("" +:+ String c0 tag +:+ rest) with (String c0 tag +:+ rest).
    destruct (String c0 tag +:+ rest) eqn:E; cbn [Read.before]; rewrite <- E, Hself; done.
  - inversion H as [|? ? Ha Ht]; subst.
    change (String a t +:+ String c0 tag +:+ rest)
      with (String a (t +:+ String c0 tag +:+ rest)).
    cbn [Read.before startsWith].
    destruct (Ascii.eqb_spec c0 a) as [<-|_]; [done |].
    by rewrite IH.
Qed.

Lemma escaped_no_lt (s : string) : Forall (fun c => c <> "<"%char) (chars (escapeXml s)).
Proof.
  rewrite escapeXml_entities.
  eapply Forall_impl; [apply entities_no_markup |].
  intros c Hc ->. apply Hc. by left.
Qed.

Lemma protocol_cases (url : string) :
  protocolInfo url = HLS_PROTOCOL \/ protocolInfo url = MP4_PROTOCOL \/
  protocolInfo url = GENERIC_PROTOCOL.
Proof.
  unfold protocolInfo.
  destruct (endsWith ".m3u8" url || contains ".m3u8?" url)%bool; [by left |].
  destruct (endsWith ".mp4" url); [right; left | right; right]; done.
Qed.

Lemma res_of_didl (t p u : string) :
  Forall (fun c => c <> "<"%char) (chars t) ->
  Read.after ("<res protocolInfo=" +:+ dq) (didl t p u) =
  Some (p +:+ dq +:+ ">" +:+ u +:+ "</res>" +:+ "</item>" +:+ "</DIDL-Lite>").
Proof.
  intros H. unfold didl, dq. simpl.
  rewrite after_clean by done. reflexivity.
Qed.

Lemma resText_didl (t p u : string) :
  Forall (fun c => c <> "<"%char) (chars t) ->
  Forall (fun c => c <> "<"%char) (chars u) ->
  p = HLS_PROTOCOL \/ p = MP4_PROTOCOL \/ p = GENERIC_PROTOCOL ->
  protocolAttr (didl t p u) = Some p /\ resText (didl t p u) = Some u.
Proof.
  intros Ht Hu Hp. unfold protocolAttr, resText. rewrite res_of_didl by done.
  assert (Read.before "</res>" (u +:+ "</res>" +:+ "</item>" +:+ "</DIDL-Lite>") = Some u)
    as Hres by (by apply before_clean).
  destruct Hp as [Hp|[Hp|Hp]]; subst p; (split; [reflexivity |]);
    unfold dq; simpl; exact Hres.
Qed.

End EncoderMore.

(** * The claims of the specification *)

Section EncoderClaims.
Import Str Didl.

(** C7: for every url and title the metadata document embeds the escaped
    title and the escaped url and nothing else of them: what is read back
    from the title element and from the resource element of the document
    is the input with each character replaced by its entity; escaping
    works one character at a time, turning [&], [<], [>], the double quote
    and the apostrophe into [&amp;], [&lt;], [&gt;], [&quot;] and [&apos;]
    and keeping every other character, so that the ampersand of an entity
    already made is never escaped again; neither escaped text holds a raw
    [<], [>], double quote or apostrophe. *)
Theorem metadata_embeds_escaped_title_and_url (url title : string) :
  generateDIDLMetadata url title = didl (entities title) (protocolInfo url) (entities url)
  /\ Forall (fun c => ~ markup c) (chars (escapeXml title))
  /\ Forall (fun c => ~ markup c) (chars (escapeXml url))
  /\ (forall a, entity a = if Ascii.eqb a "&" then "&amp;"
                           else if Ascii.eqb a "<" then "&lt;"
                           else if Ascii.eqb a ">" then "&gt;"
                           else if Ascii.eqb a "034" then "&quot;"
                           else if Ascii.eqb a "'" then "&apos;"
                           else String a EmptyString)
  /\ Read.dcTitle (generateDIDLMetadata url title) = Some (escapeXml title)
  /\ ReadRes.resText (generateDIDLMetadata url title) = Some (escapeXml url)
  /\ escapeXml title = entities title
  /\ escapeXml url = entities url
  /\ escapeXml EmptyString = EmptyString
  /\ (forall a s, escapeXml (String a s) =
                  (if Ascii.eqb a "&" then "&amp;"
                   else if Ascii.eqb a "<" then "&lt;"
                   else if Ascii.eqb a ">" then "&gt;"
                   else if Ascii.eqb a "034" then "&quot;"
                   else if Ascii.eqb a "'" then "&apos;"
                   else String a EmptyString) +:+ escapeXml s).
Proof.
  split; [unfold generateDIDLMetadata; by rewrite !escapeXml_entities |].
  split; [rewrite escapeXml_entities; apply entities_no_markup |].
  split; [rewrite escapeXml_entities; apply entities_no_markup |].
  split; [done |].
  split; [apply dcTitle_metadata |].
  split.
  { unfold generateDIDLMetadata.
    apply resText_didl; [apply escaped_no_lt | apply escaped_no_lt | apply protocol_cases]. }
  split; [apply escapeXml_entities |]. split; [apply escapeXml_entities |].
  split; [done |].
  intros a s. by rewrite !escapeXml_entities.
Qed.

(** C8: the content descriptor is chosen on the raw url, in priority
    order: the adaptive-streaming one when the url ends with .m3u8 or
    contains .m3u8?; otherwise the MP4 one when it ends with .mp4;
    otherwise the generic one. *)
Theorem descriptor_selected_by_suffix_priority (url title : string) :
  generateDIDLMetadata url title = didl (escapeXml title) (protocolInfo url) (escapeXml url)
  /\ (protocolInfo url = HLS_PROTOCOL <-> isHls url)
  /\ (protocolInfo url = MP4_PROTOCOL <-> ~ isHls url /\ isMp4 url)
  /\ (protocolInfo url = GENERIC_PROTOCOL <-> ~ isHls url /\ ~ isMp4 url).
Proof.
  split; [done |]. unfold protocolInfo, isMp4.
  pose proof (isHls_bool url) as Hh. pose proof (endsWith_spec ".mp4" url) as Hm.
  destruct (endsWith ".m3u8" url || contains ".m3u8?" url)%bool.
  - assert (isHls url) by (by apply Hh).
    repeat split; try done; try (intros [? ?]; done).
  - assert (~ isHls url) by (intros ?%Hh; done).
    destruct (endsWith ".mp4" url).
    + assert (exists p, url = p +:+ ".mp4") by (by apply Hm).
      repeat split; try done; try (intros [? ?]; done).
    + assert (~ exists p, url = p +:+ ".mp4") by (intros ?%Hm; done).
      repeat split; try done; try (intros [? ?]; done).
Qed.

(** C9, as the specification words it, fails: a cast whose title argument
    is the empty string sends a document whose title element is empty,
    not "Video". *)
Lemma empty_title_not_defaulted :
  let st := Js.castToDevice_android "uuid:tv" "http://host/a.mp4" (Js.str "")
              (Android.initial (Some Sample.registry)) in
  map Read.dcTitle (Read.metadataSent (Android.actions st)) = [Some ""] /\
  map Read.dcTitle (Read.metadataSent (Android.actions st)) <> [Some "Video"].
Proof. split; by vm_compute. Qed.

(** C9, amended: the default title "Video" stands in for an absent title
    only ([undefined] in JavaScript, [null] in the native module); a title
    that is given, the empty string included, is embedded in its escaped
    form. Encoding is a total function: there is no failure path. *)
Theorem absent_title_defaults_to_Video
    (id url : string) (t : Js.Title) (reg : string -> option Android.Device)
    (dev : Android.Device) :
  acceptedScheme url -> reg id = Some dev -> Android.hasAVTransport dev = true ->
  map Read.dcTitle
    (Read.metadataSent
       (Android.actions (Js.castToDevice_android id url t (Android.initial (Some reg)))))
  = [Some (match t with
           | Js.str s => escapeXml s
           | _ => "Video"
           end)].
Proof.
  intros Hurl Hreg Hav. unfold Js.castToDevice_android.
  rewrite (AndroidFacts.castToDevice_metadata (Js.request id url t) reg dev) by done.
  cbn [map]. rewrite dcTitle_metadata. by destruct t.
Qed.

Lemma absent_title_defaults_to_Video_witness :
  map Read.dcTitle
    (Read.metadataSent
       (Android.actions
          (Js.castToDevice_android "uuid:tv" "http://host/a.mp4" Js.undefined
             (Android.initial (Some Sample.registry)))))
  = [Some "Video"].
Proof.
  apply (absent_title_defaults_to_Video "uuid:tv" "http://host/a.mp4" Js.undefined
           Sample.registry Sample.tv).
  - exact sample_url_accepted.
  - reflexivity.
  - reflexivity.
Defined.

End EncoderClaims.

Section CastClaims.
Import Android.

(** C4: a cast whose url is empty or starts with neither http:// nor
    https:// is rejected at once with INVALID_URL (the InvalidInput kind);
    nothing else happens, on either platform: no attempt is started, no
    action reaches the dispatcher, no retry is scheduled, and whatever the
    environment does afterwards the promise holds that one rejection. *)
Theorem invalid_url_fails_fast (rq : CastRequest) :
  videoUrl rq = "" \/ ~ acceptedScheme (videoUrl rq) ->
  exists msg,
    (forall st, castToDevice rq st = reject INVALID_URL msg st) /\
    (forall st, IOS.castToDevice rq st = IOS.reject INVALID_URL msg st) /\
    (forall service script st',
        run rq script (castToDevice rq (initial service)) = Some st' ->
        promise st' = [Reject INVALID_URL msg] /\ invocations st' = [] /\
        looper st' = [] /\ emitted st' = [] /\ attemptLog st' = []) /\
    (forall running controller rs cache tr script st',
        IOS.run rq script (IOS.castToDevice rq (IOS.initial running controller rs cache tr))
        = Some st' ->
        IOS.promise st' = [Reject INVALID_URL msg] /\ IOS.calls st' = [] /\
        IOS.queue st' = [] /\ IOS.emitted st' = [] /\ IOS.attemptLog st' = []).
Proof.
  intros H. destruct (validateVideoUrl_rejects _ H) as [msg Hmsg]. exists msg.
  assert (forall st, castToDevice rq st = reject INVALID_URL msg st) as HA
    by (intros st; unfold castToDevice; by rewrite Hmsg).
  assert (forall st, IOS.castToDevice rq st = IOS.reject INVALID_URL msg st) as HI
    by (intros st; unfold IOS.castToDevice; by rewrite Hmsg).
  split; [done |]. split; [done |]. split.
  - intros service script st'. rewrite HA. intros Hrun.
    apply AndroidFacts.android_run_quiescent in Hrun; [done |]. split; constructor.
  - intros running controller rs cache tr script st'. rewrite HI. intros Hrun.
    apply IOSFacts.ios_run_quiescent in Hrun; [done |]. constructor.
Qed.

Lemma invalid_url_fails_fast_witness :
  exists msg,
    promise (castToDevice
               {| deviceId := "uuid:tv"; videoUrl := "ftp://host/a.mp4"; title := None |}
               (initial (Some Sample.registry)))
    = [Reject INVALID_URL msg].
Proof.
  destruct (invalid_url_fails_fast
              {| deviceId := "uuid:tv"; videoUrl := "ftp://host/a.mp4"; title := None |})
    as (msg & HA & _).
  - right. intros [[r Hr] | [r Hr]]; discriminate.
  - exists msg. by rewrite HA.
Defined.




(** C3: a call whose three attempts all fail, each by a set-source
    failure, a play failure or a timeout, ends with one rejection whose
    message is the last error followed by " after 3 attempts" - but its
    code is CAST_FAILED. No run of a cast call, whatever the environment
    does, ever rejects with MAX_RETRIES_EXCEEDED: the branch of
    [castToDeviceWithRetry] that would is never reached, because
    [retryOrFail] stops at the third attempt. *)
Theorem exhausted_retries_reject_CAST_FAILED
    (rq : CastRequest) (reg : string -> option Device) (dev : Device)
    (o1 o2 o3 : AttemptOutcome) :
  acceptedScheme (videoUrl rq) -> reg (deviceId rq) = Some dev -> hasAVTransport dev = true ->
  isSuccess o1 = false -> isSuccess o2 = false -> isSuccess o3 = false ->
  (exists st',
      run rq (onTimeScript 0 1 0 0 [o1; o2; o3]) (castToDevice rq (initial (Some reg)))
      = Some st' /\
      promise st' = [Reject CAST_FAILED (errorMsgOf o3 +:+ " after 3 attempts")] /\
      attemptLog st' = [1; 2; 3] /\
      settled MAX_RETRIES_EXCEEDED st' = [false]) /\
  (forall service script st',
      run rq script (castToDevice rq (initial service)) = Some st' ->
      Forall (fun s => rejectedWith MAX_RETRIES_EXCEEDED s = false) (promise st')).
Proof.
  intros Hurl Hreg Hav H1 H2 H3. split.
  - pose proof (AndroidFacts.onTime_run rq reg dev o1 o2 o3 Hurl Hreg Hav) as H.
    destruct (run rq _ _) as [st'|]; [| done].
    exists st'. split; [done |].
    cbn [fmap option_fmap option_map] in H. injection H as Hst Hp Ha _.
    cbn [existsb] in Hp. rewrite H1, H2, H3 in Hp. cbn [orb] in Hp.
    cbn [untilSuccess] in Ha. rewrite H1, H2, H3 in Ha.
    unfold settled. by rewrite Hp, Ha.
  - intros service script st' Hrun.
    by destruct (AndroidFacts.run_withinBudget rq script _ _
                   (AndroidFacts.castToDevice_withinBudget rq service) Hrun)
      as (_ & _ & ? & _).
Qed.

Lemma exhausted_retries_reject_CAST_FAILED_witness :
  exists st',
    run Sample.request
      [(100, respond 0 (Failure "busy")); (1100, fire 1);
       (1200, respond 1 (Failure "busy")); (3200, fire 3);
       (3300, respond 2 (Failure "unreachable"))]
      (castToDevice Sample.request (initial (Some Sample.registry)))
    = Some st' /\
    promise st' =
      [Reject CAST_FAILED
         "Failed to load media: unreachable. Check that the URL is accessible from the TV's network. after 3 attempts"].
Proof.
  destruct (exhausted_retries_reject_CAST_FAILED Sample.request Sample.registry Sample.tv
              (setSourceFails "busy") (setSourceFails "busy") (setSourceFails "unreachable"))
    as [(st' & Hrun & Hp & _) _]; try reflexivity.
  - exact sample_url_accepted.
  - exists st'. split; [exact Hrun | exact Hp].
Defined.

(** C1: on Android the deadline handler reads the completion flag but
    does not set it, so a dispatcher answer that arrives after the
    deadline still takes effect. After the handler has scheduled the retry
    of attempt 1 (first run), a late set-source failure schedules a second
    retry of the same attempt (second run); late successes of set-source
    and play resolve the promise while the retry is still pending (third
    run), and that retry then starts attempt 2 of a call already resolved
    (fourth run). *)
Theorem late_response_after_deadline_takes_effect
    (rq : CastRequest) (reg : string -> option Device) (dev : Device) (m : string) :
  acceptedScheme (videoUrl rq) -> reg (deviceId rq) = Some dev -> hasAVTransport dev = true ->
  let st0 := castToDevice rq (initial (Some reg)) in
  observe <$> run rq [(30000, fire 0)] st0
    = Some ([connecting], [], [1], [retryRunnable 1]) /\
  observe <$> run rq [(30000, fire 0); (45000, respond 0 (Failure m))] st0
    = Some ([connecting], [], [1], [retryRunnable 1; retryRunnable 1]) /\
  observe <$> run rq [(30000, fire 0); (30500, respond 0 Success); (30600, respond 1 Success)] st0
    = Some ([connecting; buffering; playing], [Resolve true], [1], [retryRunnable 1]) /\
  observe <$> run rq [(30000, fire 0); (30500, respond 0 Success); (30600, respond 1 Success);
                      (31000, fire 1)] st0
    = Some ([connecting; buffering; playing; connecting], [Resolve true], [1; 2],
            [timeoutRunnable 1 2]).
Proof.
  intros Hurl Hreg Hav st0. subst st0.
  rewrite !(AndroidFacts.run_on_any_registry rq _ reg dev Hurl) by done.
  destruct rq as [id url title], dev as [name av]. cbn in Hav. subst av.
  repeat split; vm_compute; reflexivity.
Qed.

Lemma late_response_after_deadline_takes_effect_witness :
  observe <$> run Sample.request [(30000, fire 0); (45000, respond 0 (Failure "busy"))]
                (castToDevice Sample.request (initial (Some Sample.registry)))
  = Some ([connecting], [], [1], [retryRunnable 1; retryRunnable 1]).
Proof.
  destruct (late_response_after_deadline_takes_effect
              Sample.request Sample.registry Sample.tv "busy") as (_ & H & _).
  - exact sample_url_accepted.
  - reflexivity.
  - reflexivity.
  - exact H.
Defined.

(** C6: on Android an attempt that has already failed by timeout still
    emits: once the deadline handler has given attempt 1 up and attempt 2
    has begun with its own connecting event, the late set-source success
    of attempt 1 emits buffering. The trace connecting, connecting,
    buffering is not a sequence of per-attempt prefixes. *)
Theorem timed_out_attempt_still_emits
    (rq : CastRequest) (reg : string -> option Device) (dev : Device) :
  acceptedScheme (videoUrl rq) -> reg (deviceId rq) = Some dev -> hasAVTransport dev = true ->
  let st0 := castToDevice rq (initial (Some reg)) in
  observe <$> run rq [(30000, fire 0); (31000, fire 1)] st0
    = Some ([connecting; connecting], [], [1; 2], [timeoutRunnable 1 2]) /\
  observe <$> run rq [(30000, fire 0); (31000, fire 1); (40000, respond 0 Success)] st0
    = Some ([connecting; connecting; buffering], [], [1; 2], [timeoutRunnable 1 2]).
Proof.
  intros Hurl Hreg Hav st0. subst st0.
  rewrite !(AndroidFacts.run_on_any_registry rq _ reg dev Hurl) by done.
  destruct rq as [id url title], dev as [name av]. cbn in Hav. subst av.
  repeat split; vm_compute; reflexivity.
Qed.

Lemma timed_out_attempt_still_emits_witness :
  observe <$> run Sample.request [(30000, fire 0); (31000, fire 1); (40000, respond 0 Success)]
                (castToDevice Sample.request (initial (Some Sample.registry)))
  = Some ([connecting; connecting; buffering], [], [1; 2], [timeoutRunnable 1 2]).
Proof.
  destruct (timed_out_attempt_still_emits Sample.request Sample.registry Sample.tv)
    as (_ & H).
  - exact sample_url_accepted.
  - reflexivity.
  - reflexivity.
  - exact H.
Defined.

End CastClaims.

Section ControlClaims.
Import Str.

(** C5, as the specification words it, fails: for an identifier that does
    not resolve, the action "rewind" is rejected with DEVICE_NOT_FOUND,
    not with INVALID_ACTION, on both platforms. *)
Lemma invalid_action_unknown_device :
  let st := Android.controlPlayback "uuid:gone" "rewind" (Android.initial (Some Sample.registry)) in
  let st' := IOS.controlPlayback "uuid:gone" "rewind" (IOS.initial true true [] ∅ (fun _ => true)) in
  Android.settled INVALID_ACTION st = [false] /\ Android.settled DEVICE_NOT_FOUND st = [true] /\
  IOS.settled INVALID_ACTION st' = [false] /\ IOS.settled DEVICE_NOT_FOUND st' = [true].
Proof. by vm_compute. Qed.

(** C5, amended: a control call whose action, lower-cased, is none of
    play, pause, stop never reaches the dispatcher, whether or not the
    device resolves. Its failure kind is INVALID_ACTION when the earlier
    guards pass (Android: service bound, device resolved, AVTransport
    present; iOS: controller initialised, device in the cache); when the
    device does not resolve it is DEVICE_NOT_FOUND, because the device is
    looked up before the action is examined. *)
Theorem invalid_action_never_dispatched (id action : string)
    (sa : Android.State) (si : IOS.State) :
  ~ validAction (toLowerCase action) ->
  (Android.invocations (Android.controlPlayback id action sa) = Android.invocations sa /\
   (forall reg dev, Android.upnpService sa = Some reg -> reg id = Some dev ->
      Android.hasAVTransport dev = true ->
      exists msg, Android.controlPlayback id action sa = Android.reject INVALID_ACTION msg sa) /\
   (forall reg, Android.upnpService sa = Some reg -> reg id = None ->
      exists msg, Android.controlPlayback id action sa = Android.reject DEVICE_NOT_FOUND msg sa)) /\
  (IOS.calls (IOS.controlPlayback id action si) = IOS.calls si /\
   (forall dev, IOS.mediaController si = true -> IOS.discoveredDevices si !! id = Some dev ->
      exists msg, IOS.controlPlayback id action si = IOS.reject INVALID_ACTION msg si) /\
   (IOS.mediaController si = true -> IOS.discoveredDevices si !! id = None ->
      exists msg, IOS.controlPlayback id action si = IOS.reject DEVICE_NOT_FOUND msg si)).
Proof.
  intros Hv.
  assert (~ validAction action) as Hv'.
  { intros H. apply Hv. by rewrite (toLowerCase_valid _ H). }
  split; split; [| split | | split].
  - by apply AndroidFacts.android_no_dispatch.
  - intros reg dev. by apply AndroidFacts.android_switch_invalid.
  - intros reg Hs Hd. unfold Android.controlPlayback. rewrite Hs, Hd. by eexists.
  - by apply IOSFacts.ios_no_dispatch.
  - intros dev. by apply IOSFacts.ios_switch_invalid.
  - intros Hc Hd. unfold IOS.controlPlayback. rewrite Hc, Hd. by eexists.
Qed.

Lemma invalid_action_never_dispatched_witness :
  Android.invocations
    (Android.controlPlayback "uuid:tv" "rewind" (Android.initial (Some Sample.registry))) = [].
Proof.
  destruct (invalid_action_never_dispatched "uuid:tv" "rewind"
              (Android.initial (Some Sample.registry))
              (IOS.initial true true [] ∅ (fun _ => true))) as [[H _] _].
  - intros [H | [H | H]]; discriminate.
  - exact H.
Defined.

(** C10: with the guards before it passed, the Android [controlPlayback]
    issues exactly one dispatcher invocation, the action named by the
    lower-cased string, when that lower-cased string is play, pause or
    stop, and rejects with INVALID_ACTION exactly when it is not; the iOS
    [controlPlayback] compares the string as it is, so it dispatches on
    the three literals only and rejects every other string, mixed-case
    spellings included, with INVALID_ACTION. *)
Theorem control_action_matching (id action : string)
    (sa : Android.State) (si : IOS.State)
    (reg : string -> option Android.Device) (dev : Android.Device) (dev' : IOS.Device) :
  Android.upnpService sa = Some reg -> reg id = Some dev -> Android.hasAVTransport dev = true ->
  IOS.mediaController si = true -> IOS.discoveredDevices si !! id = Some dev' ->
  (validAction (toLowerCase action) ->
     Android.controlPlayback id action sa
     = Android.execute (actionOf (toLowerCase action)) Android.onControl sa) /\
  (~ validAction (toLowerCase action) ->
     exists msg, Android.controlPlayback id action sa = Android.reject INVALID_ACTION msg sa) /\
  (validAction action ->
     IOS.calls (IOS.controlPlayback id action si) = (IOS.calls si ++ [actionOf action])%list) /\
  (~ validAction action ->
     exists msg, IOS.controlPlayback id action si = IOS.reject INVALID_ACTION msg si).
Proof.
  intros Hs Hd Hav Hc Hd'. repeat split.
  - intros Hv. by apply AndroidFacts.android_switch_valid with reg dev.
  - intros Hv. by apply AndroidFacts.android_switch_invalid with reg dev.
  - intros Hv. by apply IOSFacts.ios_switch_valid with dev'.
  - intros Hv. by apply IOSFacts.ios_switch_invalid with dev'.
Qed.

Lemma control_action_matching_witness :
  Android.actions
    (Android.controlPlayback "uuid:tv" "Stop" (Android.initial (Some Sample.registry)))
  = [Stop] /\
  exists msg,
    IOS.controlPlayback "uuid:tv" "Stop"
      (IOS.initial true true [] {[ "uuid:tv" := Sample.appleTv ]} (fun _ => true))
    = IOS.reject INVALID_ACTION msg
        (IOS.initial true true [] {[ "uuid:tv" := Sample.appleTv ]} (fun _ => true)).
Proof.
  destruct (control_action_matching "uuid:tv" "Stop"
              (Android.initial (Some Sample.registry))
              (IOS.initial true true [] {[ "uuid:tv" := Sample.appleTv ]} (fun _ => true))
              Sample.registry Sample.tv Sample.appleTv) as (HA & _ & _ & HI);
    try reflexivity.
  split.
  - rewrite HA; [reflexivity |]. right. right. reflexivity.
  - apply HI. intros [H | [H | H]]; discriminate.
Defined.

End ControlClaims.


Section EncoderRoundTrip.
Import Str Didl ReadRes.

(** X1. Escaping is a character-by-character translation: the escape of
    a concatenation is the concatenation of the escapes. *)
Theorem escapeXml_distributes_over_append (s1 s2 : string) :
  escapeXml (s1 +:+ s2) = escapeXml s1 +:+ escapeXml s2.
Proof. rewrite !escapeXml_entities. apply entities_app. Qed.

(** X2. [escapeXml] leaves a text unchanged exactly when the text has none
    of the five special characters, and escaping twice gives the same as
    escaping once exactly for those texts: on any other text the second
    pass changes the entities the first one made. *)
Theorem escapeXml_unchanged_iff_no_special (s : string) :
  (escapeXml s = s <-> Forall (fun c => ~ special c) (chars s)) /\
  (escapeXml (escapeXml s) = escapeXml s <-> Forall (fun c => ~ special c) (chars s)).
Proof.
  rewrite !escapeXml_entities. split; split.
  - apply entities_fixed_clean.
  - apply entities_clean.
  - intros H. apply entities_keep_special. by apply entities_fixed_clean.
  - intros H. by rewrite (entities_clean s H), (entities_clean s H).
Qed.

(** X3. [escapeXml] loses nothing: two texts with the same escape are the
    same text. *)
Theorem escapeXml_injective (s1 s2 : string) :
  escapeXml s1 = escapeXml s2 -> s1 = s2.
Proof. rewrite !escapeXml_entities. apply entities_inj. Qed.

Lemma escapeXml_injective_witness :
  escapeXml "R&D" = escapeXml "R&D" /\ "R&D" = "R&D".
Proof. split; [reflexivity | apply (escapeXml_injective "R&D" "R&D"); reflexivity]. Defined.

(** X4. The three computed parts of the metadata document can be read
    back from it, whatever the url and the title contain: the title
    element holds the escaped title, the [protocolInfo] attribute the
    descriptor chosen from the url, and the [res] element the escaped
    url. *)
Theorem metadata_parts_read_back (url title : string) :
  Read.dcTitle (generateDIDLMetadata url title) = Some (escapeXml title) /\
  protocolAttr (generateDIDLMetadata url title) = Some (protocolInfo url) /\
  resText (generateDIDLMetadata url title) = Some (escapeXml url).
Proof.
  split; [apply dcTitle_metadata |].
  unfold generateDIDLMetadata.
  apply resText_didl; [apply escaped_no_lt | apply escaped_no_lt | apply protocol_cases].
Qed.

(** X5. The metadata document determines the url and the title it was
    built from. *)
Theorem generateDIDLMetadata_injective (url1 title1 url2 title2 : string) :
  generateDIDLMetadata url1 title1 = generateDIDLMetadata url2 title2 ->
  url1 = url2 /\ title1 = title2.
Proof.
  intros H.
  pose proof (dcTitle_metadata url1 title1) as T1.
  pose proof (dcTitle_metadata url2 title2) as T2.
  assert (resText (generateDIDLMetadata url1 title1) = Some (escapeXml url1)) as R1.
  { unfold generateDIDLMetadata.
    apply resText_didl; [apply escaped_no_lt | apply escaped_no_lt | apply protocol_cases]. }
  assert (resText (generateDIDLMetadata url2 title2) = Some (escapeXml url2)) as R2.
  { unfold generateDIDLMetadata.
    apply resText_didl; [apply escaped_no_lt | apply escaped_no_lt | apply protocol_cases]. }
  rewrite H in T1, R1. rewrite T2 in T1. rewrite R2 in R1.
  injection T1 as T1. injection R1 as R1.
  rewrite !escapeXml_entities in *.
  split; symmetry; by apply entities_inj.
Qed.

Lemma generateDIDLMetadata_injective_witness :
  generateDIDLMetadata "http://h/a.mp4" "A<B" = generateDIDLMetadata "http://h/a.mp4" "A<B" /\
  "http://h/a.mp4" = "http://h/a.mp4" /\ "A<B" = "A<B".
Proof.
  split; [reflexivity |].
  apply (generateDIDLMetadata_injective "http://h/a.mp4" "A<B" "http://h/a.mp4" "A<B").
  reflexivity.
Defined.

End EncoderRoundTrip.

(** * The local address *)

Section Address.
Import Net.

Lemma low_byte (x : Z) : Z.land x 255 = x mod 256.
Proof. change 255 with (Z.ones 8). rewrite Z.land_ones by lia. reflexivity. Qed.

(** X6. The four numbers printed for the Wi-Fi address are bytes, also
    when the [int] is negative, and they are the little-endian digits of
    the address read as an unsigned 32-bit number. *)
Theorem octets_are_little_endian_bytes (ip : Z) :
  let '(a, b, c, d) := octets ip in
  (0 <= a < 256 /\ 0 <= b < 256 /\ 0 <= c < 256 /\ 0 <= d < 256) /\
  a + 256 * b + 65536 * c + 16777216 * d = unsigned ip.
Proof.
  unfold octets, unsigned. rewrite !low_byte, !Z.shiftr_div_pow2 by lia.
  change (2 ^ 8) with 256. change (2 ^ 16) with 65536.
  change (2 ^ 24) with 16777216. change (2 ^ 32) with 4294967296.
  Z.to_euclidean_division_equations. lia.
Qed.

End Address.

(** * Discovery on Android *)

Section AndroidDiscoveryFacts.
Import AndroidDiscovery.

Lemma collect_In (devices : list RegistryDevice) (info : Bridge.DeviceInfo) :
  In info (collect devices) <->
  exists d, In d devices /\ avTransport d = true /\ info = createDeviceMap d.
Proof.
  induction devices as [|d ds IH]; cbn [collect In isMediaRenderer].
  - split; [done | by intros (? & [] & _)].
  - destruct (avTransport d) eqn:E; cbn [In]; rewrite IH; split.
    + intros [<- | (d' & ? & ? & ?)]; [by exists d; auto | exists d'; auto].
    + intros (d' & [<- | ?] & ? & ->); [by left | right; by exists d'].
    + intros (d' & ? & ? & ?). exists d'; auto.
    + intros (d' & [<- | ?] & ? & ->); [congruence | by exists d'].
Qed.

(** X8. Every device that [discoverDevices] lists passes the guards of
    the two commands: a cast to its id with an accepted url sends the
    set-source action and leaves the promise open, with one connecting
    event that carries the listed name, and a valid playback action is
    dispatched. The registry answers [getDevice] for the devices it lists. *)
Theorem android_listed_device_passes_guards
    (devices : list RegistryDevice) (reg : string -> option Android.Device)
    (info : Bridge.DeviceInfo) (rq : CastRequest) (action : string) :
  (forall d, In d devices -> reg (udn d) = Some (view d)) ->
  forall listed, discoverDevices (Some devices) = Bridge.Discovered listed ->
  In info listed ->
  deviceId rq = Bridge.id info ->
  acceptedScheme (videoUrl rq) ->
  validAction (Str.toLowerCase action) ->
  let st := Android.castToDevice rq (Android.initial (Some reg)) in
  Android.promise st = [] /\
  Android.actions st =
    [SetAVTransportURI (videoUrl rq)
       (Didl.generateDIDLMetadata (videoUrl rq) (Didl.safeTitle (title rq)))] /\
  map deviceName (Android.emitted st) = [Bridge.name info] /\
  Android.stages st = [connecting] /\
  Android.actions (Android.controlPlayback (Bridge.id info) action (Android.initial (Some reg)))
  = [actionOf (Str.toLowerCase action)].
Proof.
  intros Hreg listed [= <-] Hin Hid Hurl Hact.
  apply collect_In in Hin as (d & Hd & Hav & ->).
  specialize (Hreg d Hd). cbn [Bridge.id createDeviceMap Bridge.name] in *.
  cbv zeta. unfold Android.castToDevice.
  rewrite (validateVideoUrl_accepts _ Hurl).
  unfold Android.castToDeviceWithRetry.
  cbn [Android.upnpService Android.logAttempt Android.initial].
  change (Android.MAX_RETRIES <? 1) with false. cbv iota.
  rewrite Hid, Hreg. cbn [view Android.hasAVTransport Android.friendlyName]. rewrite Hav.
  split; [done |]. split; [done |]. split; [done |]. split; [done |].
  rewrite (AndroidFacts.android_switch_valid _ _ _ reg (view d)); try done.
Qed.

Lemma android_listed_device_passes_guards_witness :
  Android.promise (Android.castToDevice Sample.request
     (Android.initial (Some (Fixture.lookup [Fixture.router; Fixture.renderer])))) = [] /\
  Android.actions (Android.controlPlayback "uuid:tv" "PAUSE"
     (Android.initial (Some (Fixture.lookup [Fixture.router; Fixture.renderer])))) = [Pause].
Proof.
  pose proof (android_listed_device_passes_guards
    [Fixture.router; Fixture.renderer]
    (Fixture.lookup [Fixture.router; Fixture.renderer])
    (createDeviceMap Fixture.renderer) Sample.request "PAUSE") as H.
  cbv zeta in H.
  destruct (H ltac:(intros d [<- | [<- | []]]; reflexivity)
              [createDeviceMap Fixture.renderer] eq_refl) as (Hp & _ & _ & _ & Hc).
  - by left.
  - reflexivity.
  - apply sample_url_accepted.
  - vm_compute. right; by left.
  - split; [exact Hp | exact Hc].
Defined.

End AndroidDiscoveryFacts.

(** * The JavaScript helpers *)

Section JsHelperFacts.
Import JsHelpers.

Section Lower.
Variable toLowerCase : string -> string.

Lemma filter_twice {A} (f g : A -> bool) (l : list A) :
  List.filter f (List.filter g l) = List.filter (fun x => (g x && f x)%bool) l.
Proof.
  induction l as [|x l IH]; [done |]. cbn [List.filter].
  destruct (g x); cbn [List.filter andb]; by rewrite IH.
Qed.

Lemma filter_all {A} (f : A -> bool) (l : list A) :
  (forall x, f x = true) -> List.filter f l = l.
Proof.
  intros H. induction l as [|x l IH]; [done |]. cbn [List.filter]. by rewrite H, IH.
Qed.

(** X9. Filtering the devices by manufacturer and then by name gives the
    same list as one call with both criteria, and a criterion that is
    absent or the empty string keeps every device. *)
Theorem filterDevices_criteria_compose (devices : list DLNADevice) (m n : option string) :
  filterDevices toLowerCase
    (filterDevices toLowerCase devices {| Filter.manufacturer := m; Filter.name := None |})
    {| Filter.manufacturer := None; Filter.name := n |}
  = filterDevices toLowerCase devices {| Filter.manufacturer := m; Filter.name := n |} /\
  filterDevices toLowerCase devices
    {| Filter.manufacturer := Some EmptyString; Filter.name := Some EmptyString |} = devices /\
  filterDevices toLowerCase devices
    {| Filter.manufacturer := None; Filter.name := None |} = devices.
Proof.
  unfold filterDevices. split; [| split].
  - rewrite filter_twice. apply filter_ext. intros d.
    unfold keeps. cbn [Filter.manufacturer Filter.name].
    destruct m as [m|], n as [n|]; cbn [andb];
      repeat match goal with |- context [if ?b then _ else _] => destruct b end; done.
  - by apply filter_all.
  - by apply filter_all.
Qed.

(** X10. Whenever the manufacturer filter of the documentation's example,
    ['Samsung'], keeps a device, [findSamsungTV] finds one, and what it
    finds has [samsung] in its lowercased name or manufacturer. *)
Theorem samsung_filter_implies_findSamsungTV (devices : list DLNADevice) (d : DLNADevice) :
  toLowerCase "Samsung" = "samsung" ->
  In d (filterDevices toLowerCase devices
          {| Filter.manufacturer := Some "Samsung"; Filter.name := None |}) ->
  exists d', findSamsungTV toLowerCase devices = Some d' /\
             isSamsung toLowerCase d' = true.
Proof.
  intros Hl Hin. unfold filterDevices in Hin. apply filter_In in Hin as [Hin Hk].
  assert (isSamsung toLowerCase d = true) as Hs.
  { unfold keeps in Hk. cbn [Filter.manufacturer Filter.name truthy Str.isEmpty negb andb] in Hk.
    rewrite Hl in Hk. unfold isSamsung.
    destruct (Str.contains "samsung" (toLowerCase (manufacturer d))); [| done].
    by rewrite orb_true_r. }
  unfold findSamsungTV. destruct (List.find (isSamsung toLowerCase) devices) as [d'|] eqn:E.
  - exists d'. split; [done |]. by apply find_some in E as [_ E].
  - pose proof (find_none _ _ E d Hin) as N. congruence.
Qed.

End Lower.

Lemma samsung_filter_implies_findSamsungTV_witness :
  exists d', findSamsungTV Str.toLowerCase [Fixture.speaker; Fixture.samsung] = Some d' /\
             isSamsung Str.toLowerCase d' = true.
Proof.
  apply (samsung_filter_implies_findSamsungTV Str.toLowerCase
           [Fixture.speaker; Fixture.samsung] Fixture.samsung).
  - reflexivity.
  - vm_compute. by left.
Defined.

Lemma replay_snoc (es : list DeviceEvent) (e : DeviceEvent) (s : list DLNADevice) :
  replay (es ++ [e])%list s = handle (replay es s) e.
Proof. unfold replay. by rewrite fold_left_app. Qed.

Lemma lastAbout_snoc (i : string) (es : list DeviceEvent) (e : DeviceEvent) :
  lastAbout i (es ++ [e])%list = if String.eqb (eventId e) i then Some e else lastAbout i es.
Proof.
  unfold lastAbout. rewrite List.filter_app. cbn [List.filter].
  destruct (String.eqb (eventId e) i); [by rewrite last_snoc | by rewrite app_nil_r].
Qed.

Lemma ids_found (d : DLNADevice) (prev : list DLNADevice) (i : string) :
  In i (map id (onDeviceFound d prev)) <-> In i (map id prev) \/ i = id d.
Proof.
  unfold onDeviceFound.
  destruct (existsb (fun d0 => String.eqb (id d0) (id d)) prev) eqn:E.
  - split; [by left |]. intros [H | ->]; [done |].
    apply existsb_exists in E as (d0 & Hin & Heq).
    apply String.eqb_eq in Heq. rewrite <- Heq. by apply in_map.
  - rewrite map_app, in_app_iff. cbn [map In]. split.
    + intros [H | [<- | []]]; auto.
    + intros [H | ->]; auto.
Qed.

Lemma ids_lost (l : string) (prev : list DLNADevice) (i : string) :
  In i (map id (onDeviceLost l prev)) <-> In i (map id prev) /\ i <> l.
Proof.
  unfold onDeviceLost. rewrite !in_map_iff. split.
  - intros (d & <- & H). apply filter_In in H as [H1 H2]. split; [by exists d |].
    intros Heq. apply String.eqb_eq in Heq. by rewrite Heq in H2.
  - intros [(d & <- & H) Hne]. exists d. split; [done |]. apply filter_In. split; [done |].
    destruct (String.eqb_spec (id d) l); done.
Qed.

Lemma ids_nodup_found (d : DLNADevice) (prev : list DLNADevice) :
  List.NoDup (map id prev) -> List.NoDup (map id (onDeviceFound d prev)).
Proof.
  intros H. unfold onDeviceFound.
  destruct (existsb (fun d0 => String.eqb (id d0) (id d)) prev) eqn:E; [done |].
  assert (~ In (id d) (map id prev)) as Hn.
  { intros Hin. apply in_map_iff in Hin as (d0 & Heq & Hin).
    assert (existsb (fun d0 => String.eqb (id d0) (id d)) prev = true); [| congruence].
    apply existsb_exists. exists d0. split; [done |]. by apply String.eqb_eq. }
  clear E. induction prev as [|x prev IH]; cbn [map app] in *.
  - constructor; [by intros [] | constructor].
  - apply NoDup_cons_iff in H as [H1 H2]. apply NoDup_cons_iff. split.
    + rewrite map_app, in_app_iff. cbn [map In]. intros [? | [? | []]]; [done |].
      apply Hn. left. congruence.
    + apply IH; [done |]. intros ?. apply Hn. by right.
Qed.

Lemma ids_nodup_lost (l : string) (prev : list DLNADevice) :
  List.NoDup (map id prev) -> List.NoDup (map id (onDeviceLost l prev)).
Proof.
  unfold onDeviceLost. induction prev as [|x prev IH]; [done |].
  cbn [map List.filter]. intros H. apply NoDup_cons_iff in H as [H1 H2].
  destruct (negb (String.eqb (id x) l)); [| by apply IH].
  cbn [map]. apply NoDup_cons_iff. split; [| by apply IH].
  intros Hin. apply H1. apply in_map_iff in Hin as (d & Heq & Hin).
  apply filter_In in Hin as [Hin _]. apply in_map_iff. by exists d.
Qed.

(** X11. The device list of the example screen, built from the found and
    lost events alone, never shows one id twice, and it shows an id
    exactly when the most recent event about that id is a device-found
    event. *)
Theorem device_list_follows_last_event (events : list DeviceEvent) :
  List.NoDup (map id (replay events [])) /\
  forall i, In i (map id (replay events [])) <->
            exists d, lastAbout i events = Some (deviceFound d).
Proof.
  induction events as [|e es [IHn IHm]] using rev_ind.
  - split; [constructor |]. intros i. split; [done | by intros [? ?]].
  - rewrite replay_snoc. split.
    + destruct e; [by apply ids_nodup_found | by apply ids_nodup_lost].
    + intros i. rewrite lastAbout_snoc. destruct e as [d|l]; cbn [handle eventId].
      * rewrite ids_found, IHm. destruct (String.eqb_spec (id d) i) as [<-|Hne].
        -- split; [by exists d | by right].
        -- split; [intros [H | ->]; done | by left].
      * rewrite ids_lost, IHm. destruct (String.eqb_spec l i) as [<-|Hne].
        -- split; [by intros [_ ?] | by intros [? ?]].
        -- split; [by intros [? _] | intros ?; split; [done | congruence]].
Qed.

End JsHelperFacts.

(** * Discovery and the device cache on iOS *)

Section IOSDiscoveryFacts.
Import IOS IOSDiscovery.

Lemma cache_fold (rs : list Device) (m : gmap string Device) (i : string) :
  is_Some (fold_left (fun cache device => <[uuid device := device]> cache) rs m !! i) <->
  In i (map uuid rs) \/ is_Some (m !! i).
Proof.
  revert m. induction rs as [|d rs IH]; intros m; cbn [fold_left map In].
  - split; [by right | by intros [[] | ?]].
  - rewrite IH. destruct (decide (uuid d = i)) as [<-|Hne].
    + rewrite lookup_insert_eq. split; [intros _; by left; left | intros _; right; by eexists].
    + rewrite lookup_insert_ne by done. split.
      * intros [? | ?]; [left; by right | by right].
      * intros [[? | ?] | ?]; [done | by left | by right].
Qed.

Lemma cacheAll_lookup (rs : list Device) (i : string) :
  is_Some (cacheAll rs !! i) <-> In i (map uuid rs).
Proof.
  unfold cacheAll. rewrite cache_fold. split; [| by left].
  intros [? | [? H]]; [done |]. by rewrite lookup_empty in H.
Qed.

Lemma control_not_found id action st :
  mediaController st = true -> discoveredDevices st !! id = None ->
  exists msg, controlPlayback id action st = reject DEVICE_NOT_FOUND msg st.
Proof. intros Hc Hd. unfold controlPlayback. rewrite Hc, Hd. by eexists. Qed.

Section Vendor.
Variables manufacturerOf modelNameOf : Device -> option string.

(** X12. After a successful [discoverDevices], [controlPlayback]
    dispatches a valid action for every listed id, and rejects every
    other id with DEVICE_NOT_FOUND without calling the media controller,
    whatever the cache held before. *)
Theorem ios_control_accepts_exactly_the_listed
    (st st' : State) (listed : list Bridge.DeviceInfo) (i action : string) :
  discoverDevices manufacturerOf modelNameOf st = (Bridge.Discovered listed, st') ->
  (In i (map Bridge.id listed) -> validAction action ->
   calls (controlPlayback i action st') = (calls st' ++ [actionOf action])%list) /\
  (~ In i (map Bridge.id listed) ->
   exists msg, controlPlayback i action st' = reject DEVICE_NOT_FOUND msg st').
Proof.
  unfold discoverDevices.
  destruct (upnpRunning st); [| done]. destruct (mediaController st) eqn:Hc; [| done].
  cbn [negb]. intros [= <- <-].
  rewrite map_map. cbn [deviceInfo Bridge.id].
  change (map (fun x => uuid x) (renderers st)) with (map uuid (renderers st)).
  rewrite <- cacheAll_lookup. split.
  - intros [d Hd] Hv. by apply IOSFacts.ios_switch_valid with d.
  - intros Hn. apply control_not_found; [done |].
    cbn [discoveredDevices setDiscovered].
    destruct (cacheAll (renderers st) !! i) eqn:E; [| done]. exfalso. apply Hn. by eexists.
Qed.

(** X13. After [closeService] nothing can be played until the service is
    started and the devices are found again: a cast with an accepted url
    and a discovery are rejected with SERVICE_NOT_STARTED, and a playback
    action is rejected for every id, with DEVICE_NOT_FOUND when the media
    controller exists and with CONTROLLER_NOT_INITIALIZED when the service
    was never started; none of them calls the media controller. *)
Theorem ios_closeService_disables_commands (st : State) (rq : CastRequest) (i action : string) :
  acceptedScheme (videoUrl rq) ->
  (exists msg, promise (castToDevice rq (closeService st))
               = (promise st ++ [Reject SERVICE_NOT_STARTED msg])%list) /\
  calls (castToDevice rq (closeService st)) = calls st /\
  (exists msg, discoverDevices manufacturerOf modelNameOf (closeService st)
               = (Bridge.NotDiscovered SERVICE_NOT_STARTED msg, closeService st)) /\
  (exists msg, controlPlayback i action (closeService st)
               = reject (if mediaController st then DEVICE_NOT_FOUND
                         else CONTROLLER_NOT_INITIALIZED) msg (closeService st)).
Proof.
  intros Hurl. unfold castToDevice. rewrite (validateVideoUrl_accepts _ Hurl).
  unfold castToDeviceWithRetry. change (MAX_RETRIES <? 1) with false. cbv iota.
  cbn [closeService logAttempt upnpRunning setDiscovered setEnvironment negb].
  split; [by eexists |]. split; [done |]. split; [by eexists |].
  destruct (mediaController st) eqn:Hc.
  - apply control_not_found; [done |]. apply lookup_empty.
  - unfold controlPlayback. cbn [closeService mediaController setDiscovered setEnvironment].
    rewrite Hc. by eexists.
Qed.

(** The state [discoverDevices] leaves is the one the input
    [discoverDevicesCalled] of a run gives. *)
Lemma discoverDevices_state (st : State) :
  snd (discoverDevices manufacturerOf modelNameOf st) = rediscover st.
Proof.
  unfold discoverDevices, rediscover.
  by destruct (negb (upnpRunning st)), (negb (mediaController st)).
Qed.

End Vendor.

Lemma ios_control_accepts_exactly_the_listed_witness :
  calls (controlPlayback "uuid:tv" "stop"
           (snd (discoverDevices (fun _ => None) (fun _ => None)
                   (initial true true [Sample.appleTv] ∅ (fun _ => true))))) = [Stop].
Proof.
  refine (proj1 (ios_control_accepts_exactly_the_listed (fun _ => None) (fun _ => None)
            (initial true true [Sample.appleTv] ∅ (fun _ => true)) _
            [deviceInfo (fun _ => None) (fun _ => None) Sample.appleTv]
            "uuid:tv" "stop" eq_refl) _ _).
  - by left.
  - right; by right.
Defined.

Lemma ios_closeService_disables_commands_witness :
  exists msg, controlPlayback "uuid:tv" "play"
                (closeService (initial true true [Sample.appleTv]
                                 {["uuid:tv" := Sample.appleTv]} (fun _ => true)))
              = reject DEVICE_NOT_FOUND msg
                  (closeService (initial true true [Sample.appleTv]
                                   {["uuid:tv" := Sample.appleTv]} (fun _ => true))).
Proof.
  exact (proj2 (proj2 (proj2 (ios_closeService_disables_commands
           (fun _ => None) (fun _ => None)
           (initial true true [Sample.appleTv] {["uuid:tv" := Sample.appleTv]} (fun _ => true))
           Sample.request "uuid:tv" "play" sample_url_accepted)))).
Defined.

Lemma attemptOn_keeps rq n d st :
  discoveredDevices (attemptOn rq n d st) = discoveredDevices st /\
  mediaController (attemptOn rq n d st) = mediaController st /\
  (promise (attemptOn rq n d st) = promise st \/
   promise (attemptOn rq n d st) = (promise st ++ [Resolve true])%list \/
   exists m, promise (attemptOn rq n d st) = (promise st ++ [Reject CAST_FAILED m])%list).
Proof.
  unfold attemptOn. cbv zeta. unfold invoke.
  cbn [transport calls emitCastProgress setFlags dispatch_after setQueue flags queue
       setCalls sleepHalfSecond setNow now].
  unfold retryOrFail.
  destruct (transport st (length (calls st))); [destruct (transport st _) |];
    try destruct (MAX_RETRIES <=? n); cbn; eauto 6.
Qed.

(** X14. On iOS a cast fills the device cache that [controlPlayback]
    reads: for a renderer that is on the network but was never listed,
    [controlPlayback] alone answers DEVICE_NOT_FOUND, and after one cast
    to it the same valid action is dispatched. *)
Theorem ios_cast_makes_device_controllable
    (st : State) (rq : CastRequest) (d : Device) (action : string) :
  acceptedScheme (videoUrl rq) -> validAction action ->
  upnpRunning st = true -> mediaController st = true ->
  discoveredDevices st !! deviceId rq = None ->
  findRenderer (deviceId rq) (renderers st) = Some d ->
  (exists msg, controlPlayback (deviceId rq) action st = reject DEVICE_NOT_FOUND msg st) /\
  discoveredDevices (castToDevice rq st) !! deviceId rq = Some d /\
  calls (controlPlayback (deviceId rq) action (castToDevice rq st))
  = (calls (castToDevice rq st) ++ [actionOf action])%list.
Proof.
  intros Hurl Hv Hr Hc Hd Hf. split; [by apply control_not_found |].
  assert (discoveredDevices (castToDevice rq st) !! deviceId rq = Some d /\
          mediaController (castToDevice rq st) = true) as [H1 H2].
  { unfold castToDevice. rewrite (validateVideoUrl_accepts _ Hurl).
    unfold castToDeviceWithRetry. change (MAX_RETRIES <? 1) with false. cbv iota.
    cbn [upnpRunning mediaController logAttempt]. rewrite Hr, Hc. cbn [negb].
    unfold resolveDevice. cbn [discoveredDevices renderers logAttempt]. rewrite Hd, Hf.
    destruct (attemptOn_keeps rq 1 d
                (setDiscovered (<[deviceId rq := d]> (discoveredDevices st)) (logAttempt 1 st)))
      as (E1 & E2 & _).
    cbn [discoveredDevices setDiscovered logAttempt] in E1.
    cbn [mediaController setDiscovered logAttempt] in E2.
    rewrite E1, E2. split; [apply lookup_insert_eq | done]. }
  split; [done |]. by apply IOSFacts.ios_switch_valid with d.
Qed.

Lemma ios_cast_makes_device_controllable_witness :
  calls (controlPlayback "uuid:tv" "pause"
           (castToDevice Sample.request
              (initial true true [Sample.appleTv] ∅ (fun _ => true))))
  = (calls (castToDevice Sample.request
              (initial true true [Sample.appleTv] ∅ (fun _ => true))) ++ [Pause])%list.
Proof.
  refine (proj2 (proj2 (ios_cast_makes_device_controllable
            (initial true true [Sample.appleTv] ∅ (fun _ => true))
            Sample.request Sample.appleTv "pause" sample_url_accepted _ eq_refl eq_refl _ _))).
  - right; by left.
  - apply lookup_empty.
  - reflexivity.
Defined.

End IOSDiscoveryFacts.

(** * The continuation of a cast call on iOS *)

Section IOSFlightFacts.
Import IOS IOSFlight Outcomes.

Lemma pendingRetries_app (q1 q2 : list Scheduled) :
  pendingRetries (q1 ++ q2)%list = (pendingRetries q1 ++ pendingRetries q2)%list.
Proof.
  induction q1 as [|s q1 IH]; [done |]. cbn [app pendingRetries].
  destruct (block s); [done |]. destruct (pending s); cbn [app]; by rewrite IH.
Qed.

Lemma pendingRetries_take_timeout (q : list Scheduled) (id : nat) (s : Scheduled) f n :
  q !! id = Some s -> block s = timeoutBlock f n ->
  pendingRetries (alter taken id q) = pendingRetries q.
Proof.
  revert id. induction q as [|x q IH]; intros [|id] Hq Hb; try done.
  - injection Hq as ->. cbn [alter list_alter pendingRetries taken block]. by rewrite Hb.
  - cbn [alter list_alter pendingRetries]. cbn in Hq.
    specialize (IH id Hq Hb). cbn [alter] in IH. by rewrite IH.
Qed.

Lemma pendingRetries_take_retry (q : list Scheduled) (id : nat) (s : Scheduled) n :
  q !! id = Some s -> block s = retryBlock n -> pending s = true ->
  exists l1 l2, pendingRetries q = (l1 ++ n :: l2)%list /\
                pendingRetries (alter taken id q) = (l1 ++ l2)%list.
Proof.
  revert id. induction q as [|x q IH]; intros [|id] Hq Hb Hp; try done.
  - injection Hq as ->. exists [], (pendingRetries q).
    cbn [alter list_alter pendingRetries taken block pending]. by rewrite Hb, Hp.
  - cbn in Hq. destruct (IH id Hq Hb Hp) as (l1 & l2 & E1 & E2).
    cbn [alter list_alter pendingRetries]. cbn [alter] in E2.
    destruct (block x); [by exists l1, l2 |].
    destruct (pending x); [| by exists l1, l2].
    exists (attemptNumber :: l1), l2. cbn [app]. by rewrite E1, E2.
Qed.

Lemma upTo_S (k : nat) : upTo (S k) = (upTo k ++ [Z.of_nat k + 1])%list.
Proof.
  unfold upTo. rewrite seq_S, map_app. cbn [map]. do 2 f_equal. lia.
Qed.

(** What one attempt adds to the queue, the promise and the log. *)
Lemma attemptOn_flight rq n d st :
  attemptLog (attemptOn rq n d st) = attemptLog st /\
  ((pendingRetries (queue (attemptOn rq n d st)) = pendingRetries (queue st) /\
    exists s, promise (attemptOn rq n d st) = (promise st ++ [s])%list /\
              castOutcome iosCastCode s = true) \/
   (n < MAX_RETRIES /\ promise (attemptOn rq n d st) = promise st /\
    pendingRetries (queue (attemptOn rq n d st)) = (pendingRetries (queue st) ++ [n])%list)).
Proof.
  unfold attemptOn. cbv zeta. unfold invoke.
  cbn [transport calls emitCastProgress setFlags dispatch_after setQueue flags queue
       setCalls sleepHalfSecond setNow now].
  unfold retryOrFail.
  destruct (transport st (length (calls st))); [destruct (transport st _) |];
    try (destruct (MAX_RETRIES <=? n) eqn:E; [| apply Z.leb_gt in E]);
    cbn; rewrite ?pendingRetries_app; cbn; rewrite ?app_nil_r;
    (split; [done |]); eauto 7.
Qed.

Lemma castToDeviceWithRetry_flight rq n st :
  n <= MAX_RETRIES ->
  attemptLog (castToDeviceWithRetry rq n st) = (attemptLog st ++ [n])%list /\
  ((pendingRetries (queue (castToDeviceWithRetry rq n st)) = pendingRetries (queue st) /\
    exists s, promise (castToDeviceWithRetry rq n st) = (promise st ++ [s])%list /\
              castOutcome iosCastCode s = true) \/
   (n < MAX_RETRIES /\ promise (castToDeviceWithRetry rq n st) = promise st /\
    pendingRetries (queue (castToDeviceWithRetry rq n st))
    = (pendingRetries (queue st) ++ [n])%list)).
Proof.
  intros Hn. unfold castToDeviceWithRetry.
  destruct (MAX_RETRIES <? n) eqn:E; [apply Z.ltb_lt in E; lia |].
  cbn [upnpRunning mediaController logAttempt].
  destruct (upnpRunning st); [| split; [done |]; left; cbn; eauto].
  destruct (mediaController st); [| split; [done |]; left; cbn; eauto].
  cbn [negb]. unfold resolveDevice. cbn [discoveredDevices renderers logAttempt].
  destruct (discoveredDevices st !! deviceId rq) as [d|].
  - apply (attemptOn_flight rq n d (logAttempt n st)).
  - destruct (findRenderer (deviceId rq) (renderers st)) as [d|].
    + apply (attemptOn_flight rq n d
               (setDiscovered (<[deviceId rq := d]> (discoveredDevices st)) (logAttempt n st))).
    + split; [done |]. left. cbn. eauto.
Qed.

Lemma castToDeviceWithRetry_singleFlight rq (k : nat) st :
  (k < 3)%nat -> allCompleted st ->
  attemptLog st = upTo k -> promise st = [] -> pendingRetries (queue st) = [] ->
  singleFlight (castToDeviceWithRetry rq (Z.of_nat k + 1) st).
Proof.
  intros Hk Hc Hl Hp Hq.
  split; [by apply IOSFacts.castToDeviceWithRetry_allCompleted |].
  destruct (castToDeviceWithRetry_flight rq (Z.of_nat k + 1) st) as [El H];
    [unfold MAX_RETRIES; lia |].
  exists (S k). rewrite El, Hl, upTo_S. split; [done |]. split; [lia |].
  destruct H as [(Eq & s & Ep & Hs) | (Hlt & Ep & Eq)].
  - right. rewrite Ep, Hp, Eq, Hq. split; [by exists s | done].
  - left. rewrite Ep, Hp, Eq, Hq. unfold MAX_RETRIES in Hlt.
    split; [done |]. split; [cbn [app]; f_equal; lia | lia].
Qed.

Lemma step_singleFlight rq t i st st' :
  singleFlight st -> step rq t i st = Some st' -> singleFlight st'.
Proof.
  intros [Hc (k & Hl & Hk & Hcase)] Hstep.
  pose proof (IOSFacts.step_allCompleted _ _ _ _ _ Hc Hstep) as Hc'.
  revert Hstep. unfold step. destruct (t <? now st); [done |].
  destruct i as [id | running rs | |];
    [| intros [= <-]; split; [done |]; by exists k | | intros [= <-]; split; [done |]; by exists k].
  2:{ intros [= <-]. split; [done |]. exists k.
      destruct (IOSFacts.rediscover_keeps (setNow t st)) as (-> & _ & -> & _ & -> & _). done. }
  cbn [queue setNow]. destruct (queue st !! id) as [s|] eqn:E; [| done].
  destruct (pending s && (due s <=? t))%bool eqn:Ed; [| done].
  apply andb_true_iff in Ed as [Hpend _]. intros [= <-].
  assert (allCompleted (setQueue (alter taken id (queue (setNow t st))) (setNow t st))) as H1.
  { destruct Hc as [Hf Hq]. split; [done |]. cbn. apply Forall_alter; [done |]. by intros []. }
  destruct (block s) as [f n | n] eqn:Eb.
  - rewrite IOSFacts.timeoutBlock_inert; [| done |].
    + split; [done |]. exists k. cbn [attemptLog promise queue setQueue setNow].
      by rewrite (pendingRetries_take_timeout _ _ _ _ _ E Eb).
    + destruct Hc as [_ Hq]. pose proof (Forall_lookup_1 _ _ _ _ Hq E) as Hs.
      unfold flagAllocated in Hs. by rewrite Eb in Hs.
  - destruct (pendingRetries_take_retry _ _ _ _ E Eb Hpend) as (l1 & l2 & E1 & E2).
    destruct Hcase as [(Hp & Hq & Hk1) | (Hp & Hq)].
    + rewrite Hq in E1. destruct l1 as [|? [|? ?]]; try done.
      injection E1 as <- <-. cbn [runBlock].
      apply castToDeviceWithRetry_singleFlight; [lia | done | done | done | done].
    + rewrite Hq in E1. by destruct l1.
Qed.

Lemma run_singleFlight rq script : forall st st',
  singleFlight st -> run rq script st = Some st' -> singleFlight st'.
Proof.
  induction script as [|[t i] script IH]; intros st st' H; cbn [run].
  - by intros [= <-].
  - destruct (step rq t i st) as [st1|] eqn:E; [| done].
    apply IH. by eapply step_singleFlight.
Qed.

Lemma castToDevice_singleFlight rq running controller rs cache tr :
  singleFlight (castToDevice rq (initial running controller rs cache tr)).
Proof.
  unfold castToDevice. destruct (validateVideoUrl (videoUrl rq)) as [msg|].
  - split; [split; constructor |]. exists 0%nat. split; [done |]. split; [lia |].
    right. split; [by eexists | done].
  - apply (castToDeviceWithRetry_singleFlight rq 0); try done; try lia; split; constructor.
Qed.

(** X15. In every run of a cast call on iOS, whatever the media
    controller answers and however the environment changes, the attempts
    are numbered 1, 2, ... up to at most 3 and the promise is settled at
    most once: while it is open exactly one retry waits on the queue, so
    the call cannot be left without an answer; once it is settled no retry
    waits, and the settlement is [true] or a rejection with INVALID_URL,
    SERVICE_NOT_STARTED, CONTROLLER_NOT_INITIALIZED, DEVICE_NOT_FOUND or
    CAST_FAILED. *)
Theorem ios_cast_settles_once_within_three_attempts
    rq running controller rs cache tr script st :
  run rq script (castToDevice rq (initial running controller rs cache tr)) = Some st ->
  exists k : nat,
    (k <= 3)%nat /\ attemptLog st = upTo k /\
    ((promise st = [] /\ pendingRetries (queue st) = [Z.of_nat k] /\ (1 <= k < 3)%nat) \/
     ((exists s, promise st = [s] /\ castOutcome iosCastCode s = true) /\
      pendingRetries (queue st) = [])).
Proof.
  intros Hrun.
  destruct (run_singleFlight _ _ _ _ (castToDevice_singleFlight rq running controller rs cache tr)
              Hrun) as [_ (k & Hl & Hk & Hcase)].
  exists k. split; [done |]. split; done.
Qed.

Lemma ios_cast_settles_once_within_three_attempts_witness :
  exists st,
    run Sample.request [(1000, fire 1); (3000, fire 3)]
      (castToDevice Sample.request
         (initial true true [Sample.appleTv] ∅ (fun _ => false))) = Some st /\
    exists k : nat, (k <= 3)%nat /\ attemptLog st = upTo k.
Proof.
  eexists. split; [vm_compute; reflexivity |].
  match goal with
  | |- context [attemptLog ?s] =>
      destruct (ios_cast_settles_once_within_three_attempts Sample.request
                  true true [Sample.appleTv] ∅ (fun _ => false)
                  [(1000, fire 1); (3000, fire 3)] s) as (k & Hk & Hl & _)
  end.
  - vm_compute. reflexivity.
  - exists k. split; [exact Hk | exact Hl].
Defined.

(** The deadline block of an attempt never acts. *)
Lemma timeout_step rq st id s f n t st' :
  allCompleted st -> queue st !! id = Some s -> block s = timeoutBlock f n ->
  step rq t (fire id) st = Some st' ->
  st' = setQueue (alter taken id (queue st)) (setNow t st).
Proof.
  intros Hc E Eb. unfold step. destruct (t <? now st); [done |].
  cbn [queue setNow]. rewrite E. destruct (pending s && (due s <=? t))%bool; [| done].
  rewrite Eb. intros [= <-].
  apply (IOSFacts.timeoutBlock_inert rq f n (setQueue (alter taken id (queue st)) (setNow t st))).
  - destruct Hc as [Hf Hq]. split; [done |]. cbn. apply Forall_alter; [done |]. by intros [].
  - destruct Hc as [_ Hq]. pose proof (Forall_lookup_1 _ _ _ _ Hq E) as Hs.
    unfold flagAllocated in Hs. by rewrite Eb in Hs.
Qed.

(** X16. The 30 second deadline of an attempt never takes effect on iOS:
    in every state a cast call can reach, running a timeout block settles
    nothing, emits nothing, sends nothing and schedules no retry, because
    the attempt it guards has always completed within the call that made
    it. *)
Theorem ios_deadline_never_takes_effect
    rq running controller rs cache tr script st id s f n t st' :
  run rq script (castToDevice rq (initial running controller rs cache tr)) = Some st ->
  queue st !! id = Some s -> block s = timeoutBlock f n ->
  step rq t (fire id) st = Some st' ->
  promise st' = promise st /\ emitted st' = emitted st /\ calls st' = calls st /\
  attemptLog st' = attemptLog st /\
  pendingRetries (queue st') = pendingRetries (queue st).
Proof.
  intros Hrun E Eb Hstep.
  pose proof (IOSFacts.run_allCompleted _ _ _ _
                (IOSFacts.castToDevice_allCompleted rq running controller rs cache tr) Hrun) as Hc.
  rewrite (timeout_step _ _ _ _ _ _ _ _ Hc E Eb Hstep).
  cbn [promise emitted calls attemptLog queue setQueue setNow].
  by rewrite (pendingRetries_take_timeout _ _ _ _ _ E Eb).
Qed.

Lemma ios_deadline_never_takes_effect_witness :
  exists st',
    step Sample.request 30000 (fire 0)
      (castToDevice Sample.request (initial true true [Sample.appleTv] ∅ (fun _ => false)))
    = Some st' /\
    promise st' = [].
Proof.
  eexists. split; [vm_compute; reflexivity |].
  refine (proj1 (ios_deadline_never_takes_effect Sample.request
            true true [Sample.appleTv] ∅ (fun _ => false) [] _ 0%nat _ _ _ 30000 _
            eq_refl _ _ _)).
  - vm_compute. reflexivity.
  - reflexivity.
  - vm_compute. reflexivity.
Defined.

Lemma castToDeviceWithRetry_cached rq n st d :
  discoveredDevices st !! deviceId rq = Some d -> without DEVICE_NOT_FOUND (promise st) ->
  discoveredDevices (castToDeviceWithRetry rq n st) !! deviceId rq = Some d /\
  without DEVICE_NOT_FOUND (promise (castToDeviceWithRetry rq n st)).
Proof.
  intros Hd Hp. unfold castToDeviceWithRetry.
  assert (forall c m, c <> DEVICE_NOT_FOUND ->
            without DEVICE_NOT_FOUND (promise st ++ [Reject c m])) as Hrej.
  { intros c m Hne. apply Forall_app. split; [done |]. repeat constructor.
    cbn. by apply bool_decide_eq_false. }
  destruct (MAX_RETRIES <? n); [split; [done | by apply Hrej] |].
  cbn [upnpRunning mediaController logAttempt].
  destruct (upnpRunning st); [| split; [done | by apply Hrej]].
  destruct (mediaController st); [| split; [done | by apply Hrej]].
  cbn [negb]. unfold resolveDevice. cbn [discoveredDevices renderers logAttempt]. rewrite Hd.
  destruct (attemptOn_keeps rq n d (logAttempt n st)) as (E1 & _ & E3).
  rewrite E1. split; [done |].
  destruct E3 as [-> | [-> | [m ->]]]; cbn [promise logAttempt];
    [done | | by apply Hrej].
  apply Forall_app. split; [done |]. by repeat constructor.
Qed.

Lemma step_cached rq t i st st' d :
  keepsCache i = true ->
  discoveredDevices st !! deviceId rq = Some d -> without DEVICE_NOT_FOUND (promise st) ->
  step rq t i st = Some st' ->
  discoveredDevices st' !! deviceId rq = Some d /\ without DEVICE_NOT_FOUND (promise st').
Proof.
  intros Hk Hd Hp. unfold step. destruct (t <? now st); [done |].
  destruct i as [id | running rs | |]; [| by intros [= <-] | done | done].
  cbn [queue setNow]. destruct (queue st !! id) as [s|]; [| done].
  destruct (pending s && (due s <=? t))%bool; [| done]. intros [= <-].
  destruct (block s) as [f n | n].
  - cbn [runBlock]. destruct (negb _); [| done]. unfold retryOrFail.
    destruct (MAX_RETRIES <=? n); [| done]. split; [done |]. cbn.
    apply Forall_app. split; [done |]. by repeat constructor.
  - cbn [runBlock]. by apply castToDeviceWithRetry_cached.
Qed.

Lemma run_cached rq script : forall st st' d,
  forallb (fun x => keepsCache (snd x)) script = true ->
  discoveredDevices st !! deviceId rq = Some d -> without DEVICE_NOT_FOUND (promise st) ->
  run rq script st = Some st' -> without DEVICE_NOT_FOUND (promise st').
Proof.
  induction script as [|[t i] script IH]; intros st st' d Hk Hd Hp; cbn [run].
  - by intros [= <-].
  - cbn [forallb snd] in Hk. apply andb_true_iff in Hk as [Hi Hk].
    destruct (step rq t i st) as [st1|] eqn:E; [| done].
    destruct (step_cached _ _ _ _ _ _ Hi Hd Hp E) as [Hd1 Hp1]. by apply IH with d.
Qed.

Lemma castToDeviceWithRetry_resolves rq n st :
  without DEVICE_NOT_FOUND (promise st) ->
  (exists d, discoveredDevices (castToDeviceWithRetry rq n st) !! deviceId rq = Some d /\
             without DEVICE_NOT_FOUND (promise (castToDeviceWithRetry rq n st))) \/
  (exists s, castToDeviceWithRetry rq n st = settle s (logAttempt n st)).
Proof.
  intros Hp. unfold castToDeviceWithRetry.
  destruct (MAX_RETRIES <? n); [right; by eexists |].
  cbn [upnpRunning mediaController logAttempt].
  destruct (upnpRunning st); [| right; by eexists].
  destruct (mediaController st); [| right; by eexists].
  cbn [negb]. unfold resolveDevice. cbn [discoveredDevices renderers logAttempt].
  assert (forall st1, promise st1 = promise st -> forall d,
            without DEVICE_NOT_FOUND (promise (attemptOn rq n d st1))) as Hatt.
  { intros st1 E d. destruct (attemptOn_keeps rq n d st1) as (_ & _ & [-> | [-> | [m ->]]]);
      rewrite E; [done | |]; (apply Forall_app; split; [done |]); by repeat constructor. }
  destruct (discoveredDevices st !! deviceId rq) as [d|] eqn:Ed.
  - left. exists d. destruct (attemptOn_keeps rq n d (logAttempt n st)) as (E1 & _).
    rewrite E1. split; [done | by apply Hatt].
  - destruct (findRenderer (deviceId rq) (renderers st)) as [d|]; [| right; by eexists].
    left. exists d.
    destruct (attemptOn_keeps rq n d
                (setDiscovered (<[deviceId rq := d]> (discoveredDevices st)) (logAttempt n st)))
      as (E1 & _).
    rewrite E1. split; [apply lookup_insert_eq | by apply Hatt].
Qed.

(** X17. On iOS, as long as no [discoverDevices] or [closeService] call
    runs in between, only the first attempt of a cast can report
    DEVICE_NOT_FOUND: once an attempt has resolved the device, every retry
    finds it in the cache, also when the renderer has left the network. *)
Theorem ios_not_found_only_on_first_attempt
    rq running controller rs cache tr script st :
  forallb (fun x => keepsCache (snd x)) script = true ->
  run rq script (castToDevice rq (initial running controller rs cache tr)) = Some st ->
  without DEVICE_NOT_FOUND (promise st) \/ attemptLog st = [1].
Proof.
  intros Hk. unfold castToDevice. destruct (validateVideoUrl (videoUrl rq)) as [msg|].
  { intros Hrun. left.
    apply IOSFacts.ios_run_quiescent in Hrun as (-> & _); [| by constructor].
    by repeat constructor. }
  destruct (castToDeviceWithRetry_resolves rq 1 (initial running controller rs cache tr))
    as [(d & Hd & Hp) | (s & ->)]; [constructor | |].
  - intros Hrun. left. by eapply run_cached.
  - intros Hrun. right.
    by apply IOSFacts.ios_run_quiescent in Hrun as (_ & _ & _ & _ & ->); [| constructor].
Qed.

Lemma ios_not_found_only_on_first_attempt_witness :
  exists st,
    run Sample.request [(1000, fire 1); (1500, environmentChanged true []); (3000, fire 3)]
      (castToDevice Sample.request
         (initial true true [Sample.appleTv] ∅ (fun _ => false))) = Some st /\
    (without DEVICE_NOT_FOUND (promise st) \/ attemptLog st = [1]).
Proof.
  eexists. split; [vm_compute; reflexivity |].
  apply (ios_not_found_only_on_first_attempt Sample.request
           true true [Sample.appleTv] ∅ (fun _ => false)
           [(1000, fire 1); (1500, environmentChanged true []); (3000, fire 3)]).
  - reflexivity.
  - vm_compute. reflexivity.
Defined.

(** The condition cannot be dropped: when the renderer has left the
    network and [discoverDevices] runs while a retry waits, the cache is
    refilled without it and the second attempt reports DEVICE_NOT_FOUND. *)
Example ios_retry_not_found_after_rediscovery :
  (fun st => (attemptLog st, settled DEVICE_NOT_FOUND st)) <$>
    run Sample.request
      [(500, environmentChanged true []); (600, discoverDevicesCalled); (1000, fire 1)]
      (castToDevice Sample.request (initial true true [Sample.appleTv] ∅ (fun _ => false)))
  = Some ([1; 2], [true]).
Proof. by vm_compute. Qed.

End IOSFlightFacts.

(** * Cast calls and playback commands on Android *)

Section AndroidMore.
Import Android AndroidControl.

Lemma control_oneAnswer id action service :
  oneAnswer (controlPlayback id action (initial service)).
Proof.
  unfold controlPlayback. cbn [upnpService initial].
  assert (forall c m, oneAnswer (reject c m (initial service))) as Hrej.
  { intros c m. split; [done |]. split; [done |]. split; [done |]. right. split; [done |].
    constructor. }
  assert (forall a, oneAnswer (execute a onControl (initial service))) as Hex.
  { intros a. split; [done |]. split; [done |]. split; [done |]. left. split; [done |].
    by exists a. }
  destruct service as [reg|]; [| apply Hrej].
  destruct (reg id) as [dev|]; [| apply Hrej].
  destruct (negb (hasAVTransport dev)); [apply Hrej |].
  repeat (match goal with |- context [if ?b then _ else _] => destruct b end);
    [apply Hex | apply Hex | apply Hex | apply Hrej].
Qed.

Lemma step_oneAnswer rq t i st st' :
  oneAnswer st -> step rq t i st = Some st' -> oneAnswer st'.
Proof.
  intros (Hl & He & Ha & Hcase). unfold step. destruct (t <? now st); [done |].
  destruct i as [id | inv o | service].
  - cbn [looper setNow]. by rewrite Hl.
  - cbn [invocations setNow]. destruct Hcase as [[Hp [a Hi]] | [Hp Hi]].
    + rewrite Hi. destruct inv as [|inv]; [| done]. cbn. intros [= <-].
      split; [by destruct o |]. split; [by destruct o |]. split; [by destruct o |].
      right. split; [destruct o; cbn; by rewrite Hp |].
      destruct o; cbn; by repeat constructor.
    + destruct (invocations st !! inv) as [iv|] eqn:E; [| done].
      by rewrite (Forall_lookup_1 _ _ _ _ Hi E).
  - intros [= <-]. split; [done |]. split; [done |]. split; [done |].
    destruct Hcase as [[Hp Hi] | [Hp Hi]]; [left | right]; done.
Qed.

Lemma run_oneAnswer rq script : forall st st',
  oneAnswer st -> run rq script st = Some st' -> oneAnswer st'.
Proof.
  induction script as [|[t i] script IH]; intros st st' H; cbn [run].
  - by intros [= <-].
  - destruct (step rq t i st) as [st1|] eqn:E; [| done].
    apply IH. by eapply step_oneAnswer.
Qed.

(** X18. A playback command on Android settles its promise at most once:
    either the call itself rejects, or the one answer of the control point
    does, and a second answer is not possible. The command posts no
    deadline and emits no progress event, so while the control point is
    silent the promise stays open. *)
Theorem android_control_settles_at_most_once rq id action service script st :
  run rq script (controlPlayback id action (initial service)) = Some st ->
  looper st = [] /\ emitted st = [] /\
  ((promise st = [] /\ exists a, actions st = [a] /\
                                 Forall (fun i => answered i = false) (invocations st)) \/
   (exists s, promise st = [s]) /\ Forall (fun i => answered i = true) (invocations st)).
Proof.
  intros Hrun.
  destruct (run_oneAnswer _ _ _ _ (control_oneAnswer id action service) Hrun)
    as (Hl & He & _ & [[Hp [a Hi]] | [Hp Hi]]).
  - split; [done |]. split; [done |]. left. split; [done |]. exists a. unfold actions.
    rewrite Hi. split; [done | by repeat constructor].
  - split; [done |]. split; [done |]. right. split; [| done].
    destruct (promise st) as [|s [|? ?]]; try done. by exists s.
Qed.

Lemma android_control_settles_at_most_once_witness :
  exists st,
    run Sample.request [(100, respond 0 (Failure "busy"))]
      (controlPlayback "uuid:tv" "play" (initial (Some Sample.registry))) = Some st /\
    looper st = [] /\ promise st = [Reject ACTION_FAILED "busy"].
Proof.
  eexists. split; [vm_compute; reflexivity |].
  split; [| vm_compute; reflexivity].
  refine (proj1 (android_control_settles_at_most_once Sample.request "uuid:tv" "play"
            (Some Sample.registry) [(100, respond 0 (Failure "busy"))] _ _)).
  vm_compute. reflexivity.
Defined.

(** X19. A cast that fails a guard of the first attempt is over at once:
    with no service bound it is rejected with SERVICE_NOT_STARTED and
    emits nothing; for a device without the AVTransport service it emits
    one connecting event and is rejected with SERVICE_NOT_AVAILABLE.
    Nothing is sent or scheduled, and nothing the environment does later
    changes that. *)
Theorem android_guard_rejection_is_final rq service script st :
  acceptedScheme (videoUrl rq) ->
  found rq (initial service) = None \/
  (exists dev, found rq (initial service) = Some (Some dev) /\ hasAVTransport dev = false) ->
  run rq script (castToDevice rq (initial service)) = Some st ->
  (exists msg,
     promise st = [Reject (match service with Some _ => SERVICE_NOT_AVAILABLE | None => SERVICE_NOT_STARTED end) msg]) /\
  stages st = (match service with Some _ => [connecting] | None => [] end) /\
  invocations st = [] /\ looper st = [] /\ attemptLog st = [1].
Proof.
  intros Hurl Hf Hrun.
  assert (quiescent (castToDevice rq (initial service)) /\
          (exists msg, promise (castToDevice rq (initial service))
             = [Reject (match service with Some _ => SERVICE_NOT_AVAILABLE | None => SERVICE_NOT_STARTED end) msg]) /\
          stages (castToDevice rq (initial service)) = (match service with Some _ => [connecting] | None => [] end) /\
          invocations (castToDevice rq (initial service)) = [] /\
          looper (castToDevice rq (initial service)) = [] /\
          attemptLog (castToDevice rq (initial service)) = [1]) as (Hq & Hp & Hs & Hi & Hl & Ha).
  { unfold castToDevice. rewrite (validateVideoUrl_accepts _ Hurl).
    unfold castToDeviceWithRetry. change (MAX_RETRIES <? 1) with false. cbv iota.
    cbn [upnpService logAttempt initial]. unfold found in Hf. cbn [upnpService initial] in Hf.
    destruct service as [reg|].
    - destruct Hf as [Hf | (dev & [= Hf] & Hav)]; [done |]. rewrite Hf, Hav. cbn [negb].
      split; [split; constructor |]. split; [by eexists |]. done.
    - split; [split; constructor |]. split; [by eexists |]. done. }
  destruct (AndroidFacts.android_run_quiescent rq script _ _ Hq Hrun)
    as (Ep & Ei & El & Ee & Ea).
  unfold stages. rewrite Ep, Ei, El, Ee, Ea. done.
Qed.

Lemma android_guard_rejection_is_final_witness :
  exists st msg,
    run Sample.request [(500, registryChanged (Some Sample.registry))]
      (castToDevice Sample.request (initial None)) = Some st /\
    promise st = [Reject SERVICE_NOT_STARTED msg].
Proof.
  eexists. 
  destruct (android_guard_rejection_is_final Sample.request None
              [(500, registryChanged (Some Sample.registry))]
              (setService (Some Sample.registry) (setNow 500
                 (castToDevice Sample.request (initial None))))
              sample_url_accepted (or_introl eq_refl) eq_refl) as ((msg & Hp) & _).
  exists msg. split; [reflexivity | exact Hp].
Defined.

(** X20. What a cast call shows (its events, the calls on its promise,
    its attempts and what is still scheduled) depends on the registry only
    through the device its own id resolves to: two registries that agree
    on that id give the same run, for every url and every sequence of
    timer firings and control-point answers. *)
Theorem android_cast_reads_only_its_device
    rq script (reg reg' : string -> option Device) :
  forallb (fun x => keepsRegistry (snd x)) script = true ->
  reg (deviceId rq) = reg' (deviceId rq) ->
  observe <$> run rq script (castToDevice rq (initial (Some reg)))
  = observe <$> run rq script (castToDevice rq (initial (Some reg'))).
Proof.
  intros Hs H. unfold castToDevice. destruct (validateVideoUrl (videoUrl rq)) as [msg|].
  - change (reject INVALID_URL msg (initial (Some reg)))
      with (setService (Some reg) (reject INVALID_URL msg (initial (Some reg')))).
    rewrite AndroidFacts.run_setService; [| done |].
    + by destruct (run rq script _).
    + unfold found. cbn. by rewrite H.
  - by apply AndroidFacts.run_resolved.
Qed.

Lemma android_cast_reads_only_its_device_witness :
  observe <$> run Sample.request [(100, respond 0 Success); (200, respond 1 Success)]
    (castToDevice Sample.request (initial (Some Sample.registry)))
  = observe <$> run Sample.request [(100, respond 0 Success); (200, respond 1 Success)]
    (castToDevice Sample.request (initial (Some (fun _ => Some Sample.tv)))).
Proof.
  apply (android_cast_reads_only_its_device Sample.request
           [(100, respond 0 Success); (200, respond 1 Success)]
           Sample.registry (fun _ => Some Sample.tv)); reflexivity.
Defined.

Lemma claim_keeps_flag flag tid st :
  (flag < length (flags st))%nat ->
  get flag (removeCallbacks tid (snd (compareAndSet_false_true flag st))) = true.
Proof. intros H. exact (AndroidFacts.claimed_flag_is_set flag st H). Qed.

(** X22. Once the play callback of an attempt has resolved the promise,
    that attempt is closed: its deadline runnable, the failure answer of
    its set-source action and any further answer of its play action leave
    the state as it is. *)
Theorem android_resolved_attempt_is_closed rq flag tid n name m o st :
  (flag < length (flags st))%nat -> get flag st = false ->
  let st1 := deliver (onCastPlay flag tid n name) Success st in
  promise st1 = (promise st ++ [Resolve true])%list /\
  runRunnable rq (timeoutRunnable flag n) st1 = st1 /\
  deliver (onSetAVTransportURI flag tid n name) (Failure m) st1 = st1 /\
  deliver (onCastPlay flag tid n name) o st1 = st1.
Proof.
  intros Hlt Hg. cbv zeta.
  assert (get flag (deliver (onCastPlay flag tid n name) Success st) = true) as Hset.
  { pose proof (claim_keeps_flag flag tid st Hlt) as H.
    cbn [deliver]. unfold compareAndSet_false_true in *. rewrite Hg in *. exact H. }
  split.
  - cbn [deliver]. unfold compareAndSet_false_true. by rewrite Hg.
  - by apply AndroidFacts.completed_flag_gates.
Qed.

Lemma android_resolved_attempt_is_closed_witness :
  runRunnable Sample.request (timeoutRunnable 0 1)
    (deliver (onCastPlay 0 0 1 "TV") Success
       (castToDevice Sample.request (initial (Some Sample.registry))))
  = deliver (onCastPlay 0 0 1 "TV") Success
      (castToDevice Sample.request (initial (Some Sample.registry))).
Proof.
  refine (proj1 (proj2 (android_resolved_attempt_is_closed Sample.request 0 0 1 "TV"
            "busy" Success (castToDevice Sample.request (initial (Some Sample.registry)))
            _ eq_refl))).
  vm_compute. lia.
Defined.

End AndroidMore.

(** * The rejection codes of a cast call on Android *)

Section AndroidCodes.
Import Android Outcomes AndroidCast.

Lemma castPath_settle s st :
  castOutcome (orExceeded androidCastCode) s = true -> castPath st -> castPath (settle s st).
Proof.
  intros Hs [Hp Hi]. split; [| done]. cbn. apply Forall_app. split; [done |].
  by repeat constructor.
Qed.

Lemma castPath_execute a cb st :
  cb <> onControl -> castPath st -> castPath (execute a cb st).
Proof.
  intros Hc [Hp Hi]. split; [done |]. cbn. apply Forall_app. split; [done |].
  by repeat constructor.
Qed.

Lemma castPath_retryOrFail n msg st : castPath st -> castPath (retryOrFail n msg st).
Proof.
  intros H. unfold retryOrFail. destruct (MAX_RETRIES <=? n); [by apply castPath_settle |].
  by destruct H.
Qed.

Lemma castPath_castToDeviceWithRetry rq n st :
  castPath st -> castPath (castToDeviceWithRetry rq n st).
Proof.
  intros H. unfold castToDeviceWithRetry.
  assert (castPath (logAttempt n st)) as H1 by (by destruct H).
  destruct (MAX_RETRIES <? n); [by apply castPath_settle |].
  cbn [upnpService logAttempt].
  destruct (upnpService st) as [reg|]; [| by apply castPath_settle].
  destruct (reg (deviceId rq)) as [dev|]; [| by apply castPath_settle].
  destruct (negb (hasAVTransport dev)).
  - apply castPath_settle; [done |]. by destruct H.
  - apply castPath_execute; [done |]. by destruct H.
Qed.

Lemma castPath_claim flag tid st :
  castPath st -> castPath (removeCallbacks tid (snd (compareAndSet_false_true flag st))).
Proof.
  intros H. unfold compareAndSet_false_true. destruct (get flag st); by destruct H.
Qed.

Lemma castPath_deliver cb o st :
  cb <> onControl -> castPath st -> castPath (deliver cb o st).
Proof.
  intros Hc H. destruct cb as [flag tid n name | flag tid n name |]; [| | done];
    destruct o as [|m]; cbn [deliver].
  - apply castPath_execute; [done |]. by destruct H.
  - pose proof (castPath_claim flag tid st H) as H1. unfold compareAndSet_false_true in *.
    destruct (get flag st); [done |]. by apply castPath_retryOrFail.
  - pose proof (castPath_claim flag tid st H) as H1. unfold compareAndSet_false_true in *.
    destruct (get flag st); [done |]. apply castPath_settle; [done |]. by destruct H1.
  - pose proof (castPath_claim flag tid st H) as H1. unfold compareAndSet_false_true in *.
    destruct (get flag st); [done |]. by apply castPath_retryOrFail.
Qed.

Lemma castPath_step rq t i st st' : castPath st -> step rq t i st = Some st' -> castPath st'.
Proof.
  intros H. unfold step. destruct (t <? now st); [done |].
  destruct i as [id | inv o | service].
  - cbn [looper setNow]. destruct (looper st !! id) as [p|]; [| done].
    destruct (pending p && (due p <=? t))%bool; [| done]. intros [= <-].
    assert (castPath (removeCallbacks id (setNow t st))) as H1 by (by destruct H).
    destruct (runnable p) as [flag n | n]; cbn [runRunnable].
    + destruct (negb _); [by apply castPath_retryOrFail | done].
    + by apply castPath_castToDeviceWithRetry.
  - cbn [invocations setNow]. destruct (invocations st !! inv) as [iv|] eqn:E; [| done].
    destruct (answered iv); [done |]. intros [= <-].
    destruct H as [Hp Hi]. apply castPath_deliver.
    + exact (Forall_lookup_1 _ _ _ _ Hi E).
    + split; [done |]. cbn. apply Forall_insert; [done |].
      exact (Forall_lookup_1 _ _ _ _ Hi E).
  - intros [= <-]. by destruct H.
Qed.

Lemma castPath_run rq script : forall st st',
  castPath st -> run rq script st = Some st' -> castPath st'.
Proof.
  induction script as [|[t i] script IH]; intros st st' H; cbn [run].
  - by intros [= <-].
  - destruct (step rq t i st) as [st1|] eqn:E; [| done].
    apply IH. by eapply castPath_step.
Qed.

Lemma castPath_castToDevice rq service : castPath (castToDevice rq (initial service)).
Proof.
  assert (castPath (initial service)) as H0 by (split; constructor).
  unfold castToDevice. destruct (validateVideoUrl (videoUrl rq)).
  - by apply castPath_settle.
  - by apply castPath_castToDeviceWithRetry.
Qed.

(** X23. Whatever the timers and the control point do, every settlement
    of a cast call on Android is [true] or a rejection with INVALID_URL,
    SERVICE_NOT_STARTED, DEVICE_NOT_FOUND, SERVICE_NOT_AVAILABLE or
    CAST_FAILED: a deadline that passes is reported as CAST_FAILED, never
    as TIMEOUT, and the codes of the playback commands never appear. The
    library calls are taken not to throw. *)
Theorem android_cast_rejection_codes rq service script st :
  run rq script (castToDevice rq (initial service)) = Some st ->
  Forall (fun s => castOutcome androidCastCode s = true) (promise st).
Proof.
  intros Hrun.
  destruct (castPath_run _ _ _ _ (castPath_castToDevice rq service) Hrun) as [Hp _].
  destruct (AndroidFacts.run_withinBudget _ _ _ _
              (AndroidFacts.castToDevice_withinBudget rq service) Hrun) as (_ & _ & Hb & _).
  apply Forall_forall. intros s Hs.
  pose proof (proj1 (Forall_forall _ _) Hp s Hs) as H1.
  pose proof (proj1 (Forall_forall _ _) Hb s Hs) as H2.
  destruct s as [v | c m]; [done |]. cbn in *. unfold orExceeded in H1.
  apply orb_true_iff in H1 as [H1 | H1]; [done |]. congruence.
Qed.

Lemma android_cast_rejection_codes_witness :
  exists st,
    run Sample.request [(30000, fire 0); (31000, fire 1); (61000, fire 2); (63000, fire 3);
                        (93000, fire 4)]
      (castToDevice Sample.request (initial (Some Sample.registry))) = Some st /\
    promise st = [Reject CAST_FAILED "Operation timed out after 3 attempts"] /\
    Forall (fun s => castOutcome androidCastCode s = true) (promise st).
Proof.
  eexists. split; [vm_compute; reflexivity |]. split; [vm_compute; reflexivity |].
  match goal with
  | |- Forall _ (promise ?s) =>
      apply (android_cast_rejection_codes Sample.request (Some Sample.registry)
               [(30000, fire 0); (31000, fire 1); (61000, fire 2); (63000, fire 3);
                (93000, fire 4)] s)
  end.
  vm_compute. reflexivity.
Defined.

End AndroidCodes.

(** * Cast calls on Android whose answers are on time *)

Section AndroidFlightFacts.
Import Android Outcomes AndroidFlight.

Ltac fields :=
  cbn [looper flags invocations promise emitted attemptLog now upnpService
       reject resolve settle logAttempt emitCastProgress postDelayed setLooper setFlags
       setInvocations setNow setService execute newAtomicBoolean removeCallbacks].

Lemma count_snoc (s : Stage) (ev : list ProgressEvent) (e : ProgressEvent) :
  count s (ev ++ [e])%list = (count s ev + (if decide (stage e = s) then 1 else 0))%nat.
Proof.
  unfold count. rewrite map_app, filter_app, length_app. f_equal.
  cbn [map]. rewrite filter_cons, filter_nil. by destruct (decide (stage e = s)).
Qed.

Lemma resolved_snoc (pr : list Settle) (s : Settle) :
  length (List.filter resolved (pr ++ [s])%list)
  = (length (List.filter resolved pr) + (if resolved s then 1 else 0))%nat.
Proof.
  rewrite List.filter_app, length_app. f_equal. cbn [List.filter]. by destruct (resolved s).
Qed.

Lemma upTo_snoc (k : nat) : (upTo k ++ [Z.of_nat (S k)])%list = upTo (S k).
Proof. unfold upTo. rewrite seq_S, map_app. reflexivity. Qed.

Lemma wired_post (l : list Posted) (ivs : list Invocation) (p : Posted) :
  wired l ivs -> wired (l ++ [p])%list ivs.
Proof.
  unfold wired. intros H. eapply Forall_impl; [exact H |].
  intros iv (f & tid & n & q & Hc & Hl & Hr).
  exists f, tid, n, q. split; [done |]. split; [| done]. by apply lookup_app_l_Some.
Qed.

Lemma wired_cancel (l : list Posted) (ivs : list Invocation) (id : nat) :
  wired l ivs -> wired (alter cancelled id l) ivs.
Proof.
  unfold wired. intros H. eapply Forall_impl; [exact H |].
  intros iv (f & tid & n & q & Hc & Hl & Hr).
  destruct (decide (id = tid)) as [->|Hne].
  - exists f, tid, n, (cancelled q). split; [done |]. split; [| done].
    rewrite list_lookup_alter. destruct (decide (tid = tid)); [| done]. by rewrite Hl.
  - exists f, tid, n, q. split; [done |]. split; [| done].
    by rewrite list_lookup_alter_ne.
Qed.

Lemma wired_answer (l : list Posted) (ivs : list Invocation) (inv : nat) (iv : Invocation) :
  ivs !! inv = Some iv -> wired l ivs -> wired l (<[inv := markAnswered iv]> ivs).
Proof.
  intros Hi H. apply Forall_insert; [done |]. exact (Forall_lookup_1 _ _ _ _ H Hi).
Qed.

Lemma wired_execute (l : list Posted) (ivs : list Invocation) (iv : Invocation) f tid n p :
  captured (callback iv) = Some (f, tid, n) -> l !! tid = Some p ->
  runnable p = timeoutRunnable f n ->
  wired l ivs -> wired l (ivs ++ [iv])%list.
Proof.
  intros Hc Hl Hr H. apply Forall_app. split; [done |]. repeat constructor.
  by exists f, tid, n, p.
Qed.

Lemma cancel_only (l : list Posted) (id : nat) :
  onlyPending id l -> Forall (fun p => pending p = false) (alter cancelled id l).
Proof.
  intros H. apply Forall_lookup. intros j p Hj.
  destruct (decide (id = j)) as [->|Hne].
  - rewrite list_lookup_alter in Hj. destruct (decide (j = j)); [| done].
    destruct (l !! j); [| done]. by injection Hj as <-.
  - rewrite list_lookup_alter_ne in Hj by done.
    destruct (pending p) eqn:E; [| done]. by specialize (H j p Hj E).
Qed.

Lemma post_only (l : list Posted) (p : Posted) :
  Forall (fun q => pending q = false) l ->
  (l ++ [p])%list !! length l = Some p /\ onlyPending (length l) (l ++ [p])%list.
Proof.
  intros H. split; [by rewrite list_lookup_middle |].
  intros j q Hj Hq. destruct (decide (j < length l)%nat) as [Hlt|Hge].
  - rewrite lookup_app_l in Hj by done.
    pose proof (Forall_lookup_1 _ _ _ _ H Hj) as Hf. congruence.
  - apply lookup_lt_Some in Hj. rewrite length_app in Hj. cbn in Hj. lia.
Qed.

(** A state between two attempts, after [k] of them. *)
Lemma retryOrFail_oneFlight (k : nat) msg st :
  (k <= 3)%nat ->
  wired (looper st) (invocations st) ->
  count playing (emitted st) = length (List.filter resolved (promise st)) ->
  attemptLog st = upTo k -> (count connecting (emitted st) <= k)%nat ->
  promise st = [] -> Forall (fun p => pending p = false) (looper st) ->
  oneFlight (retryOrFail (Z.of_nat k) msg st).
Proof.
  intros Hk Hw Hc Hl Hn Hp Hq. unfold retryOrFail.
  destruct (Z.leb_spec MAX_RETRIES (Z.of_nat k)) as [Hle|Hlt]; unfold MAX_RETRIES in *.
  - split; [done |]. split; [fields; by rewrite resolved_snoc, Nat.add_0_r |].
    exists k. split; [lia |]. split; [done |]. split; [done |].
    right. fields. rewrite Hp. split; [by eexists | done].
  - split; [by apply wired_post |]. split; [done |].
    exists k. split; [lia |]. split; [done |]. split; [done |].
    left. split; [done |]. fields.
    destruct (post_only (looper st)
                {| runnable := retryRunnable (Z.of_nat k);
                   due := now st + INITIAL_RETRY_DELAY * 2 ^ (Z.of_nat k - 1);
                   pending := true |} Hq) as [H1 H2].
    eexists _, _. split; [exact H1 |]. split; [done |]. split; [exact H2 |].
    left. split; [done | lia].
Qed.

Lemma castToDeviceWithRetry_oneFlight rq (k : nat) st :
  (k < 3)%nat ->
  wired (looper st) (invocations st) ->
  count playing (emitted st) = length (List.filter resolved (promise st)) ->
  attemptLog st = upTo k -> (count connecting (emitted st) <= k)%nat ->
  promise st = [] -> Forall (fun p => pending p = false) (looper st) ->
  oneFlight (castToDeviceWithRetry rq (Z.of_nat (S k)) st).
Proof.
  intros Hk Hw Hc Hl Hn Hp Hq. unfold castToDeviceWithRetry.
  destruct (Z.ltb_spec MAX_RETRIES (Z.of_nat (S k))) as [Hlt|_];
    [unfold MAX_RETRIES in Hlt; lia |].
  cbn [upnpService logAttempt].
  assert (forall c m, androidCastCode c = true ->
            oneFlight (reject c m (logAttempt (Z.of_nat (S k)) st))) as Hrej.
  { intros c m Hcode. split; [done |].
    split; [fields; by rewrite resolved_snoc, Nat.add_0_r |].
    exists (S k). split; [lia |]. split; [fields; by rewrite Hl, upTo_snoc |].
    split; [fields; lia |]. right. fields. rewrite Hp. split; [by eexists | done]. }
  destruct (upnpService st) as [reg|]; [| by apply Hrej].
  destruct (reg (deviceId rq)) as [dev|]; [| by apply Hrej].
  destruct (negb (hasAVTransport dev)).
  - split; [done |].
    split; [fields; by rewrite count_snoc, resolved_snoc, !Nat.add_0_r |].
    exists (S k). split; [lia |]. split; [fields; by rewrite Hl, upTo_snoc |].
    split; [fields; rewrite count_snoc; cbn [stage]; destruct (decide _); lia |].
    right. fields. rewrite Hp. split; [by eexists | done].
  - fields.
    destruct (post_only (looper st)
                {| runnable := timeoutRunnable (length (flags st)) (Z.of_nat (S k));
                   due := now st + CAST_TIMEOUT_MS; pending := true |} Hq) as [H1 H2].
    split.
    { fields. eapply wired_execute; [reflexivity | exact H1 | reflexivity |].
      by apply wired_post. }
    split; [fields; by rewrite count_snoc, Nat.add_0_r |].
    exists (S k). split; [lia |]. split; [fields; by rewrite Hl, upTo_snoc |].
    split; [fields; rewrite count_snoc; cbn [stage]; destruct (decide _); lia |].
    left. fields. split; [done |]. eexists _, _. split; [exact H1 |]. split; [done |].
    split; [exact H2 |]. right. exists (length (flags st)). split; [done |].
    unfold unset. by rewrite list_lookup_middle.
Qed.

Lemma deliver_oneFlight cb o st f tid n p :
  captured cb = Some (f, tid, n) -> looper st !! tid = Some p ->
  runnable p = timeoutRunnable f n ->
  (get f st || pendingAt tid st)%bool = true ->
  oneFlight st -> oneFlight (deliver cb o st).
Proof.
  intros Hcap Hlk Hr Hot (Hw & Hc & k & Hk & Hl & Hn & Hcont).
  assert (forall name,
            oneFlight (execute Play (onCastPlay f tid n name)
                         (emitCastProgress buffering "Loading media on TV..." name st))) as Hplay.
  { intros name. split; [fields; by eapply wired_execute |].
    split; [fields; by rewrite count_snoc, Nat.add_0_r |].
    exists k. split; [done |]. split; [done |].
    split; [fields; by rewrite count_snoc, Nat.add_0_r |]. done. }
  assert (oneFlight st) as Hst by (split; [done |]; split; [done |]; by exists k).
  destruct (get f st) eqn:G.
  { destruct cb as [f' tid' n' name | f' tid' n' name |]; [| | done];
      injection Hcap as -> -> ->; destruct o as [|m]; cbn [deliver];
      unfold compareAndSet_false_true; rewrite ?G; try done; try apply Hplay. }
  cbn [orb] in Hot. unfold pendingAt in Hot. rewrite Hlk in Hot.
  destruct Hcont as [(Hp & id0 & p0 & E0 & Hp0 & Honly & Hrun) | ((s & Hp & Hs) & Hnone)].
  2:{ pose proof (Forall_lookup_1 _ _ _ _ Hnone Hlk). congruence. }
  assert (tid = id0) as <- by (by eapply Honly).
  rewrite Hlk in E0. injection E0 as <-.
  destruct Hrun as [[Hr0 _] | (f0 & Hr0 & Hf0)]; [congruence |].
  rewrite Hr in Hr0. injection Hr0 as <- ->.
  pose proof (cancel_only _ _ Honly) as Hnone.
  pose proof (wired_cancel _ _ tid Hw) as Hw'.
  destruct cb as [f' tid' n' name | f' tid' n' name |]; [| | done];
    injection Hcap as -> -> ->; destruct o as [|m]; cbn [deliver];
    unfold compareAndSet_false_true; rewrite ?G; cbv beta iota.
  - apply Hplay.
  - by apply retryOrFail_oneFlight.
  - split; [done |]. split; [fields; by rewrite count_snoc, resolved_snoc, Hc |].
    exists k. split; [done |]. split; [done |].
    split; [fields; by rewrite count_snoc, Nat.add_0_r |].
    right. fields. rewrite Hp. split; [by eexists | done].
  - by apply retryOrFail_oneFlight.
Qed.

Lemma step_oneFlight rq t i st st' :
  oneFlight st -> onTime i st = true -> step rq t i st = Some st' -> oneFlight st'.
Proof.
  intros (Hw & Hc & k & Hk & Hl & Hn & Hcont) Hot. unfold step.
  destruct (t <? now st); [done |].
  destruct i as [id | inv o | service].
  - fields. destruct (looper st !! id) as [p|] eqn:E; [| done].
    destruct (pending p && (due p <=? t))%bool eqn:Ed; [| done].
    apply andb_true_iff in Ed as [Hpend _]. intros [= <-].
    destruct Hcont as [(Hp & id0 & p0 & E0 & Hp0 & Honly & Hrun) | ((s & Hp & Hs) & Hnone)].
    2:{ pose proof (Forall_lookup_1 _ _ _ _ Hnone E). congruence. }
    assert (id = id0) as <- by (by eapply Honly).
    rewrite E in E0. injection E0 as <-.
    pose proof (cancel_only _ _ Honly) as Hnone.
    pose proof (wired_cancel _ _ id Hw) as Hw'.
    destruct Hrun as [[Hr Hk3] | (f & Hr & Hf)]; rewrite Hr; cbn [runRunnable].
    + replace (Z.of_nat k + 1) with (Z.of_nat (S k)) by lia.
      by apply castToDeviceWithRetry_oneFlight.
    + assert (get f (removeCallbacks id (setNow t st)) = false) as -> by exact Hf.
      cbn [negb]. by apply retryOrFail_oneFlight.
  - fields. destruct (invocations st !! inv) as [iv|] eqn:E; [| done].
    destruct (answered iv); [done |]. intros [= <-].
    destruct (Forall_lookup_1 _ _ _ _ Hw E) as (f & tid & n & p & Hcap & Hlk & Hr).
    cbn [onTime] in Hot. rewrite E, Hcap in Hot.
    apply (deliver_oneFlight _ _ _ f tid n p); try done.
    split; [fields; by apply wired_answer |]. split; [done |]. by exists k.
  - intros [= <-]. split; [done |]. split; [done |]. by exists k.
Qed.

Lemma run_oneFlight rq script : forall st st',
  oneFlight st -> allOnTime rq script st = true -> run rq script st = Some st' ->
  oneFlight st'.
Proof.
  induction script as [|[t i] script IH]; intros st st' H Hot; cbn [run].
  - by intros [= <-].
  - cbn [allOnTime] in Hot. apply andb_true_iff in Hot as [Hi Hot].
    destruct (step rq t i st) as [st1|] eqn:E; [| done].
    apply IH; [by eapply step_oneFlight | done].
Qed.

Lemma castToDevice_oneFlight rq service : oneFlight (castToDevice rq (initial service)).
Proof.
  unfold castToDevice. destruct (validateVideoUrl (videoUrl rq)) as [msg|].
  - split; [constructor |]. split; [done |]. exists 0%nat. split; [lia |]. split; [done |].
    split; [done |]. right. split; [by eexists | constructor].
  - change 1 with (Z.of_nat 1). apply castToDeviceWithRetry_oneFlight; try done; try lia.
    constructor.
Qed.

(** X21. In every run of a cast call on Android in which no answer of
    the control point is late (none arrives after the deadline of its
    attempt has run), whatever the answers are and whenever the timers
    fire, the attempts are numbered 1, 2, ... up to at most 3 and the
    promise is settled at most once: while it is open exactly one runnable
    is pending, the deadline of the open attempt or the retry after the
    last one, so the call cannot be left without an answer; once it is
    settled no runnable is pending. The playing event is emitted exactly
    when the call resolves, and at most one connecting event per attempt. *)
Theorem android_on_time_call_settles_at_most_once rq service script st :
  allOnTime rq script (castToDevice rq (initial service)) = true ->
  run rq script (castToDevice rq (initial service)) = Some st ->
  countStage playing st = length (List.filter resolved (promise st)) /\
  exists k : nat,
    (k <= 3)%nat /\ attemptLog st = upTo k /\ (countStage connecting st <= k)%nat /\
    ((promise st = [] /\
      exists id p, looper st !! id = Some p /\ pending p = true /\
        (forall j q, looper st !! j = Some q -> pending q = true -> j = id) /\
        ((runnable p = retryRunnable (Z.of_nat k) /\ (k < 3)%nat) \/
         (exists f, runnable p = timeoutRunnable f (Z.of_nat k) /\ get f st = false))) \/
     ((exists s, promise st = [s] /\ castOutcome androidCastCode s = true) /\
      Forall (fun p => pending p = false) (looper st))).
Proof.
  intros Hot Hrun.
  destruct (run_oneFlight _ _ _ _ (castToDevice_oneFlight rq service) Hot Hrun)
    as (_ & Hc & k & Hk & Hl & Hn & Hcont).
  split; [exact Hc |]. exists k. split; [done |]. split; [done |]. split; [exact Hn |].
  exact Hcont.
Qed.

Lemma android_on_time_call_settles_at_most_once_witness :
  exists st,
    run Sample.request (onTimeScript 0 1 0 0 [playTimesOut; setSourceFails "busy"; succeeds])
      (castToDevice Sample.request (initial (Some Sample.registry))) = Some st /\
    countStage playing st = length (List.filter resolved (promise st)).
Proof.
  eexists. split; [vm_compute; reflexivity |].
  match goal with
  | |- countStage playing ?s = _ =>
      refine (proj1 (android_on_time_call_settles_at_most_once Sample.request
                (Some Sample.registry)
                (onTimeScript 0 1 0 0 [playTimesOut; setSourceFails "busy"; succeeds]) s _ _))
  end.
  - vm_compute. reflexivity.
  - vm_compute. reflexivity.
Defined.

(** The scripts in which every answer comes 100 ms after its action and
    every timer fires when it is due are on time, however the three
    attempts end. *)
Example onTimeScript_is_on_time (o1 o2 o3 : AttemptOutcome) :
  allOnTime Sample.request (onTimeScript 0 1 0 0 [o1; o2; o3])
    (castToDevice Sample.request (initial (Some Sample.registry))) = true.
Proof. destruct o1, o2, o3; vm_compute; reflexivity. Qed.

(** A late answer is outside the theorem: the run in which the set-source
    answer of attempt 1 arrives after its deadline has run is not on time. *)
Example late_answer_is_not_on_time :
  allOnTime Sample.request [(30000, fire 0); (30500, respond 0 Success)]
    (castToDevice Sample.request (initial (Some Sample.registry))) = false.
Proof. by vm_compute. Qed.

End AndroidFlightFacts.

(** * Opening another app on iOS *)

Section IOSAppsFacts.
Import IOSApps.



End IOSAppsFacts.
